(** * Dependency and link audit scripts: a shallow embedding

    This development embeds the algorithmic core of
    [scripts/analyze_dependencies.py], [scripts/fix_broken_links.py],
    [scripts/validate_links.py] and [scripts/enhance_audit.py] and proves
    properties of it.

    Conventions of the embedding.
    - A Python [str] is a [string]; the characters are those of [ascii].
    - A Python exception is a value [Raise e] of the [result] type; a
      [try ... except] block is the [try_except] combinator.
    - A [dict] whose iteration order matters (the dependency graph) is an
      association list in insertion order; a [dict] that is only looked up
      (the file cache) is a [gmap]; a [set] is a [gset].
    - A [pathlib.Path] is kept as what [PurePosixPath] parses it into, a
      root and a list of names; the file system has no symbolic links, so
      [Path.resolve] is the lexical normalisation of [..]. *)

From Stdlib Require Import String Ascii List Bool Arith Lia.
From stdpp Require Import base option list gmap sets strings.

Open Scope string_scope.
Open Scope list_scope.
Open Scope nat_scope.

#[local] Set Warnings "-clear-no-such-hyp".

(** ** Python results: values, exceptions, and the fuel of the model *)

Inductive exn : Type :=
  | ValueError
  | KeyError
  | OSError.

Inductive result (A : Type) : Type :=
  | Ok (a : A)
  | Raise (e : exn)
  | OutOfFuel.

Arguments Ok {A} a.
Arguments Raise {A} e.
Arguments OutOfFuel {A}.

#[global] Instance result_ret : MRet result := fun A a => Ok a.

#[global] Instance result_bind : MBind result := fun A B k m =>
  match m with
  | Ok a => k a
  | Raise e => Raise e
  | OutOfFuel => OutOfFuel
  end.

#[global] Instance result_fmap : FMap result := fun A B f m =>
  match m with
  | Ok a => Ok (f a)
  | Raise e => Raise e
  | OutOfFuel => OutOfFuel
  end.

(** [for x in xs: body] over a state threaded through the iterations. *)
Fixpoint for_each {A S : Type} (body : A → S → result S) (xs : list A) (s : S)
    : result S :=
  match xs with
  | [] => Ok s
  | x :: xs' => s' ← body x s ; for_each body xs' s'
  end.

(** [try: body  except Exception: handler]. Running out of fuel is not an
    exception of the program and is not caught. *)
Definition try_except {A : Type} (body : result A) (handler : exn → result A)
    : result A :=
  match body with
  | Raise e => handler e
  | r => r
  end.

(** ** Python string operations *)

Module PyStr.

(** [s.startswith(p)] *)
Fixpoint startswith (s p : string) : bool :=
  match p, s with
  | EmptyString, _ => true
  | String a p', String b s' => if decide (a = b) then startswith s' p' else false
  | String _ _, EmptyString => false
  end.

(** [p in s] for two strings. *)
Fixpoint contains (s p : string) : bool :=
  startswith s p ||
  match s with
  | EmptyString => false
  | String _ s' => contains s' p
  end.

(** The text after a prefix: [s[len(p):]] when [s.startswith(p)]. *)
Fixpoint strip_prefix (p s : string) : option string :=
  match p, s with
  | EmptyString, _ => Some s
  | String a p', String b s' => if decide (a = b) then strip_prefix p' s' else None
  | String _ _, EmptyString => None
  end.

(** [s[:n]] and [s[n:]]. *)
Fixpoint str_take (n : nat) (s : string) : string :=
  match n, s with
  | S n', String c s' => String c (str_take n' s')
  | _, _ => EmptyString
  end.

Fixpoint str_drop (n : nat) (s : string) : string :=
  match n, s with
  | S n', String _ s' => str_drop n' s'
  | _, _ => s
  end.

(** [s.split(sep)] for a one-character separator. *)
Fixpoint split (sep : ascii) (s : string) : list string :=
  match s with
  | EmptyString => [EmptyString]
  | String c s' =>
      if decide (c = sep) then EmptyString :: split sep s'
      else match split sep s' with
           | [] => [String c EmptyString]
           | w :: ws => String c w :: ws
           end
  end.

(** [s.split(sep)[0]] *)
Definition split_head (sep : ascii) (s : string) : string :=
  hd EmptyString (split sep s).

(** [s.split(sep, 1)[1]], for [s] that contains [sep]. *)
Fixpoint split_tail (sep : ascii) (s : string) : string :=
  match s with
  | EmptyString => EmptyString
  | String c s' => if decide (c = sep) then s' else split_tail sep s'
  end.

(** [sep.join(ws)] *)
Fixpoint join (sep : string) (ws : list string) : string :=
  match ws with
  | [] => EmptyString
  | [w] => w
  | w :: ws' => w +:+ sep +:+ join sep ws'
  end.

(** [s.replace(old, new, 1)]: the first occurrence only. An empty [old]
    occurs at position 0. *)
Fixpoint replace_first (s old new : string) : string :=
  match strip_prefix old s with
  | Some rest => new +:+ rest
  | None =>
      match s with
      | EmptyString => EmptyString
      | String c s' => String c (replace_first s' old new)
      end
  end.

(** [s.replace(old, new)] for a non-empty [old]: every occurrence, left to
    right, without overlap. [skip] counts the characters of the occurrence
    being replaced that are still to be passed over. *)
Fixpoint replace_all_from (skip : nat) (s old new : string) : string :=
  match s with
  | EmptyString => EmptyString
  | String c s' =>
      match skip with
      | S n => replace_all_from n s' old new
      | 0 =>
          if startswith s old
          then new +:+ replace_all_from (String.length old - 1) s' old new
          else String c (replace_all_from 0 s' old new)
      end
  end.

Definition replace_all (s old new : string) : string :=
  replace_all_from 0 s old new.

End PyStr.

(** ** The fragment of Python's [re] that the scripts use

    Every repetition in the scripts' patterns is over a single character
    class, so the abstract syntax has repetition of classes only. The
    matcher is a backtracking matcher with the priorities of [re]: a greedy
    repetition tries the longest run first, a lazy one the shortest, an
    optional group is tried before it is skipped, and the first success is
    the match. *)

Module Re.

Inductive regex : Type :=
  | Lit (s : string)            (* literal text *)
  | Class (p : ascii → bool)    (* one character of a class *)
  | Plus (p : ascii → bool)     (* [c+], greedy *)
  | LazyStar (p : ascii → bool) (* [c*?] *)
  | Seq (r1 r2 : regex)
  | Opt (r : regex)             (* [(?:r)?], greedy *)
  | Group (r : regex).          (* [(r)], capturing *)

Definition orelse {R : Type} (a b : option R) : option R :=
  match a with
  | Some x => Some x
  | None => b
  end.

(** [c*] greedy, then the continuation. *)
Fixpoint star_greedy {R : Type} (p : ascii → bool) (s : string)
    (k : string → option R) : option R :=
  match s with
  | String c s' => if p c then orelse (star_greedy p s' k) (k s) else k s
  | EmptyString => k s
  end.

(** [c*?] lazy, then the continuation. *)
Fixpoint star_lazy {R : Type} (p : ascii → bool) (s : string)
    (k : string → option R) : option R :=
  orelse (k s)
    match s with
    | String c s' => if p c then star_lazy p s' k else None
    | EmptyString => None
    end.

(** [re_match r s caps k]: match [r] at the start of [s], then run [k] on
    the rest of the text and the groups captured so far; [None] makes the
    matcher backtrack. *)
Fixpoint re_match {R : Type} (r : regex) (s : string) (caps : list string)
    (k : string → list string → option R) : option R :=
  match r with
  | Lit l =>
      match PyStr.strip_prefix l s with
      | Some s' => k s' caps
      | None => None
      end
  | Class p =>
      match s with
      | String c s' => if p c then k s' caps else None
      | EmptyString => None
      end
  | Plus p =>
      match s with
      | String c s' => if p c then star_greedy p s' (fun s'' => k s'' caps) else None
      | EmptyString => None
      end
  | LazyStar p => star_lazy p s (fun s' => k s' caps)
  | Seq r1 r2 => re_match r1 s caps (fun s' caps' => re_match r2 s' caps' k)
  | Opt r' => orelse (re_match r' s caps k) (k s caps)
  | Group r' =>
      re_match r' s caps (fun s' caps' =>
        k s' (caps' ++ [PyStr.str_take (String.length s - String.length s') s]))
  end.

(** One match object: [group(0)] and the captured groups. *)
Record match_object : Type := MatchObject {
  group0 : string;
  groups : list string
}.

(** [re.finditer(r, s)]: the matches from left to right, the search
    resuming where the previous match ended. [skip] counts the characters
    of the previous match still to be passed over. *)
Fixpoint finditer_from (skip : nat) (r : regex) (s : string) : list match_object :=
  match skip with
  | S n =>
      match s with
      | String _ s' => finditer_from n r s'
      | EmptyString => []
      end
  | 0 =>
      match re_match r s [] (fun s' caps => Some (s', caps)) with
      | Some (s', caps) =>
          let n := String.length s - String.length s' in
          MatchObject (PyStr.str_take n s) caps ::
          match s with
          | String _ s1 => finditer_from (n - 1) r s1
          | EmptyString => []
          end
      | None =>
          match s with
          | String _ s1 => finditer_from 0 r s1
          | EmptyString => []
          end
      end
  end.

Definition finditer (r : regex) (s : string) : list match_object :=
  finditer_from 0 r s.

(** [re.findall(r, s)] for a pattern with exactly one group: the list of
    what the group captured. *)
Definition findall1 (r : regex) (s : string) : list string :=
  flat_map (fun m => take 1 (groups m)) (finditer r s).

(** Character classes. [\s] on a [str] is Unicode white space, which below
    256 is 9 to 13, 28 to 32, 133 and 160. [.] is any character but a
    newline. *)
Definition is_space (c : ascii) : bool :=
  let n := nat_of_ascii c in
  (((9 <=? n) && (n <=? 13)) || ((28 <=? n) && (n <=? 32)) || (n =? 133) || (n =? 160))%nat.

Definition is_dot (c : ascii) : bool := negb (nat_of_ascii c =? 10)%nat.

Definition is_char (a : ascii) (c : ascii) : bool := bool_decide (c = a).

Definition any_of (cs : list ascii) (c : ascii) : bool := bool_decide (c ∈ cs).

Definition none_of (cs : list ascii) (c : ascii) : bool := negb (any_of cs c).

End Re.

(** ** scripts/analyze_dependencies.py : analyze_imports *)

Module Imports.

Import Re.

Definition squote : ascii := "039"%char.
Definition dquote : ascii := "034"%char.

(** The three patterns of [import_patterns]. In these comments Q stands
    for the class of the two quote characters, single and double, and ^Q
    for its complement.

    First pattern: import\s+(?:.*?\s+from\s+)?Q(^Q+)Q *)
Definition import_pattern : regex :=
  Seq (Lit "import") (Seq (Plus is_space)
  (Seq (Opt (Seq (LazyStar is_dot) (Seq (Plus is_space) (Seq (Lit "from") (Plus is_space)))))
  (Seq (Class (any_of [squote; dquote]))
  (Seq (Group (Plus (none_of [squote; dquote])))
       (Class (any_of [squote; dquote])))))).

(** Second pattern: require\(Q(^Q+)Q\) *)
Definition require_pattern : regex :=
  Seq (Lit "require(")
  (Seq (Class (any_of [squote; dquote]))
  (Seq (Group (Plus (none_of [squote; dquote])))
  (Seq (Class (any_of [squote; dquote])) (Lit ")")))).

(** Third pattern: from\s+Q(^Q+)Q *)
Definition from_pattern : regex :=
  Seq (Lit "from") (Seq (Plus is_space)
  (Seq (Class (any_of [squote; dquote]))
  (Seq (Group (Plus (none_of [squote; dquote])))
       (Class (any_of [squote; dquote]))))).

Definition import_patterns : list regex :=
  [import_pattern; require_pattern; from_pattern].

(** The body of the [try] block once the file is read: the matches of each
    pattern in turn are appended to [imports]. *)
Definition extract_imports (content : string) : list string :=
  fold_left (fun imports pattern => imports ++ findall1 pattern content)
            import_patterns [].

(** [analyze_imports(file_path)], given what opening and reading the file
    yields: its text, or an exception. The [except] clause passes, and the
    function returns [imports], still empty when the read failed. *)
Definition analyze_imports (read : exn + string) : result (list string) :=
  try_except
    (content ← match read with inl e => Raise e | inr content => Ok content end ;
     Ok (extract_imports content))
    (fun _ => Ok []).

End Imports.

(** ** [pathlib] and [os.path] on a POSIX system without symbolic links *)

Module PyPath.

(** What [PurePosixPath] parses a string into: the root (empty, one slash,
    or exactly two slashes) and the names; empty names and [.] are dropped
    by the parser. *)
Record Path : Type := MkPath {
  root : string;
  names : list string
}.

#[global] Instance Path_eq_dec : EqDecision Path.
Proof. solve_decision. Defined.

Fixpoint leading_slashes (s : string) : nat :=
  match s with
  | String c s' => if decide (c = "/"%char) then S (leading_slashes s') else 0
  | EmptyString => 0
  end.

(** [Path(s)] *)
Definition parse (s : string) : Path :=
  let n := leading_slashes s in
  MkPath (match n with 0 => "" | 2 => "//" | _ => "/" end)
         (filter (fun x => x ≠ "" ∧ x ≠ ".") (PyStr.split "/" (PyStr.str_drop n s))).

(** [p.parts] *)
Definition parts (p : Path) : list string :=
  (if decide (root p = "") then [] else [root p]) ++ names p.

(** [p.name] *)
Definition name (p : Path) : string := List.last (names p) "".

(** [p.parent] *)
Definition parent (p : Path) : Path := MkPath (root p) (removelast (names p)).

(** [p / q] *)
Definition joinpath (p q : Path) : Path :=
  if decide (root q = "") then MkPath (root p) (names p ++ names q) else q.

(** [str(p)] *)
Definition to_str (p : Path) : string :=
  match root p, names p with
  | EmptyString, [] => "."
  | r, ns => r +:+ PyStr.join "/" ns
  end.

(** Removing [..] against the name before it; at the root [..] stays at
    the root. *)
Definition collapse (ns : list string) : list string :=
  fold_left (fun acc x => if decide (x = "..") then removelast acc else acc ++ [x]) ns [].

(** [os.path.abspath] / [Path.absolute], against the working directory. *)
Definition absolute (cwd p : Path) : Path :=
  if decide (root p = "") then joinpath cwd p else p.

(** [p.resolve()] when no component is a symbolic link:
    [os.path.realpath] starts an absolute path from a single slash, also
    when it is written with two, and completes a relative path from the
    working directory. *)
Definition resolve (cwd p : Path) : Path :=
  let a := absolute cwd p in
  MkPath (if decide (root p = "") then root a else "/") (collapse (names a)).

Fixpoint strip_list_prefix (pre l : list string) : option (list string) :=
  match pre, l with
  | [], _ => Some l
  | x :: pre', y :: l' => if decide (x = y) then strip_list_prefix pre' l' else None
  | _ :: _, [] => None
  end.

(** [p.relative_to(other)]: [ValueError] unless the parts of [other] begin
    the parts of [p]; against the empty path, which has no parts,
    [ValueError] unless [p] is relative. *)
Definition relative_to (p other : Path) : result Path :=
  match parts other with
  | [] => if decide (root p = "") then Ok (MkPath "" (parts p)) else Raise ValueError
  | _ :: _ =>
      match strip_list_prefix (parts other) (parts p) with
      | Some rest => Ok (MkPath "" rest)
      | None => Raise ValueError
      end
  end.

Fixpoint commonprefix (l1 l2 : list string) : list string :=
  match l1, l2 with
  | x :: l1', y :: l2' => if decide (x = y) then x :: commonprefix l1' l2' else []
  | _, _ => []
  end.

(** [os.path.relpath(path, start)] *)
Definition relpath (cwd path start : Path) : string :=
  let start_list := collapse (names (absolute cwd start)) in
  let path_list := collapse (names (absolute cwd path)) in
  let i := length (commonprefix start_list path_list) in
  let rel_list := replicate (length start_list - i) ".." ++ drop i path_list in
  match rel_list with
  | [] => "."
  | _ => PyStr.join "/" rel_list
  end.

(** The part of the file system the scripts observe: the working
    directory, which resolved paths exist, and what reading a file yields
    (its text, or the exception raised). [stat] is assumed never to fail
    for lack of permission. *)
Record file_system : Type := FileSystem {
  cwd : Path;
  exists_ : Path → bool;
  read_text : Path → exn + string;
  writable : Path → bool
}.

(** [p.write_text(content)]: the file then reads back as [content]; which
    paths exist does not change. *)
Definition write_text (fs : file_system) (p : Path) (content : string)
    : result file_system :=
  if writable fs p
  then Ok (FileSystem (cwd fs) (exists_ fs)
             (fun p' => if decide (p' = p) then inr content else read_text fs p')
             (writable fs))
  else Raise OSError.

End PyPath.

(** ** scripts/analyze_dependencies.py : build_dependency_graph *)

Module GraphBuilder.

Import PyPath.

(** The three kinds of reference that the [if]/[elif]/[else] of the loop
    over [imports] tells apart. *)
Inductive kind : Type := relative | aliased | external.

Definition classify (imp : string) : kind :=
  if PyStr.startswith imp "." then relative
  else if PyStr.startswith imp "@/" then aliased
  else external.

(** The body of [for imp in imports]: what one import appends to
    [resolved_imports]. The bare [except] swallows the [ValueError] of
    [relative_to]. *)
Definition resolve_import (fs : file_system) (root_dir file_path : Path) (imp : string)
    : result (list string) :=
  if PyStr.startswith imp "." then
    let resolved := resolve (cwd fs) (joinpath (parent file_path) (parse imp)) in
    try_except
      (rel_resolved ← relative_to resolved root_dir ; Ok [to_str rel_resolved])
      (fun _ => Ok [])
  else if PyStr.startswith imp "@/" then
    Ok [PyStr.replace_all imp "@/" "src/"]
  else
    Ok ["external:" +:+ imp].

Definition resolve_imports (fs : file_system) (root_dir file_path : Path)
    (imports : list string) : result (list string) :=
  for_each (fun imp resolved_imports =>
              more ← resolve_import fs root_dir file_path imp ;
              Ok (resolved_imports ++ more))
           imports [].

(** [graph[rel_path] = resolved_imports] on a [dict] kept in insertion
    order: a key already present keeps its place. *)
Fixpoint dict_set (g : list (string * list string)) (k : string) (v : list string)
    : list (string * list string) :=
  match g with
  | [] => [(k, v)]
  | (k', v') :: g' => if decide (k' = k) then (k, v) :: g' else (k', v') :: dict_set g' k v
  end.

(** The filter on [str(f)] that drops test files and node_modules. *)
Definition is_source_file (f : Path) : bool :=
  negb (PyStr.contains (to_str f) "node_modules")
  && negb (PyStr.contains (to_str f) "__tests__")
  && negb (PyStr.contains (to_str f) ".test.")
  && negb (PyStr.contains (to_str f) ".spec.").

(** [build_dependency_graph(root_dir, extensions)]. [rglob ext] is what
    [Path(root_dir).rglob('*' + ext)] enumerates, each file given by its
    names below [root_dir]. *)
(** The body of [for file_path in files]. *)
Definition scan_file (fs : file_system) (root_dir file_path : Path)
    (graph : list (string * list string)) : result (list (string * list string)) :=
  rel ← relative_to file_path root_dir ;
  let rel_path := to_str rel in
  imports ← Imports.analyze_imports (read_text fs file_path) ;
  resolved_imports ← resolve_imports fs root_dir file_path imports ;
  Ok (dict_set graph rel_path resolved_imports).

(** [build_dependency_graph(root_dir, extensions)]. [rglob ext] is what
    [Path(root_dir).rglob('*' + ext)] enumerates, each file given by its
    names below [root_dir]. *)
Definition build_dependency_graph (fs : file_system) (rglob : string → list (list string))
    (root_dir : Path) (extensions : list string) : result (list (string * list string)) :=
  let files := flat_map (fun ext => map (fun rel => joinpath root_dir (MkPath "" rel)) (rglob ext))
                        extensions in
  let files := List.filter is_source_file files in
  for_each (scan_file fs root_dir) files [].

End GraphBuilder.

(** ** scripts/analyze_dependencies.py : find_circular_dependencies *)

Module CycleDetector.

(** The graph is a [dict] from a node to the list of its successors, in
    insertion order. *)
Definition graph : Type := list (string * list string).

(** [graph[node]], guarded in the source by [node in graph]. *)
Fixpoint graph_get (g : graph) (node : string) : option (list string) :=
  match g with
  | [] => None
  | (k, vs) :: g' => if decide (k = node) then Some vs else graph_get g' node
  end.

(** [for node in graph] *)
Definition graph_keys (g : graph) : list string := map fst g.

(** [path.index(neighbor)]: the first position, or [ValueError]. *)
Fixpoint index (path : list string) (x : string) : result nat :=
  match path with
  | [] => Raise ValueError
  | y :: path' => if decide (y = x) then Ok 0 else i ← index path' x ; Ok (S i)
  end.

(** The objects [dfs] shares between its calls: the two sets it is passed
    and the list [circulars] of the enclosing function. *)
Record dfs_state : Type := DfsState {
  visited : gset string;
  rec_stack : gset string;
  circulars : list (list string)
}.

Definition set_circulars (σ : dfs_state) (cs : list (list string)) : dfs_state :=
  DfsState (visited σ) (rec_stack σ) cs.

(** The body of [for neighbor in graph[node]], with the recursive call as
    a parameter. [dfs] returns the list [circulars] itself, so
    [circulars.extend(result)] appends the list to itself. *)
Definition visit_neighbor
    (rec : string → list string → dfs_state → result dfs_state)
    (path : list string) (neighbor : string) (σ : dfs_state) : result dfs_state :=
  if decide (neighbor ∉ visited σ) then
    σ' ← rec neighbor path σ ;
    match circulars σ' with
    | [] => Ok σ'
    | _ => Ok (set_circulars σ' (circulars σ' ++ circulars σ'))
    end
  else if decide (neighbor ∈ rec_stack σ) then
    cycle_start ← index path neighbor ;
    Ok (set_circulars σ (circulars σ ++ [drop cycle_start path ++ [neighbor]]))
  else Ok σ.

(** [rec_stack.remove(node)]: [KeyError] when the node is absent. *)
Definition rec_stack_remove (node : string) (σ : dfs_state) : result dfs_state :=
  if decide (node ∈ rec_stack σ)
  then Ok (DfsState (visited σ) (rec_stack σ ∖ {[node]}) (circulars σ))
  else Raise KeyError.

Fixpoint dfs (g : graph) (fuel : nat) (node : string) (path : list string)
    (σ : dfs_state) : result dfs_state :=
  match fuel with
  | 0 => OutOfFuel
  | S fuel' =>
      let σ1 := DfsState ({[node]} ∪ visited σ) ({[node]} ∪ rec_stack σ) (circulars σ) in
      let path1 := path ++ [node] in
      σ2 ← match graph_get g node with
           | Some neighbors => for_each (visit_neighbor (dfs g fuel') path1) neighbors σ1
           | None => Ok σ1
           end ;
      rec_stack_remove node σ2
  end.

(** Every node the graph mentions, as a key or as a successor. *)
Definition graph_nodes (g : graph) : list string :=
  flat_map (fun kv => fst kv :: snd kv) g.

(** The recursion depth never exceeds the number of nodes (theorem
    [find_circular_dependencies_total] below), so this fuel is enough. *)
Definition dfs_fuel (g : graph) : nat := S (length (graph_nodes g)).

(** [for node in graph: if node not in visited: dfs(node, [], visited, set())] *)
Definition visit_root (g : graph) (node : string) (σ : dfs_state) : result dfs_state :=
  if decide (node ∉ visited σ)
  then dfs g (dfs_fuel g) node [] (DfsState (visited σ) ∅ (circulars σ))
  else Ok σ.

(** The "Remove duplicates" loop. *)
Definition remove_duplicates (cs : list (list string)) : list (list string) :=
  fold_left (fun unique c => if decide (c ∈ unique) then unique else unique ++ [c]) cs [].

Definition find_circular_dependencies (g : graph) : result (list (list string)) :=
  σ ← for_each (visit_root g) (graph_keys g) (DfsState ∅ ∅ []) ;
  Ok (remove_duplicates (circulars σ)).

End CycleDetector.


(** ** scripts/fix_broken_links.py *)

Module LinkFixer.

Import PyPath Re.

Definition BASE_DIR : Path := MkPath "/" ["Users"; "mikeyoung"; "CODING"; "rebuild-6.0"].
Definition DOCS_DIR : Path := joinpath BASE_DIR (parse "docs").

(** The entries of [file_stats["fixes"]] and of [unfixable_links]. A key
    that a dictionary does not have is [None]. *)
Record fix_record : Type := FixRecord {
  fix_old : string;
  fix_new : string;
  fix_text : string
}.

Record unfixable_record : Type := UnfixableRecord {
  unfixable_file : string;
  unfixable_link : string;
  attempted_fix : option string;
  reason : option string
}.

Record file_stats_t : Type := FileStats {
  links_found : nat;
  broken_links : nat;
  fixed_links : nat;
  unfixable_count : nat;
  fixes : list fix_record
}.

Record stats_t : Type := Stats {
  total_files_scanned : nat;
  total_links_found : nat;
  broken_links_found : nat;
  links_fixed : nat;
  links_unfixable : nat;
  files_modified : nat
}.

(** The module-level objects of the script together with the file system:
    everything a call can change. *)
Record world : Type := World {
  fs : file_system;
  file_cache : gmap string (list Path);
  unfixable_links : list unfixable_record;
  fixes_by_pattern : gmap string nat;
  stats : stats_t
}.

(** [any(part.startswith('.') for part in f.parts[:-1])] *)
Definition in_hidden_directory (f : Path) : bool :=
  existsb (fun part => PyStr.startswith part ".") (removelast (parts f)).

(** [build_file_cache()], over what [BASE_DIR.rglob("*.md")] enumerates. *)
Definition build_file_cache (md_files : list Path) (file_cache : gmap string (list Path))
    : gmap string (list Path) :=
  fold_left
    (fun file_cache md_file =>
       if bool_decide ("node_modules" ∈ parts md_file) || in_hidden_directory md_file
       then file_cache
       else
         let filename := name md_file in
         let file_cache :=
           match file_cache !! filename with
           | None => <[filename := []]> file_cache
           | Some _ => file_cache
           end in
         <[filename := default [] (file_cache !! filename) ++ [md_file]]> file_cache)
    md_files file_cache.

(** The pattern \[([^\]]+)\]\(([^)]+)\) *)
Definition link_pattern : regex :=
  Seq (Lit "[") (Seq (Group (Plus (none_of ["]"%char])))
  (Seq (Lit "](") (Seq (Group (Plus (none_of [")"%char]))) (Lit ")")))).

(** [extract_markdown_links(content)]: the (full_match, link_text,
    link_url) triples of the internal markdown links. *)
Definition extract_markdown_links (content : string) : list (string * string * string) :=
  flat_map
    (fun m =>
       match groups m with
       | [link_text; link_url] =>
           if negb (PyStr.startswith link_url "http://" || PyStr.startswith link_url "https://")
              && PyStr.contains link_url ".md"
           then
             let clean_url := PyStr.split_head "#" link_url in
             if decide (clean_url = "") then [] else [(group0 m, link_text, link_url)]
           else []
       | _ => []
       end)
    (finditer link_pattern content).

(** [resolve_link(source_file, link_url)] *)
Definition resolve_link (fs : file_system) (source_file : Path) (link_url : string)
    : bool * Path :=
  let clean_url := PyStr.split_head "#" link_url in
  let source_dir := parent source_file in
  let target := resolve (cwd fs) (joinpath source_dir (parse clean_url)) in
  (exists_ fs target, target).

(** [find_file_in_cache(filename)] *)
Definition find_file_in_cache (file_cache : gmap string (list Path)) (filename : string)
    : list Path :=
  default [] (file_cache !! filename).

(** [calculate_relative_path(source, target)]; on POSIX [os.path.relpath]
    does not raise. *)
Definition calculate_relative_path (fs : file_system) (source target : Path) : string :=
  relpath (cwd fs) target (parent source).

(** The body of [for candidate in candidates] up to the comparison with
    [best_score]: the score of one candidate. *)
Definition candidate_score (original_parts : list string) (candidate : Path) : nat :=
  let candidate_parts := parts candidate in
  let score := 0 in
  let score :=
    fold_left (fun score orig_part =>
                 if decide (orig_part ∈ candidate_parts) then score + 2 else score)
              (removelast original_parts) score in
  let score := if decide ("docs" ∈ candidate_parts) then score + 1 else score in
  let score := if decide ("archive" ∉ candidate_parts) then score + 3 else score in
  let score := if decide ("how-to" ∈ original_parts ∧ "how-to" ∈ candidate_parts)
               then score + 5 else score in
  let score := if decide ("reference" ∈ original_parts ∧ "reference" ∈ candidate_parts)
               then score + 5 else score in
  let score := if decide ("explanation" ∈ original_parts ∧ "explanation" ∈ candidate_parts)
               then score + 5 else score in
  let score := if decide ("tutorials" ∈ original_parts ∧ "tutorials" ∈ candidate_parts)
               then score + 5 else score in
  score.

(** The scoring loop: [(best_match, best_score)] after all candidates. *)
Definition best_candidate (original_parts : list string) (candidates : list Path)
    : option Path * nat :=
  fold_left
    (fun best candidate =>
       let score := candidate_score original_parts candidate in
       if decide (snd best < score)%nat then (Some candidate, score) else best)
    candidates (None, 0).

(** [find_correct_path(source_file, broken_link)]; [None] is Python's. *)
Definition find_correct_path (fs : file_system) (file_cache : gmap string (list Path))
    (source_file : Path) (broken_link : string) : option string :=
  let filename := name (parse broken_link) in
  let candidates := find_file_in_cache file_cache filename in
  match candidates with
  | [] => None
  | [only] => Some (calculate_relative_path fs source_file only)
  | first :: _ =>
      let original_parts := parts (parse broken_link) in
      let '(best_match, best_score) := best_candidate original_parts candidates in
      let accepted :=
        match best_match with
        | Some best => if decide (3 ≤ best_score)%nat then Some best else None
        | None => None
        end in
      match accepted with
      | Some best => Some (calculate_relative_path fs source_file best)
      | None =>
          match List.find (fun candidate => bool_decide ("archive" ∉ parts candidate)) candidates with
          | Some candidate => Some (calculate_relative_path fs source_file candidate)
          | None => Some (calculate_relative_path fs source_file first)
          end
      end
  end.

(** The state of the loop over the links of one file. *)
Record loop_state : Type := LoopState {
  content : string;
  file_stats : file_stats_t;
  w : world
}.

(** The [else] branches that record a link as unfixable. The file name is
    [str(file_path.relative_to(BASE_DIR))], evaluated after the counter of
    the file was incremented. *)
Definition record_unfixable (file_path : Path) (link_url : string)
    (attempted : option string) (why : option string) (st : loop_state) : result loop_state :=
  let s := file_stats st in
  let s := FileStats (links_found s) (broken_links s) (fixed_links s) (S (unfixable_count s)) (fixes s) in
  rel ← relative_to file_path BASE_DIR ;
  let r := UnfixableRecord (to_str rel) link_url attempted why in
  let w0 := w st in
  Ok (LoopState (content st) s
        (World (fs w0) (file_cache w0) (unfixable_links w0 ++ [r]) (fixes_by_pattern w0) (stats w0))).

(** The body of [for full_match, link_text, link_url in links]. *)
Definition fix_link (file_path : Path) (lnk : string * string * string) (st : loop_state)
    : result loop_state :=
  let '(full_match, link_text, link_url) := lnk in
  let '(link_exists, _) := resolve_link (fs (w st)) file_path link_url in
  if link_exists then Ok st
  else
    let s := file_stats st in
    let s := FileStats (links_found s) (S (broken_links s)) (fixed_links s) (unfixable_count s) (fixes s) in
    let st := LoopState (content st) s (w st) in
    let corrected_link := find_correct_path (fs (w st)) (file_cache (w st)) file_path link_url in
    match corrected_link with
    | Some corrected =>
        if bool_decide (corrected ≠ "") && bool_decide (corrected ≠ link_url) then
          let anchor :=
            if PyStr.contains link_url "#" then "#" +:+ PyStr.split_tail "#" link_url else "" in
          let new_link := corrected +:+ anchor in
          let new_full_match := "[" +:+ link_text +:+ "](" +:+ new_link +:+ ")" in
          let '(fix_exists, _) := resolve_link (fs (w st)) file_path new_link in
          if fix_exists then
            let s := FileStats (links_found s) (broken_links s) (S (fixed_links s)) (unfixable_count s)
                       (fixes s ++ [FixRecord link_url new_link link_text]) in
            let pattern_key := name (parse link_url) +:+ " -> " +:+ name (parse new_link) in
            let w0 := w st in
            Ok (LoopState (PyStr.replace_first (content st) full_match new_full_match) s
                  (World (fs w0) (file_cache w0) (unfixable_links w0)
                     (<[pattern_key := S (default 0 (fixes_by_pattern w0 !! pattern_key))]>
                        (fixes_by_pattern w0))
                     (stats w0)))
          else record_unfixable file_path link_url (Some new_link) None st
        else record_unfixable file_path link_url None (Some "No candidates found in file cache") st
    | None => record_unfixable file_path link_url None (Some "No candidates found in file cache") st
    end.

Definition empty_file_stats : file_stats_t := FileStats 0 0 0 0 [].

Definition set_fs (w0 : world) (fs' : file_system) : world :=
  World fs' (file_cache w0) (unfixable_links w0) (fixes_by_pattern w0) (stats w0).

(** [fix_links_in_file(file_path, dry_run)] *)
Definition fix_links_in_file (file_path : Path) (dry_run : bool) (w0 : world)
    : result (file_stats_t * world) :=
  match read_text (fs w0) file_path with
  | inl _ => Ok (empty_file_stats, w0)
  | inr original_content =>
      let links := extract_markdown_links original_content in
      let st := LoopState original_content (FileStats (length links) 0 0 0 []) w0 in
      st ← for_each (fix_link file_path) links st ;
      if negb dry_run && bool_decide (content st ≠ original_content) then
        try_except
          (fs' ← write_text (fs (w st)) file_path (content st) ;
           Ok (file_stats st, set_fs (w st) fs'))
          (fun _ => Ok (file_stats st, w st))
      else Ok (file_stats st, w st)
  end.

(** One entry of [modified_files]. *)
Record modified_file : Type := ModifiedFile {
  modified_name : string;
  modified_fixes : list fix_record;
  modified_count : nat
}.

(** [process_all_files(dry_run)]. [md_files] is what the two globs
    enumerate, without duplicates and in sorted order; the filter of the
    source commutes with the sort, and is applied here. *)
Definition process_all_files (md_files : list Path) (dry_run : bool) (w0 : world)
    : result (list modified_file * world) :=
  let md_files :=
    List.filter (fun f => negb (bool_decide ("node_modules" ∈ parts f)) && negb (in_hidden_directory f))
                md_files in
  let s := stats w0 in
  let w0 := World (fs w0) (file_cache w0) (unfixable_links w0) (fixes_by_pattern w0)
              (Stats (length md_files) (total_links_found s) (broken_links_found s)
                 (links_fixed s) (links_unfixable s) (files_modified s)) in
  for_each
    (fun md_file '(modified_files, w0) =>
       rel_path ← relative_to md_file BASE_DIR ;
       '(file_stats, w1) ← fix_links_in_file md_file dry_run w0 ;
       let s := stats w1 in
       let modified := bool_decide (0 < fixed_links file_stats)%nat in
       let s := Stats (total_files_scanned s)
                  (total_links_found s + links_found file_stats)
                  (broken_links_found s + broken_links file_stats)
                  (links_fixed s + fixed_links file_stats)
                  (links_unfixable s + unfixable_count file_stats)
                  (if modified then S (files_modified s) else files_modified s) in
       Ok (if modified
           then modified_files ++ [ModifiedFile (to_str rel_path) (fixes file_stats) (fixed_links file_stats)]
           else modified_files,
           World (fs w1) (file_cache w1) (unfixable_links w1) (fixes_by_pattern w1) s))
    md_files ([], w0).

(** [main()] up to the report: the cache is built, then the files are
    processed. [cache_files] is what [BASE_DIR.rglob("*.md")] enumerates. *)
Definition main (cache_files md_files : list Path) (dry_run : bool) (w0 : world)
    : result (list modified_file * world) :=
  let w1 := World (fs w0) (build_file_cache cache_files (file_cache w0))
              (unfixable_links w0) (fixes_by_pattern w0) (stats w0) in
  process_all_files md_files dry_run w1.

End LinkFixer.

(** ** Vocabulary of the statements *)

Import PyPath CycleDetector GraphBuilder LinkFixer.

(** *** Paths *)

(** [p] lies below [other], at the names [rest]: the parts of [other]
    followed by [rest] are the parts of [p]; below the empty path lie the
    relative paths only. *)
Definition lies_below (p other : Path) (rest : list string) : Prop :=
  parts p = parts other ++ rest ∧ (parts other = [] → root p = "").

(** *** Graphs *)

(** [v] is a successor of [u]. *)
Definition edge (g : graph) (u v : string) : Prop :=
  ∃ vs, graph_get g u = Some vs ∧ v ∈ vs.

(** The consecutive pairs of a sequence of nodes. *)
Fixpoint steps (l : list string) : list (string * string) :=
  match l with
  | [] => []
  | x :: l' =>
      match l' with
      | [] => []
      | y :: _ => (x, y) :: steps l'
      end
  end.

Definition walk (g : graph) (l : list string) : Prop :=
  ∀ u v, (u, v) ∈ steps l → edge g u v.

(** A cycle written as the code writes it, the first node repeated at the
    end; it is simple when no other node is repeated. *)
Definition closed_walk (g : graph) (l : list string) : Prop :=
  (∃ x m, l = x :: m ++ [x]) ∧ walk g l.

Definition simple_cycle (g : graph) (l : list string) : Prop :=
  ∃ x m, l = x :: m ++ [x] ∧ NoDup (x :: m) ∧ walk g l.

(** [s] goes along every edge of [c]: the same cycle, entered anywhere. *)
Definition traverses (s c : list string) : Prop :=
  ∀ e, e ∈ steps c → e ∈ steps s.

(** [s] starts at [v] and comes back to it through the edge from [u]. *)
Definition closes (s : list string) (u v : string) : Prop :=
  head s = Some v ∧ ∃ pre, s = pre ++ [u; v].

(** The nodes that [dfs] has left: visited and no longer on the stack. *)
Definition finished (σ : dfs_state) : gset string := visited σ ∖ rec_stack σ.

(** The edge from [u] to [v] has been dealt with. *)
Definition handled (σ : dfs_state) (u v : string) : Prop :=
  v ∈ finished σ ∨ ∃ c, c ∈ circulars σ ∧ closes c u v.

(** What a call of [dfs] may do to the shared state. *)
Definition extends (σ σ' : dfs_state) : Prop :=
  visited σ ⊆ visited σ' ∧ rec_stack σ' = rec_stack σ ∧
  ∀ c, c ∈ circulars σ → c ∈ circulars σ'.

(** The invariant of the traversal. *)
Record dfs_inv (g : graph) (σ : dfs_state) : Prop := DfsInv {
  inv_stack : rec_stack σ ⊆ visited σ;
  inv_nodes : visited σ ⊆ list_to_set (graph_nodes g);
  inv_sound : ∀ c, c ∈ circulars σ → simple_cycle g c;
  inv_cycles : ∀ w x, closed_walk g w → x ∈ w → x ∈ finished σ →
               ∃ u v c, (u, v) ∈ steps w ∧ c ∈ circulars σ ∧ closes c u v
}.

(** What is asked of a recursive call that has [fuel] left. *)
Definition dfs_ok (g : graph)
    (rec : string → list string → dfs_state → result dfs_state) (fuel : nat) : Prop :=
  ∀ node path σ,
    dfs_inv g σ →
    node ∉ visited σ →
    node ∈ graph_nodes g →
    rec_stack σ = list_to_set path →
    NoDup path →
    walk g (path ++ [node]) →
    size (list_to_set (graph_nodes g) ∖ visited σ : gset string) < fuel →
    ∃ σ', rec node path σ = Ok σ' ∧ dfs_inv g σ' ∧ extends σ σ' ∧ node ∈ visited σ'.

Definition g_abc : graph := [("a", ["b"]); ("b", ["c"]); ("c", ["a"])].
Definition g_chord : graph := [("a", ["c"; "b"]); ("b", ["c"]); ("c", ["a"])].

(** *** Imports *)

Definition q : string := String Imports.dquote "".
Definition newline : string := String "010" "".

(** The two statements of the scenario, on two lines, and on one line. *)
Definition two_imports : string :=
  "import x from " +:+ q +:+ "./a" +:+ q +:+ newline +:+
  "require(" +:+ q +:+ "./b" +:+ q +:+ ")".

Definition two_imports_one_line : string :=
  "import x from " +:+ q +:+ "./a" +:+ q +:+ "; " +:+
  "require(" +:+ q +:+ "./b" +:+ q +:+ ");".

(** *** The link fixer *)

(** The fragment kept from the broken link, and the replacement text. *)
Definition link_anchor (link_url : string) : string :=
  if PyStr.contains link_url "#" then "#" +:+ PyStr.split_tail "#" link_url else "".

Definition rebuilt_link (link_text new_link : string) : string :=
  "[" +:+ link_text +:+ "](" +:+ new_link +:+ ")".

(** The score and the choice as the specification words them. *)
Definition categories : list string := ["how-to"; "reference"; "explanation"; "tutorials"].

Definition spec_score (target candidate : Path) : nat :=
  2 * length (filter (fun seg => seg ∈ parts candidate) (removelast (parts target)))
  + (if decide ("docs" ∈ parts candidate) then 1 else 0)
  + (if decide ("archive" ∉ parts candidate) then 3 else 0)
  + 5 * length (filter (fun cat => cat ∈ parts target ∧ cat ∈ parts candidate) categories).

Definition archival (c : Path) : Prop := "archive" ∈ parts c.

(** The highest-scoring candidate, the earliest among equals. *)
Definition highest_scoring (target : Path) (candidates : list Path) (best : Path) : Prop :=
  ∃ i, candidates !! i = Some best ∧
       (∀ c, c ∈ candidates → spec_score target c ≤ spec_score target best) ∧
       (∀ j c, j < i → candidates !! j = Some c → spec_score target c < spec_score target best).

Definition first_non_archival (candidates : list Path) (c : Path) : Prop :=
  ∃ i, candidates !! i = Some c ∧ ¬ archival c ∧
       ∀ j c', j < i → candidates !! j = Some c' → archival c'.

Definition spec_choice (target : Path) (candidates : list Path) (chosen : Path) : Prop :=
  ∃ best, highest_scoring target candidates best ∧
    ((3 ≤ spec_score target best ∧ chosen = best) ∨
     (spec_score target best < 3 ∧
      (first_non_archival candidates chosen ∨
       (Forall archival candidates ∧ head candidates = Some chosen)))).

(** What the scoring loop holds after the candidates [seen]. *)
Definition best_of (original_parts : list string) (seen : list Path)
    (best : option Path * nat) : Prop :=
  (∀ c, c ∈ seen → candidate_score original_parts c ≤ snd best) ∧
  match fst best with
  | None => snd best = 0
  | Some b =>
      0 < snd best ∧ candidate_score original_parts b = snd best ∧
      ∃ i, seen !! i = Some b ∧
           ∀ j c, j < i → seen !! j = Some c → candidate_score original_parts c < snd best
  end.

(** *** The file cache *)

Definition cache_invariant (cache : gmap string (list Path)) : Prop :=
  ∀ k ps p, cache !! k = Some ps → p ∈ ps →
    name p = k ∧ ("node_modules" ∉ parts p) ∧
    Forall (fun part => (PyStr.startswith part "." = false)) (removelast (parts p)).

(** *** A tree with a parenthesis in a directory name *)

Definition docs_file (rel : list string) : Path := MkPath "/" (names DOCS_DIR ++ rel).

(** Two files named [guide.md], one of them archived. *)
Definition guide_archived : Path := docs_file ["archive"; "old"; "guide.md"].
Definition guide_how_to : Path := docs_file ["how-to"; "guide.md"].

Definition guide_cache : gmap string (list Path) :=
  build_file_cache [guide_archived; guide_how_to] ∅.

(** What [rglob] enumerates in a tree with a hidden directory and a
    dependency directory. *)
Definition hidden_tree : list Path :=
  [docs_file ["s.md"]; docs_file [".git"; "x.md"]; docs_file ["node_modules"; "x.md"];
   docs_file ["x.md)"; "x.md"]].

Definition paren_tree : list Path :=
  [BASE_DIR; DOCS_DIR; docs_file ["s.md"]; docs_file ["x.md)"]; docs_file ["x.md)"; "x.md"]].

Definition paren_fs : file_system :=
  FileSystem (MkPath "/" [])
    (fun p => bool_decide (p ∈ paren_tree))
    (fun p => if decide (p = docs_file ["s.md"]) then inr "[t](x.md)" else inl OSError)
    (fun _ => true).

Definition paren_world : world :=
  World paren_fs (build_file_cache [docs_file ["s.md"]; docs_file ["x.md)"; "x.md"]] ∅) [] ∅
        (Stats 0 0 0 0 0 0).

(** The same tree when [s.md] cannot be written. *)
Definition paren_readonly_fs : file_system :=
  FileSystem (cwd paren_fs) (exists_ paren_fs) (read_text paren_fs) (fun _ => false).

Definition paren_readonly_world : world :=
  World paren_readonly_fs (file_cache paren_world) [] ∅ (Stats 0 0 0 0 0 0).

(** The state of the loop over the links of [s.md] before and after its
    only step. *)
Definition paren_before_step : loop_state :=
  LoopState "[t](x.md)" (FileStats 1 0 0 0 []) paren_world.

Definition paren_after_step : loop_state :=
  LoopState "[t](x.md)/x.md)"
    (FileStats 1 1 1 0 [FixRecord "x.md" "x.md)/x.md" "t"])
    (World paren_fs (file_cache paren_world) [] (<["x.md -> x.md" := 1]> ∅)
       (Stats 0 0 0 0 0 0)).

(** The same state once the new content is written to [s.md]. *)
Definition paren_written : loop_state :=
  LoopState (content paren_after_step) (file_stats paren_after_step)
    (set_fs (w paren_after_step)
       (FileSystem (cwd paren_fs) (exists_ paren_fs)
          (fun p' => if decide (p' = docs_file ["s.md"])
                     then inr "[t](x.md)/x.md)" else read_text paren_fs p')
          (writable paren_fs))).

(** What two successive runs of [fix_links_in_file] on [s.md] report and
    leave in the file. *)
Definition paren_two_runs
    : result (list fix_record * (exn + string) * bool * list fix_record * (exn + string)) :=
  '(s1, w1) ← fix_links_in_file (docs_file ["s.md"]) false paren_world ;
  '(s2, w2) ← fix_links_in_file (docs_file ["s.md"]) false w1 ;
  Ok (fixes s1, read_text (fs w1) (docs_file ["s.md"]),
      fst (resolve_link (fs w1) (docs_file ["s.md"]) "x.md)/x.md"),
      fixes s2, read_text (fs w2) (docs_file ["s.md"])).

(** ** Vocabulary of the further properties *)

(** The files that [build_file_cache] does not skip. *)
Definition cached (f : Path) : bool :=
  negb (bool_decide ("node_modules" ∈ parts f) || in_hidden_directory f).

(** Every character of a string is in a class. *)
Fixpoint all_chars (p : ascii → bool) (s : string) : bool :=
  match s with
  | EmptyString => true
  | String c s' => p c && all_chars p s'
  end.

(** [matches r x caps]: the pattern [r] can match exactly the text [x],
    its groups capturing [caps] in order. *)
Inductive matches : Re.regex → string → list string → Prop :=
  | matches_lit (l : string) : matches (Re.Lit l) l []
  | matches_class (p : ascii → bool) (c : ascii) :
      p c = true → matches (Re.Class p) (String c "") []
  | matches_plus (p : ascii → bool) (x : string) :
      x ≠ "" → all_chars p x = true → matches (Re.Plus p) x []
  | matches_lazy_star (p : ascii → bool) (x : string) :
      all_chars p x = true → matches (Re.LazyStar p) x []
  | matches_seq (r1 r2 : Re.regex) (x1 x2 : string) (c1 c2 : list string) :
      matches r1 x1 c1 → matches r2 x2 c2 → matches (Re.Seq r1 r2) (x1 +:+ x2) (c1 ++ c2)
  | matches_opt_some (r : Re.regex) (x : string) (c : list string) :
      matches r x c → matches (Re.Opt r) x c
  | matches_opt_none (r : Re.regex) : matches (Re.Opt r) "" []
  | matches_group (r : Re.regex) (x : string) (c : list string) :
      matches r x c → matches (Re.Group r) x (c ++ [x]).

(** Taking a [matches] hypothesis apart along the pattern. *)
Ltac inv_matches :=
  repeat match goal with
         | H : matches (Re.Seq _ _) _ _ |- _ => inversion H; subst; clear H
         | H : matches (Re.Lit _) _ _ |- _ => inversion H; subst; clear H
         | H : matches (Re.Class _) _ _ |- _ => inversion H; subst; clear H
         | H : matches (Re.Plus _) _ _ |- _ => inversion H; subst; clear H
         | H : matches (Re.LazyStar _) _ _ |- _ => inversion H; subst; clear H
         | H : matches (Re.Group _) _ _ |- _ => inversion H; subst; clear H
         | H : matches (Re.Opt _) _ _ |- _ => inversion H; subst; clear H
         end.

(** [x] occurs in [s]. *)
Definition occurs (x s : string) : Prop :=
  ∃ before after, s = before +:+ x +:+ after.

(** [c] is one of the two quote characters. *)
Definition is_quote (c : ascii) : Prop := c = Imports.squote ∨ c = Imports.dquote.

(** A name that a directory entry can have. *)
Definition clean_name (n : string) : Prop :=
  n ≠ "" ∧ n ≠ "." ∧ n ≠ ".." ∧ PyStr.contains n "/" = false.

(** An absolute path in normal form. *)
Definition clean_path (p : Path) : Prop :=
  root p = "/" ∧ Forall clean_name (names p).

(** [..] removed against the accumulated names, as in [collapse]. *)
Definition collapse_from (acc ns : list string) : list string :=
  fold_left (fun acc x => if decide (x = "..") then removelast acc else acc ++ [x]) ns acc.

(** A name without the fragment marker. *)
Definition no_hash (n : string) : Prop := PyStr.contains n "#" = false.

(** Reducing the projections of the records of the link fixer, and
    nothing else. *)
Ltac proj_cbn :=
  cbn [fs w file_cache stats file_stats content links_found broken_links fixed_links
       unfixable_count fixes unfixable_links fixes_by_pattern attempted_fix reason
       unfixable_link unfixable_file fix_old fix_new fix_text fst snd].

(** The run of [process_all_files] over [s.md] in a dry run: what it
    returns and the world it leaves. *)
Definition paren_modified : list modified_file :=
  [ModifiedFile "docs/s.md" [FixRecord "x.md" "x.md)/x.md" "t"] 1].

Definition paren_after_run : world :=
  World paren_fs (file_cache paren_world) [] (<["x.md -> x.md" := 1]> ∅)
        (Stats 1 1 1 1 0 1).

(** ** scripts/validate_links.py *)

Module Validator.

Definition BASE_DIR : Path := MkPath "/" ["Users"; "mikeyoung"; "CODING"; "rebuild-6.0"].

Record file_stats_t : Type := FileStats {
  links : nat;
  valid : nat;
  broken : nat;
  broken_list : list (string * string)
}.

(** An entry of the global [broken_links]. *)
Record broken_record : Type := BrokenRecord {
  broken_file : string;
  broken_text : string;
  broken_url : string
}.

(** The global [stats]. *)
Record stats_t : Type := Stats {
  total_files : nat;
  total_links : nat;
  valid_links : nat;
  broken_links : nat
}.

(** The globals of the script. *)
Record world : Type := World {
  stats : stats_t;
  all_broken : list broken_record
}.

(** The pattern \[([^\]]+)\]\(([^)]+)\) *)
Definition link_pattern : Re.regex :=
  Re.Seq (Re.Lit "[") (Re.Seq (Re.Group (Re.Plus (Re.none_of ["]"%char])))
  (Re.Seq (Re.Lit "](") (Re.Seq (Re.Group (Re.Plus (Re.none_of [")"%char]))) (Re.Lit ")")))).

(** [extract_markdown_links(content)]: the (link_text, link_url) pairs. *)
Definition extract_markdown_links (content : string) : list (string * string) :=
  flat_map
    (fun m =>
       match Re.groups m with
       | [link_text; link_url] =>
           if negb (PyStr.startswith link_url "http://" || PyStr.startswith link_url "https://")
              && PyStr.contains link_url ".md"
           then
             let clean_url := PyStr.split_head "#" link_url in
             if decide (clean_url = "") then [] else [(link_text, link_url)]
           else []
       | _ => []
       end)
    (Re.finditer link_pattern content).

(** [validate_link(source_file, link_url)] *)
Definition validate_link (fs : file_system) (source_file : Path) (link_url : string) : bool :=
  let clean_url := PyStr.split_head "#" link_url in
  let source_dir := parent source_file in
  let target := resolve (cwd fs) (joinpath source_dir (parse clean_url)) in
  exists_ fs target.

(** The body of [for link_text, link_url in links]. *)
Definition validate_step (fs : file_system) (file_path : Path) (lnk : string * string)
    (st : file_stats_t * list broken_record) : result (file_stats_t * list broken_record) :=
  let '(link_text, link_url) := lnk in
  let '(file_stats, all_broken) := st in
  if validate_link fs file_path link_url then
    Ok (FileStats (links file_stats) (S (valid file_stats)) (broken file_stats)
          (broken_list file_stats), all_broken)
  else
    let file_stats :=
      FileStats (links file_stats) (valid file_stats) (S (broken file_stats))
        (broken_list file_stats ++ [(link_text, link_url)]) in
    rel ← relative_to file_path BASE_DIR ;
    Ok (file_stats, all_broken ++ [BrokenRecord (to_str rel) link_text link_url]).

(** [validate_file(file_path)], with the global list [broken_links]. *)
Definition validate_file (fs : file_system) (file_path : Path)
    (all_broken : list broken_record) : result (file_stats_t * list broken_record) :=
  match read_text fs file_path with
  | inl _ => Ok (FileStats 0 0 0 [], all_broken)
  | inr content =>
      let found := extract_markdown_links content in
      for_each (validate_step fs file_path) found
               (FileStats (length found) 0 0 [], all_broken)
  end.

(** An entry of [files_with_broken_links]. *)
Record broken_file_entry : Type := BrokenFile {
  entry_file : string;
  broken_count : nat;
  entry_links : list (string * string)
}.

(** [main()] up to what it prints: the exit status, the files with broken
    links, and the globals. [md_files] is what the globs enumerate, without
    duplicates and in sorted order; the filter is applied here. *)
Definition main (fs : file_system) (md_files : list Path) (w0 : world)
    : result (nat * list broken_file_entry * world) :=
  let md_files :=
    List.filter (fun f => negb (bool_decide ("node_modules" ∈ parts f))
                          && negb (LinkFixer.in_hidden_directory f)) md_files in
  let s := stats w0 in
  let w0 := World (Stats (length md_files) (total_links s) (valid_links s) (broken_links s))
                  (all_broken w0) in
  '(files_with_broken_links, w1) ←
    for_each
      (fun md_file '(files_with_broken_links, w0) =>
         rel_path ← relative_to md_file BASE_DIR ;
         '(file_stats, all_broken') ← validate_file fs md_file (all_broken w0) ;
         let s := stats w0 in
         let s := Stats (total_files s) (total_links s + links file_stats)
                    (valid_links s + valid file_stats)
                    (broken_links s + broken file_stats) in
         Ok (if bool_decide (0 < broken file_stats)
             then files_with_broken_links
                  ++ [BrokenFile (to_str rel_path) (broken file_stats) (broken_list file_stats)]
             else files_with_broken_links,
             World s all_broken'))
      md_files ([], w0) ;
  Ok (if bool_decide (0 < broken_links (stats w1)) then 1 else 0,
      files_with_broken_links, w1).

End Validator.

(** *** Validation *)

(** The links that the validator reads off a file: none when the file
    cannot be read. *)
Definition links_of (fs : file_system) (f : Path) : list (string * string) :=
  match read_text fs f with
  | inr text => Validator.extract_markdown_links text
  | inl _ => []
  end.

(** The target of a link of [f] does not exist. *)
Definition dangling (fs : file_system) (f : Path) (l : string * string) : bool :=
  negb (Validator.validate_link fs f l.2).

Definition broken_of (fs : file_system) (f : Path) : list (string * string) :=
  List.filter (dangling fs f) (links_of fs f).

(** The files that the validator keeps of those enumerated. *)
Definition scanned (md_files : list Path) : list Path :=
  List.filter (fun f => negb (bool_decide ("node_modules" ∈ parts f))
                        && negb (in_hidden_directory f)) md_files.

(** The globals of the validator when the script starts. *)
Definition validator_start : Validator.world :=
  Validator.World (Validator.Stats 0 0 0 0) [].

(** *** The dependency graph *)

(** The files that [build_dependency_graph] keeps, each by its names below
    the root, in the order in which they are scanned. *)
Definition kept_files (rglob : string → list (list string)) (root_dir : Path)
    (extensions : list string) : list (list string) :=
  flat_map (fun ext => List.filter (fun rel => is_source_file (joinpath root_dir (MkPath "" rel)))
                                   (rglob ext))
           extensions.

(** The key of a file in the graph. *)
Definition module_name (rel : list string) : string := to_str (MkPath "" rel).

(** The edges that the references of a file resolve to. *)
Definition edges_of (fs : file_system) (root_dir : Path) (rel : list string)
    : result (list string) :=
  let file_path := joinpath root_dir (MkPath "" rel) in
  imports ← Imports.analyze_imports (read_text fs file_path) ;
  resolve_imports fs root_dir file_path imports.

(** A tree of two modules that import each other by their file names. *)
Definition pair_fs : file_system :=
  FileSystem (MkPath "/" [])
    (fun _ => true)
    (fun p => if decide (p = parse "/proj/a.ts") then inr ("import x from " +:+ q +:+ "./b.ts" +:+ q)
              else if decide (p = parse "/proj/b.ts") then inr ("import y from " +:+ q +:+ "./a.ts" +:+ q)
              else inl OSError)
    (fun _ => true).

Definition pair_rglob (ext : string) : list (list string) :=
  if decide (ext = ".ts") then [["a.ts"]; ["b.ts"]] else [].

(** ** scripts/enhance_audit.py *)

Module EnhanceAudit.

Record stats_t : Type := Stats {
  total_modules : nat;
  external_deps : gset string;
  most_imported : list (string * nat);
  most_dependencies : list (string * nat);
  isolated_modules : list string
}.

(** [d[k] += 1] on a [defaultdict(int)], kept in insertion order. *)
Fixpoint incr (d : list (string * nat)) (k : string) : list (string * nat) :=
  match d with
  | [] => [(k, 1)]
  | (k', n) :: d' => if decide (k' = k) then (k', S n) :: d' else (k', n) :: incr d' k
  end.

(** Sorting with [key=lambda x: x[1], reverse=True]: by decreasing count,
    entries with equal counts in their original order. *)
Fixpoint insert_desc (x : string * nat) (l : list (string * nat)) : list (string * nat) :=
  match l with
  | [] => [x]
  | y :: l' => if decide (snd x < snd y) then y :: insert_desc x l' else x :: l
  end.

Definition sort_desc (l : list (string * nat)) : list (string * nat) :=
  foldr insert_desc [] l.

(** The body of [for dep in deps], on [external_deps], [most_imported] and
    [dep_count]. *)
Definition count_dep (st : gset string * list (string * nat) * nat) (dep : string)
    : gset string * list (string * nat) * nat :=
  let '(external_deps, most_imported, dep_count) := st in
  if PyStr.startswith dep "external:"
  then ({[PyStr.replace_all dep "external:" ""]} ∪ external_deps, most_imported, dep_count)
  else (external_deps, incr most_imported dep, S dep_count).

(** The body of [for module, deps in graph.items()]. *)
Definition count_module
    (st : gset string * list (string * nat) * list (string * nat) * list string)
    (item : string * list string)
    : gset string * list (string * nat) * list (string * nat) * list string :=
  let '(external_deps, most_imported, most_dependencies, isolated_modules) := st in
  let '(module, deps) := item in
  let isolated_modules :=
    if decide (deps = []) then isolated_modules ++ [module] else isolated_modules in
  let '(external_deps, most_imported, dep_count) :=
    fold_left count_dep deps (external_deps, most_imported, 0) in
  let most_dependencies :=
    if decide (0 < dep_count) then most_dependencies ++ [(module, dep_count)]
    else most_dependencies in
  (external_deps, most_imported, most_dependencies, isolated_modules).

(** [analyze_graph_statistics(graph_file)], from the graph that
    [json.load] reads out of the file: the items of the object, in order. *)
Definition analyze_graph_statistics (graph : list (string * list string)) : stats_t :=
  let '(external_deps, most_imported, most_dependencies, isolated_modules) :=
    fold_left count_module graph (∅, [], [], []) in
  Stats (length graph) external_deps
        (take 10 (sort_desc most_imported))
        (take 10 (sort_desc most_dependencies))
        isolated_modules.

End EnhanceAudit.

(** *** Statistics of a graph *)

(** A successor that is not an external package. *)
Definition internal (dep : string) : bool := negb (PyStr.startswith dep "external:").

Definition internal_count (deps : list string) : nat := length (List.filter internal deps).

(** The successors of all modules that are not external packages. *)
Definition internal_deps (graph : list (string * list string)) : list string :=
  flat_map (fun item => List.filter internal item.2) graph.

(** How many times the modules of the graph import [dep]. *)
Definition imports_of (graph : list (string * list string)) (dep : string) : nat :=
  length (List.filter (fun d => bool_decide (d = dep)) (internal_deps graph)).

(** The name of an external package. *)
Definition package_name (dep : string) : string := PyStr.replace_all dep "external:" "".

(** By decreasing count. *)
Fixpoint descending (l : list (string * nat)) : Prop :=
  match l with
  | [] => True
  | x :: l' => (∀ y, y ∈ l' → y.2 ≤ x.2) ∧ descending l'
  end.

(** The count of a key in a dictionary of counts, 0 when it is absent. *)
Fixpoint dict_get (d : list (string * nat)) (k : string) : nat :=
  match d with
  | [] => 0
  | (k', n) :: d' => if decide (k' = k) then n else dict_get d' k
  end.

(** * Theorems *)

(** ** The cycle detector on concrete graphs *)

(** C2: on the graph a -> b -> c -> a the detector returns exactly one
    cycle, [a; b; c; a]: it has length 4, its first and last elements are
    equal, and it visits a, b and c. *)
Theorem three_node_cycle :
  ∃ c, find_circular_dependencies g_abc = Ok [c] ∧
       c = ["a"; "b"; "c"; "a"] ∧ length c = 4 ∧ head c = last c ∧
       "a" ∈ c ∧ "b" ∈ c ∧ "c" ∈ c.
Proof.
  exists ["a"; "b"; "c"; "a"].
  split; [vm_compute; reflexivity|].
  repeat split; set_solver.
Qed.

(** Before the duplicates are removed the list holds the cycle four times:
    each return from a recursive call appends [circulars] to itself. *)
Lemma three_node_cycle_raw :
  circulars <$> for_each (visit_root g_abc) (graph_keys g_abc) (DfsState ∅ ∅ [])
  = Ok (replicate 4 ["a"; "b"; "c"; "a"]).
Proof. vm_compute. reflexivity. Qed.

(** C1, as stated, fails: in the graph a -> [c, b], b -> [c], c -> [a] the
    simple cycle a -> b -> c -> a exists, but the only sequence returned is
    [a; c; a], which does not go along it. *)
Lemma chord_cycle_missed :
  simple_cycle g_chord ["a"; "b"; "c"; "a"] ∧
  find_circular_dependencies g_chord = Ok [["a"; "c"; "a"]] ∧
  ¬ ∃ s, s ∈ [["a"; "c"; "a"]] ∧ traverses s ["a"; "b"; "c"; "a"].
Proof.
  split; [|split].
  - exists "a", ["b"; "c"]. split; [reflexivity|]. split.
    + apply (bool_decide_unpack _). vm_compute. exact I.
    + intros u v Huv. simpl in Huv.
      repeat (apply elem_of_cons in Huv as [Huv|Huv]; [injection Huv as -> ->|]).
      * exists ["c"; "b"]. split; [reflexivity|set_solver].
      * exists ["c"]. split; [reflexivity|set_solver].
      * exists ["a"]. split; [reflexivity|set_solver].
      * by apply elem_of_nil in Huv.
  - vm_compute. reflexivity.
  - intros (s & Hs & Htr).
    apply list_elem_of_singleton in Hs as ->.
    specialize (Htr ("a", "b")). simpl in Htr.
    assert (Hin : ("a", "b") ∈ [("a", "c"); ("c", "a")]) by (apply Htr; set_solver).
    repeat (apply elem_of_cons in Hin as [Hin|Hin]; [discriminate Hin|]).
    by apply elem_of_nil in Hin.
Qed.

(** ** The import extractor on the scenario *)

(** C6, as stated, fails: the extractor returns three references, not two. *)
Lemma two_imports_three_references :
  Imports.analyze_imports (inr two_imports) = Ok ["./a"; "./b"; "./a"] ∧
  ¬ ∃ r1 r2, Imports.analyze_imports (inr two_imports) = Ok [r1; r2].
Proof.
  assert (H : Imports.analyze_imports (inr two_imports) = Ok ["./a"; "./b"; "./a"])
    by (vm_compute; reflexivity).
  split; [exact H|].
  intros (r1 & r2 & H'). rewrite H in H'. discriminate H'.
Qed.

(** C6, amended: on the two statements the extractor returns the three
    references [./a], [./b], [./a], in this order: the [import] statement
    is matched by the first pattern and again by the third. All three are
    classified as relative. *)
Theorem two_imports_extracted :
  Imports.analyze_imports (inr two_imports) = Ok ["./a"; "./b"; "./a"] ∧
  Imports.analyze_imports (inr two_imports_one_line) = Ok ["./a"; "./b"; "./a"] ∧
  Re.findall1 Imports.import_pattern two_imports = ["./a"] ∧
  Re.findall1 Imports.require_pattern two_imports = ["./b"] ∧
  Re.findall1 Imports.from_pattern two_imports = ["./a"] ∧
  Forall (fun r => classify r = relative) ["./a"; "./b"; "./a"].
Proof.
  repeat split; try (vm_compute; reflexivity).
  repeat constructor.
Qed.

(** ** The rewrite engine on a concrete tree *)

(** C5, as stated, fails: the replacement committed by the first run passes
    the existence check, and yet the second run commits the same
    replacement again and changes the file once more, because the pattern
    reads the rewritten link only up to the first closing parenthesis. *)
Lemma second_run_modifies_again :
  paren_two_runs =
    Ok ([FixRecord "x.md" "x.md)/x.md" "t"], inr "[t](x.md)/x.md)", true,
        [FixRecord "x.md" "x.md)/x.md" "t"], inr "[t](x.md)/x.md)/x.md)").
Proof. vm_compute. reflexivity. Qed.

(** ** The result monad *)

Lemma bind_Ok {A B : Type} (m : result A) (k : A → result B) (b : B) :
  m ≫= k = Ok b ↔ ∃ a, m = Ok a ∧ k a = Ok b.
Proof.
  destruct m as [a| |]; simpl; split.
  - intros H. by exists a.
  - by intros (a' & [= ->] & H).
  - discriminate.
  - by intros (a' & [=] & _).
  - discriminate.
  - by intros (a' & [=] & _).
Qed.

Lemma for_each_app {A S : Type} (body : A → S → result S) (xs ys : list A) (s : S) :
  for_each body (xs ++ ys) s = for_each body xs s ≫= for_each body ys.
Proof.
  revert s. induction xs as [|x xs IH]; intros s; simpl; [reflexivity|].
  destruct (body x s) as [s'| |]; simpl; [apply IH|reflexivity|reflexivity].
Qed.

(** A loop whose body never fails and preserves [P] ends in a state that
    satisfies [P]. *)
Lemma for_each_invariant {A S : Type} (P : S → Prop) (body : A → S → result S)
    (xs : list A) (s : S) :
  (∀ x s0, x ∈ xs → P s0 → ∃ s1, body x s0 = Ok s1 ∧ P s1) →
  P s → ∃ s', for_each body xs s = Ok s' ∧ P s'.
Proof.
  revert s. induction xs as [|x xs IH]; intros s Hbody Hs; simpl.
  - by exists s.
  - destruct (Hbody x s) as (s1 & -> & Hs1); [set_solver|done|]. simpl.
    apply IH; [|done]. intros y s0 Hy. apply Hbody. set_solver.
Qed.

(** A loop that ends preserves what each completed iteration preserves. *)
Lemma for_each_preserves {A S : Type} (P : S → Prop) (body : A → S → result S)
    (xs : list A) (s s' : S) :
  (∀ x s0 s1, body x s0 = Ok s1 → P s0 → P s1) →
  for_each body xs s = Ok s' → P s → P s'.
Proof.
  intros Hbody. revert s. induction xs as [|x xs IH]; intros s; simpl.
  - by intros [= ->].
  - intros (s1 & H1 & Hrest)%bind_Ok Hs. eauto.
Qed.

(** ** C8: a single candidate *)

(** C8: when the file cache holds exactly one path for the bare filename of
    the broken link, [find_correct_path] returns that path, made relative
    to the directory of the source file; no score is computed. *)
Theorem single_candidate_is_chosen (fs : file_system) (cache : gmap string (list Path))
    (source_file : Path) (broken_link : string) (candidate : Path) :
  find_file_in_cache cache (name (parse broken_link)) = [candidate] →
  find_correct_path fs cache source_file broken_link
  = Some (calculate_relative_path fs source_file candidate).
Proof.
  intros H. unfold find_correct_path. rewrite H. reflexivity.
Qed.

(** The only [guide.md] of this cache lies in an archive and would score 0,
    below the floor of 3; it is chosen all the same. *)
Lemma single_candidate_is_chosen_witness :
  candidate_score (parts (parse "guide.md")) (MkPath "/" ["base"; "archive"; "guide.md"]) = 0 ∧
  find_correct_path paren_fs
    (build_file_cache [MkPath "/" ["base"; "archive"; "guide.md"]] ∅)
    (MkPath "/" ["base"; "notes"; "index.md"]) "guide.md"
  = Some "../archive/guide.md".
Proof.
  split; [vm_compute; reflexivity|].
  apply (single_candidate_is_chosen paren_fs
           (build_file_cache [MkPath "/" ["base"; "archive"; "guide.md"]] ∅)
           (MkPath "/" ["base"; "notes"; "index.md"]) "guide.md"
           (MkPath "/" ["base"; "archive"; "guide.md"])).
  vm_compute. reflexivity.
Defined.

(** ** C10: the file cache *)

Lemma in_hidden_directory_false (f : Path) :
  in_hidden_directory f = false →
  Forall (fun part => (PyStr.startswith part "." = false)) (removelast (parts f)).
Proof.
  unfold in_hidden_directory. generalize (removelast (parts f)).
  induction l as [|x l IH]; simpl; [constructor|].
  intros [Hx Hl]%orb_false_iff. constructor; auto.
Qed.

Lemma build_file_cache_step_invariant (cache : gmap string (list Path)) (md_file : Path) :
  cache_invariant cache → cache_invariant (build_file_cache [md_file] cache).
Proof.
  intros Hinv. unfold build_file_cache. simpl.
  destruct (bool_decide ("node_modules" ∈ parts md_file)) eqn:Hnm; simpl; [done|].
  destruct (in_hidden_directory md_file) eqn:Hhid; [done|].
  apply bool_decide_eq_false in Hnm.
  set (filename := name md_file).
  assert (Hold : ∀ ps, default [] (match cache !! filename with
                         | None => <[filename:=[]]> cache
                         | Some _ => cache
                         end !! filename) = ps →
                 ps = default [] (cache !! filename)).
  { intros ps <-. destruct (cache !! filename) eqn:Hc.
    - by rewrite Hc.
    - by rewrite lookup_insert_eq. }
  rewrite (Hold _ eq_refl).
  intros k ps p Hk Hp.
  destruct (decide (filename = k)) as [<-|Hne].
  - rewrite lookup_insert_eq in Hk. injection Hk as <-.
    apply elem_of_app in Hp as [Hp|Hp].
    + destruct (cache !! filename) as [old|] eqn:Hc; simpl in Hp.
      * by apply (Hinv filename old).
      * by apply elem_of_nil in Hp.
    + apply list_elem_of_singleton in Hp as ->.
      split; [reflexivity|]. split; [done|]. by apply in_hidden_directory_false.
  - rewrite lookup_insert_ne in Hk by done.
    destruct (cache !! filename) eqn:Hc.
    + by apply (Hinv k ps).
    + rewrite lookup_insert_ne in Hk by done. by apply (Hinv k ps).
Qed.

Lemma build_file_cache_invariant (md_files : list Path) (cache : gmap string (list Path)) :
  cache_invariant cache → cache_invariant (build_file_cache md_files cache).
Proof.
  revert cache. induction md_files as [|f fs IH]; intros cache Hinv; [done|].
  change (build_file_cache (f :: fs) cache)
    with (build_file_cache fs (build_file_cache [f] cache)).
  apply IH. by apply build_file_cache_step_invariant.
Qed.

Lemma record_unfixable_cache (file_path : Path) (link_url : string) (a r : option string)
    (st st' : loop_state) :
  record_unfixable file_path link_url a r st = Ok st' →
  file_cache (w st') = file_cache (w st) ∧ fs (w st') = fs (w st).
Proof.
  unfold record_unfixable. intros (rel & _ & [= <-])%bind_Ok. done.
Qed.

Lemma fix_link_cache (file_path : Path) (lnk : string * string * string) (st st' : loop_state) :
  fix_link file_path lnk st = Ok st' →
  file_cache (w st') = file_cache (w st) ∧ fs (w st') = fs (w st).
Proof.
  destruct lnk as [[full_match link_text] link_url]. unfold fix_link.
  destruct (resolve_link (fs (w st)) file_path link_url) as [[] ?].
  { by intros [= <-]. }
  cbn [w content file_stats].
  repeat match goal with
         | |- context [match ?x with _ => _ end] => destruct x
         end;
    try (intros H; by apply record_unfixable_cache in H);
    by intros [= <-].
Qed.

Lemma fix_links_in_file_cache (file_path : Path) (dry_run : bool) (w0 w' : world)
    (s : file_stats_t) :
  fix_links_in_file file_path dry_run w0 = Ok (s, w') → file_cache w' = file_cache w0.
Proof.
  unfold fix_links_in_file.
  destruct (read_text (fs w0) file_path) as [e|original_content]; [by intros [= _ <-]|].
  intros (st & Hloop & Hend)%bind_Ok.
  assert (Hst : file_cache (w st) = file_cache w0).
  { refine (for_each_preserves (fun st => file_cache (w st) = file_cache w0)
              _ _ _ _ _ Hloop eq_refl).
    intros x s0 s1 Hx <-. by apply fix_link_cache in Hx as [-> _]. }
  destruct (negb dry_run && bool_decide (content st ≠ original_content)).
  - unfold write_text in Hend. destruct (writable (fs (w st)) file_path); simpl in Hend.
    + by injection Hend as _ <-.
    + by injection Hend as _ <-.
  - by injection Hend as _ <-.
Qed.

Lemma process_all_files_cache (md_files : list Path) (dry_run : bool) (w0 w' : world)
    (out : list modified_file) :
  process_all_files md_files dry_run w0 = Ok (out, w') → file_cache w' = file_cache w0.
Proof.
  unfold process_all_files. intros Hloop.
  refine (for_each_preserves (fun r => file_cache r.2 = file_cache w0)
            _ _ _ _ _ Hloop eq_refl).
  intros f [m wa] [m' wb] Hbody Hwa. simpl in *.
  apply bind_Ok in Hbody as (rel & _ & Hbody).
  apply bind_Ok in Hbody as ([s w1] & Hfix & [= _ <-]).
  simpl. apply fix_links_in_file_cache in Hfix. congruence.
Qed.

(** C10: every path that [build_file_cache] stores under a key has that
    key as its bare filename, has no [node_modules] segment and no
    directory segment that begins with a dot; and the cache after
    [fix_links_in_file], after [process_all_files] and after the whole of
    [main] is the cache that was built. *)
Theorem file_cache_invariant (cache_files : list Path) :
  cache_invariant (build_file_cache cache_files ∅) ∧
  (∀ file_path dry_run w0 s w',
     fix_links_in_file file_path dry_run w0 = Ok (s, w') → file_cache w' = file_cache w0) ∧
  (∀ md_files dry_run w0 out w',
     process_all_files md_files dry_run w0 = Ok (out, w') → file_cache w' = file_cache w0) ∧
  (∀ md_files dry_run w0 out w',
     file_cache w0 = ∅ →
     main cache_files md_files dry_run w0 = Ok (out, w') →
     file_cache w' = build_file_cache cache_files ∅ ∧ cache_invariant (file_cache w')).
Proof.
  assert (Hbuild : cache_invariant (build_file_cache cache_files ∅)).
  { apply build_file_cache_invariant. intros k ps p Hk. by rewrite lookup_empty in Hk. }
  split; [exact Hbuild|]. split; [|split].
  - intros *. apply fix_links_in_file_cache.
  - intros *. apply process_all_files_cache.
  - intros md_files dry_run w0 out w' Hempty Hmain. unfold main in Hmain.
    apply process_all_files_cache in Hmain. simpl in Hmain.
    rewrite Hempty in Hmain. rewrite Hmain. by split.
Qed.

(** A cache built over a tree with a hidden directory and a dependency
    directory, and a run of [main] over a file with one broken link. *)
Lemma file_cache_invariant_witness :
  build_file_cache hidden_tree ∅ !! "x.md" = Some [docs_file ["x.md)"; "x.md"]] ∧
  name (docs_file ["x.md)"; "x.md"]) = "x.md" ∧
  ("node_modules" ∉ parts (docs_file ["x.md)"; "x.md"])) ∧
  match main hidden_tree [docs_file ["s.md"]] false (World paren_fs ∅ [] ∅ (Stats 0 0 0 0 0 0)) with
  | Ok (_, w') => file_cache w' !! "x.md" = Some [docs_file ["x.md)"; "x.md"]]
  | _ => False
  end.
Proof.
  pose proof (file_cache_invariant hidden_tree) as (Hinv & _ & _ & Hmain).
  assert (Hlook : build_file_cache hidden_tree ∅ !! "x.md"
                  = Some [docs_file ["x.md)"; "x.md"]])
    by (vm_compute; reflexivity).
  split; [exact Hlook|].
  destruct (Hinv "x.md" [docs_file ["x.md)"; "x.md"]] (docs_file ["x.md)"; "x.md"]) Hlook)
    as (Hname & Hnm & _); [apply list_elem_of_singleton; reflexivity|].
  split; [exact Hname|]. split; [exact Hnm|].
  destruct (main hidden_tree [docs_file ["s.md"]] false
              (World paren_fs ∅ [] ∅ (Stats 0 0 0 0 0 0))) as [[out w']|e|] eqn:Hrun.
  - destruct (Hmain [docs_file ["s.md"]] false (World paren_fs ∅ [] ∅ (Stats 0 0 0 0 0 0))
                out w' eq_refl Hrun) as [-> _].
    exact Hlook.
  - vm_compute in Hrun. discriminate Hrun.
  - vm_compute in Hrun. discriminate Hrun.
Defined.

(** ** C7: relative references in the graph builder *)

Lemma strip_list_prefix_Some (pre l rest : list string) :
  strip_list_prefix pre l = Some rest ↔ l = pre ++ rest.
Proof.
  revert l. induction pre as [|x pre IH]; intros l; simpl.
  - split; [by intros [= ->]|by intros ->].
  - destruct l as [|y l]; [split; discriminate|].
    destruct (decide (x = y)) as [->|Hne].
    + rewrite IH. split; [by intros ->|by intros [= ->]].
    + split; [discriminate|]. intros [= -> _]. done.
Qed.

Lemma relative_to_Ok (p other rel : Path) :
  relative_to p other = Ok rel ↔ root rel = "" ∧ lies_below p other (names rel).
Proof.
  unfold relative_to, lies_below. destruct (parts other) as [|x pre] eqn:Hother.
  - destruct (decide (root p = "")) as [Hroot|Hroot]; simpl.
    + split; [by intros [= <-]|]. intros (Hr & Hparts & _).
      destruct rel as [r ns]. simpl in *. by subst.
    + split; [discriminate|]. intros (_ & _ & H). by destruct Hroot; apply H.
  - destruct (strip_list_prefix (x :: pre) (parts p)) as [rest|] eqn:H.
    + apply strip_list_prefix_Some in H. split.
      * by intros [= <-].
      * intros (Hroot & Hparts & _). destruct rel as [r ns]. simpl in *. subst r.
        rewrite H in Hparts. injection Hparts as Hparts.
        by apply app_inv_head in Hparts as ->.
    + split; [discriminate|]. intros (_ & Hparts & _).
      apply strip_list_prefix_Some in Hparts. congruence.
Qed.

(** [relative_to] returns or raises. *)
Lemma relative_to_fuel (p other : Path) : relative_to p other ≠ OutOfFuel.
Proof.
  unfold relative_to. destruct (parts other); [by destruct (decide _)|].
  by destruct (strip_list_prefix _ _).
Qed.

Lemma relative_to_joinpath (root_dir : Path) (rel : list string) :
  relative_to (joinpath root_dir (MkPath "" rel)) root_dir = Ok (MkPath "" rel).
Proof.
  apply relative_to_Ok. split; [reflexivity|]. split.
  - unfold joinpath, parts. simpl. by rewrite app_assoc.
  - unfold joinpath, parts. simpl. destruct (decide (root root_dir = "")); [done|discriminate].
Qed.

Lemma classify_relative (imp : string) :
  classify imp = relative ↔ PyStr.startswith imp "." = true.
Proof.
  unfold classify. destruct (PyStr.startswith imp "."); [done|].
  destruct (PyStr.startswith imp "@/"); split; discriminate.
Qed.

Lemma resolve_import_total (fs : file_system) (root_dir file_path : Path) (imp : string) :
  ∃ edges, resolve_import fs root_dir file_path imp = Ok edges.
Proof.
  unfold resolve_import.
  destruct (PyStr.startswith imp "."); [|destruct (PyStr.startswith imp "@/"); eauto].
  destruct (relative_to _ root_dir) as [rel| |] eqn:H; simpl; eauto.
  by apply relative_to_fuel in H.
Qed.

(** The loop over [imports] appends to the list it starts from. *)
Lemma resolve_imports_from (fs : file_system) (root_dir file_path : Path)
    (imports : list string) (acc : list string) :
  ∃ edges,
    resolve_imports fs root_dir file_path imports = Ok edges ∧
    for_each (fun imp resolved_imports =>
                more ← resolve_import fs root_dir file_path imp ;
                Ok (resolved_imports ++ more)) imports acc = Ok (acc ++ edges).
Proof.
  unfold resolve_imports. revert acc.
  induction imports as [|imp imports IH] using rev_ind; intros acc.
  - exists []. simpl. by rewrite app_nil_r.
  - destruct (IH []) as (e0 & H0 & _). destruct (IH acc) as (e1 & H1 & Hacc).
    rewrite H0 in H1. injection H1 as <-.
    destruct (resolve_import_total fs root_dir file_path imp) as (more & Hmore).
    exists (e0 ++ more). rewrite !for_each_app, H0, Hacc. simpl.
    rewrite Hmore. simpl. by rewrite app_assoc.
Qed.

Lemma resolve_imports_cons (fs : file_system) (root_dir file_path : Path)
    (before after : list string) (imp : string) (e1 edges e2 : list string) :
  resolve_imports fs root_dir file_path before = Ok e1 →
  resolve_import fs root_dir file_path imp = Ok edges →
  resolve_imports fs root_dir file_path after = Ok e2 →
  resolve_imports fs root_dir file_path (before ++ imp :: after) = Ok (e1 ++ edges ++ e2).
Proof.
  intros H1 Himp H2.
  destruct (resolve_imports_from fs root_dir file_path after (e1 ++ edges)) as (e2' & H2' & Hfrom).
  rewrite H2 in H2'. injection H2' as <-.
  unfold resolve_imports in *. rewrite for_each_app, H1. simpl.
  rewrite Himp. simpl. rewrite Hfrom. by rewrite app_assoc.
Qed.

(** C7: a reference that begins with a dot is resolved against the
    directory of the referencing file. When the resolved path lies below
    the root, the one edge recorded is that path relative to the root;
    when it does not, no edge is recorded. In both cases nothing is raised,
    and the edges of the other references of the file are kept. *)
Theorem relative_reference_resolution (fs : file_system) (root_dir file_path : Path)
    (imp : string) :
  classify imp = relative →
  let resolved := resolve (cwd fs) (joinpath (parent file_path) (parse imp)) in
  ∃ edges,
    resolve_import fs root_dir file_path imp = Ok edges ∧
    (∀ rest, lies_below resolved root_dir rest → edges = [to_str (MkPath "" rest)]) ∧
    ((∀ rest, ¬ lies_below resolved root_dir rest) → edges = []) ∧
    (∀ before after e1 e2,
       resolve_imports fs root_dir file_path before = Ok e1 →
       resolve_imports fs root_dir file_path after = Ok e2 →
       resolve_imports fs root_dir file_path (before ++ imp :: after) = Ok (e1 ++ edges ++ e2)).
Proof.
  intros Hrel%classify_relative resolved.
  assert (Himp : ∃ edges, resolve_import fs root_dir file_path imp = Ok edges ∧
            (∀ rest, lies_below resolved root_dir rest → edges = [to_str (MkPath "" rest)]) ∧
            ((∀ rest, ¬ lies_below resolved root_dir rest) → edges = [])).
  { unfold resolve_import. rewrite Hrel. fold resolved.
    destruct (relative_to resolved root_dir) as [rel| |] eqn:H; simpl.
    - apply relative_to_Ok in H as (Hroot & Hparts & Hempty). exists [to_str rel].
      split; [reflexivity|]. split.
      + intros rest [Hrest _]. rewrite Hparts in Hrest. apply app_inv_head in Hrest as <-.
        destruct rel as [r ns]. simpl in *. by subst r.
      + intros Hout. by destruct (Hout (names rel)).
    - exists []. split; [reflexivity|]. split; [|done].
      intros rest Hrest.
      assert (Hok : relative_to resolved root_dir = Ok (MkPath "" rest))
        by (by apply relative_to_Ok).
      congruence.
    - by apply relative_to_fuel in H. }
  destruct Himp as (edges & Himp & Hin & Hout).
  exists edges. repeat split; try done.
  intros before after e1 e2 H1 H2. by apply resolve_imports_cons.
Qed.

(** In [/proj/client/src/a.ts] the reference [./b] is the edge [src/b],
    and [../../server/x] leaves the root and is no edge; when the root is
    the empty path, the resolved reference, which is absolute, is not below
    it and is no edge. *)
Lemma relative_reference_resolution_witness :
  resolve_import paren_fs (parse "/proj/client") (parse "/proj/client/src/a.ts") "./b"
    = Ok ["src/b"] ∧
  resolve_imports paren_fs (parse "/proj/client") (parse "/proj/client/src/a.ts")
    ["react"; "../../server/x"; "@/lib/y"] = Ok ["external:react"; "src/lib/y"] ∧
  resolve_import paren_fs (parse ".") (parse "src/a.ts") "./b" = Ok [].
Proof.
  destruct (relative_reference_resolution paren_fs (parse "/proj/client")
              (parse "/proj/client/src/a.ts") "./b" eq_refl) as (e & He & Hin & _ & _).
  destruct (relative_reference_resolution paren_fs (parse "/proj/client")
              (parse "/proj/client/src/a.ts") "../../server/x" eq_refl)
    as (e' & _ & _ & Hout & Hctx).
  destruct (relative_reference_resolution paren_fs (parse ".")
              (parse "src/a.ts") "./b" eq_refl) as (e0 & He0 & _ & Hout0 & _).
  split; [|split].
  - rewrite He. f_equal. apply (Hin ["src"; "b"]).
    split; [vm_compute; reflexivity|]. intros Hempty. vm_compute in Hempty. discriminate Hempty.
  - pose proof (Hctx ["react"] ["@/lib/y"] ["external:react"] ["src/lib/y"] eq_refl eq_refl)
      as Hall.
    change (["react"] ++ "../../server/x" :: ["@/lib/y"])
      with ["react"; "../../server/x"; "@/lib/y"] in Hall.
    rewrite Hall. rewrite Hout; [reflexivity|].
    intros rest [Hrest _]. vm_compute in Hrest. discriminate Hrest.
  - rewrite He0. f_equal. apply Hout0.
    intros rest [_ Hroot]. specialize (Hroot eq_refl). vm_compute in Hroot. discriminate Hroot.
Defined.

(** ** C9: extraction never raises *)

Lemma build_dependency_graph_total (fs : file_system) (rglob : string → list (list string))
    (root_dir : Path) (extensions : list string) :
  ∃ graph, build_dependency_graph fs rglob root_dir extensions = Ok graph.
Proof.
  unfold build_dependency_graph.
  match goal with |- ∃ _, for_each _ ?files _ = _ => set (fl := files) end.
  destruct (for_each_invariant (fun _ => True) (scan_file fs root_dir) fl [])
    as (graph & Hgraph & _); [|done|by exists graph].
  intros f graph Hf _. subst fl.
  apply list_elem_of_In, filter_In in Hf as [Hf _].
  apply in_flat_map in Hf as (ext & _ & Hf). apply in_map_iff in Hf as (rel & <- & _).
  unfold scan_file. rewrite relative_to_joinpath. simpl.
  destruct (read_text fs _) as [e|content]; simpl.
  - eexists. split; [reflexivity|done].
  - destruct (resolve_imports_from fs root_dir (joinpath root_dir (MkPath "" rel))
                (Imports.extract_imports content) []) as (edges & -> & _).
    simpl. eexists. split; [reflexivity|done].
Qed.

(** C9: [analyze_imports] returns a list for every outcome of the read, and
    the empty list when the read raised; the file then gets an empty edge
    list and the graph is built all the same. In the link fixer a file whose
    read raises has no links: its statistics are all zero and nothing else
    changes. *)
Theorem extraction_never_raises :
  (∀ read, ∃ imports, Imports.analyze_imports read = Ok imports) ∧
  (∀ e, Imports.analyze_imports (inl e) = Ok []) ∧
  (∀ content, Imports.analyze_imports (inr content) = Ok (Imports.extract_imports content)) ∧
  (∀ fs root_dir file_path graph rel e,
     relative_to file_path root_dir = Ok rel →
     read_text fs file_path = inl e →
     scan_file fs root_dir file_path graph = Ok (dict_set graph (to_str rel) [])) ∧
  (∀ fs rglob root_dir extensions,
     ∃ graph, build_dependency_graph fs rglob root_dir extensions = Ok graph) ∧
  (∀ file_path dry_run w0 e,
     read_text (fs w0) file_path = inl e →
     fix_links_in_file file_path dry_run w0 = Ok (empty_file_stats, w0)).
Proof.
  split; [|split; [|split; [|split; [|split]]]].
  - intros [e|content]; eexists; reflexivity.
  - reflexivity.
  - reflexivity.
  - intros fs root_dir file_path graph rel e Hrel Hread.
    unfold scan_file. rewrite Hrel, Hread. reflexivity.
  - apply build_dependency_graph_total.
  - intros file_path dry_run w0 e Hread. unfold fix_links_in_file. by rewrite Hread.
Qed.

(** No file of the example tree but [s.md] can be read: scanning
    [client/a.ts] yields an empty edge list, and fixing [t.md] finds no
    links. *)
Lemma extraction_never_raises_witness :
  scan_file paren_fs (parse "/proj/client") (parse "/proj/client/a.ts") [("b.ts", ["x"])]
    = Ok [("b.ts", ["x"]); ("a.ts", [])] ∧
  fix_links_in_file (docs_file ["t.md"]) false paren_world = Ok (empty_file_stats, paren_world).
Proof.
  destruct extraction_never_raises as (_ & _ & _ & Hscan & _ & Hfix).
  split.
  - apply (Hscan paren_fs (parse "/proj/client") (parse "/proj/client/a.ts")
             [("b.ts", ["x"])] (MkPath "" ["a.ts"]) OSError); vm_compute; reflexivity.
  - apply (Hfix (docs_file ["t.md"]) false paren_world OSError). vm_compute. reflexivity.
Defined.

(** ** C4 and C5: the rewrite engine *)

(** One step of the loop, for a broken link with a chosen replacement:
    the replacement is substituted into the content exactly when it passes
    [resolve_link], the check that found the link broken. When it passes,
    the first occurrence of the link is replaced and the fix is recorded;
    when it does not, the content is unchanged, no fix is recorded, and an
    unfixable record with the attempted replacement is appended. *)
Lemma fix_link_gated (file_path rel : Path)
    (full_match link_text link_url corrected : string) (st : loop_state) :
  fst (resolve_link (fs (w st)) file_path link_url) = false →
  find_correct_path (fs (w st)) (file_cache (w st)) file_path link_url = Some corrected →
  corrected ≠ "" →
  corrected ≠ link_url →
  relative_to file_path BASE_DIR = Ok rel →
  let new_link := corrected +:+ link_anchor link_url in
  ∃ st',
    fix_link file_path (full_match, link_text, link_url) st = Ok st' ∧
    fs (w st') = fs (w st) ∧
    (fixed_links (file_stats st') = S (fixed_links (file_stats st))
     ↔ fst (resolve_link (fs (w st)) file_path new_link) = true) ∧
    if fst (resolve_link (fs (w st)) file_path new_link) then
      content st' = PyStr.replace_first (content st) full_match (rebuilt_link link_text new_link) ∧
      fixes (file_stats st') = fixes (file_stats st) ++ [FixRecord link_url new_link link_text] ∧
      unfixable_links (w st') = unfixable_links (w st)
    else
      content st' = content st ∧
      fixes (file_stats st') = fixes (file_stats st) ∧
      fixed_links (file_stats st') = fixed_links (file_stats st) ∧
      unfixable_links (w st') =
        unfixable_links (w st) ++ [UnfixableRecord (to_str rel) link_url (Some new_link) None].
Proof.
  intros Hbroken Hfind Hne1 Hne2 Hrel new_link.
  unfold fix_link.
  destruct (resolve_link (fs (w st)) file_path link_url) as [ex tgt] eqn:Hres.
  simpl in Hbroken. subst ex. cbn [w content file_stats].
  rewrite Hfind.
  rewrite (bool_decide_eq_true_2 _ Hne1), (bool_decide_eq_true_2 _ Hne2). cbn [andb].
  cbv zeta. fold (link_anchor link_url). fold new_link.
  fold (rebuilt_link link_text new_link). clearbody new_link.
  destruct (resolve_link (fs (w st)) file_path new_link) as [fix_exists tgt'] eqn:Hfix.
  cbn [fst]. destruct fix_exists.
  - eexists. split; [reflexivity|]. cbn. repeat split; done.
  - unfold record_unfixable. rewrite Hrel. cbn.
    eexists. split; [reflexivity|]. cbn. repeat split; try done; intros; lia.
Qed.

Lemma fix_link_fixes (file_path : Path) (lnk : string * string * string)
    (st st' : loop_state) :
  fix_link file_path lnk st = Ok st' →
  fixes (file_stats st') = fixes (file_stats st) ∨
  ∃ r, fixes (file_stats st') = fixes (file_stats st) ++ [r] ∧
       fst (resolve_link (fs (w st)) file_path (fix_new r)) = true.
Proof.
  destruct lnk as [[full_match link_text] link_url]. unfold fix_link.
  destruct (resolve_link (fs (w st)) file_path link_url) as [[] ?].
  { intros [= <-]. by left. }
  cbn [w content file_stats].
  destruct (find_correct_path _ _ _ _) as [corrected|];
    [destruct (_ && _)|];
    [|intros (? & _ & [= <-])%bind_Ok; by left..].
  cbv zeta. fold (link_anchor link_url).
  generalize (corrected +:+ link_anchor link_url). intros new_link.
  destruct (resolve_link (fs (w st)) file_path new_link) as [fix_exists tgt] eqn:Hfix.
  destruct fix_exists.
  - intros [= <-]. right. eexists. split; [reflexivity|].
    change (fst (resolve_link (fs (w st)) file_path new_link) = true). by rewrite Hfix.
  - intros (? & _ & [= <-])%bind_Ok. by left.
Qed.

Lemma write_text_exists (fs fs' : file_system) (p : Path) (content : string) :
  write_text fs p content = Ok fs' → exists_ fs' = exists_ fs ∧ cwd fs' = cwd fs.
Proof.
  unfold write_text. destruct (writable fs p); [|discriminate]. by intros [= <-].
Qed.

(** C5, amended: a replacement that a step commits passes [resolve_link];
    it still does after the file is written; and in a later run over the
    written tree the step of a link whose target is that replacement finds
    it valid and changes nothing. *)
Theorem committed_replacement_resolves (file_path : Path) (lnk : string * string * string)
    (st st' : loop_state) (r : fix_record) :
  fix_link file_path lnk st = Ok st' →
  fixes (file_stats st') = fixes (file_stats st) ++ [r] →
  fst (resolve_link (fs (w st')) file_path (fix_new r)) = true ∧
  ∀ new_content fs2,
    write_text (fs (w st')) file_path new_content = Ok fs2 →
    fst (resolve_link fs2 file_path (fix_new r)) = true ∧
    ∀ full_match link_text st2,
      fs (w st2) = fs2 →
      fix_link file_path (full_match, link_text, fix_new r) st2 = Ok st2.
Proof.
  intros Hstep Hfixes.
  destruct (fix_link_cache _ _ _ _ Hstep) as [_ Hfs].
  destruct (fix_link_fixes _ _ _ _ Hstep) as [Hsame|(r' & Hr' & Hres)].
  { rewrite Hsame in Hfixes. apply (f_equal length) in Hfixes.
    rewrite length_app in Hfixes. simpl in Hfixes. lia. }
  rewrite Hr' in Hfixes. apply app_inv_head in Hfixes. injection Hfixes as ->.
  rewrite Hfs. split; [exact Hres|].
  intros new_content fs2 Hwrite.
  apply write_text_exists in Hwrite as [Hex Hcwd].
  assert (Hres2 : fst (resolve_link fs2 file_path (fix_new r)) = true).
  { unfold resolve_link in *. cbn [fst] in *. by rewrite Hex, Hcwd. }
  split; [exact Hres2|].
  intros full_match link_text st2 Hst2. unfold fix_link. rewrite Hst2.
  destruct (resolve_link fs2 file_path (fix_new r)) as [ex tgt].
  simpl in Hres2. by subst ex.
Qed.

(** The step on [s.md] commits [x.md)/x.md]; the replacement resolves, and
    once the file is written a link with that target is left alone. *)
Lemma committed_replacement_resolves_witness :
  fst (resolve_link (fs (w paren_after_step)) (docs_file ["s.md"]) "x.md)/x.md") = true ∧
  fix_link (docs_file ["s.md"]) ("[t](x.md)/x.md)", "t", "x.md)/x.md") paren_written
    = Ok paren_written.
Proof.
  destruct (committed_replacement_resolves (docs_file ["s.md"]) ("[t](x.md)", "t", "x.md")
              paren_before_step paren_after_step (FixRecord "x.md" "x.md)/x.md" "t"))
    as [Hres Hlater]; [vm_compute; reflexivity | reflexivity |].
  split; [exact Hres|].
  destruct (Hlater "[t](x.md)/x.md)" (fs (w paren_written)) eq_refl) as [_ Hstep].
  exact (Hstep "[t](x.md)/x.md)" "t" paren_written eq_refl).
Defined.

(** ** C3: the candidate scorer *)

Lemma count_fold (P : string → Prop) `{!∀ x, Decision (P x)} (l : list string) (acc : nat) :
  fold_left (fun score x => if decide (P x) then score + 2 else score) l acc
  = acc + 2 * length (filter P l).
Proof.
  revert acc. induction l as [|x l IH]; intros acc; simpl; [lia|].
  rewrite IH, filter_cons. destruct (decide (P x)); simpl; lia.
Qed.

Lemma candidate_score_spec (target candidate : Path) :
  candidate_score (parts target) candidate = spec_score target candidate.
Proof.
  unfold candidate_score, spec_score, categories.
  rewrite (count_fold (fun seg => seg ∈ parts candidate)).
  rewrite !filter_cons, filter_nil.
  repeat match goal with
         | |- context [decide ?P] => destruct (decide P)
         end; simpl; lia.
Qed.

Lemma best_candidate_fold (original_parts : list string) (cs seen : list Path)
    (best : option Path * nat) :
  best_of original_parts seen best →
  best_of original_parts (seen ++ cs)
    (fold_left (fun best candidate =>
                  let score := candidate_score original_parts candidate in
                  if decide (snd best < score) then (Some candidate, score) else best)
               cs best).
Proof.
  revert seen best. induction cs as [|c cs IH]; intros seen best Hbest; simpl.
  - by rewrite app_nil_r.
  - replace (seen ++ c :: cs) with ((seen ++ [c]) ++ cs) by (by rewrite <- app_assoc).
    apply IH. destruct best as [bm bs]. destruct Hbest as [Hmax Hbm]. simpl in *.
    destruct (decide (bs < candidate_score original_parts c)) as [Hlt|Hge]; split; simpl.
    + intros c' [Hc'|Hc']%elem_of_app.
      * specialize (Hmax c' Hc'). lia.
      * apply list_elem_of_singleton in Hc' as ->. lia.
    + split; [lia|]. split; [reflexivity|]. exists (length seen). split.
      * by rewrite lookup_app_r, Nat.sub_diag by lia.
      * intros j c' Hj Hc'. rewrite lookup_app_l in Hc' by done.
        apply list_elem_of_lookup_2 in Hc'. specialize (Hmax c' Hc'). lia.
    + intros c' [Hc'|Hc']%elem_of_app.
      * by apply Hmax.
      * apply list_elem_of_singleton in Hc' as ->. lia.
    + destruct bm as [b|]; [|done].
      destruct Hbm as (Hpos & Hscore & i & Hi & Hbefore).
      split; [done|]. split; [done|]. exists i. split.
      * rewrite lookup_app_l; [done|]. by apply lookup_lt_Some in Hi.
      * intros j c' Hj Hc'. apply (Hbefore j c' Hj).
        apply lookup_lt_Some in Hi. rewrite lookup_app_l in Hc' by lia. done.
Qed.

Lemma best_candidate_best_of (original_parts : list string) (candidates : list Path) :
  best_of original_parts candidates (best_candidate original_parts candidates).
Proof.
  apply (best_candidate_fold original_parts candidates [] (None, 0)).
  split; [|reflexivity]. intros c Hc. by apply elem_of_nil in Hc.
Qed.

Lemma find_first (f : Path → bool) (l : list Path) :
  match List.find f l with
  | Some c => ∃ i, l !! i = Some c ∧ f c = true ∧ ∀ j c', j < i → l !! j = Some c' → f c' = false
  | None => Forall (fun c => f c = false) l
  end.
Proof.
  induction l as [|x l IH]; simpl; [constructor|].
  destruct (f x) eqn:Hx.
  - exists 0. split; [reflexivity|]. split; [done|]. intros j c' Hj. lia.
  - destruct (List.find f l) as [c|].
    + destruct IH as (i & Hi & Hc & Hbefore). exists (S i). split; [done|]. split; [done|].
      intros [|j] c' Hj Hc'; simpl in Hc'.
      * by injection Hc' as <-.
      * apply (Hbefore j); [lia|done].
    + by constructor.
Qed.

(** C3: with two or more candidates the score that [find_correct_path]
    computes is the sum the specification describes, and the candidate
    whose relative path it returns is the choice the specification
    describes: the highest-scoring candidate, the earliest among equals,
    when its score is at least 3; otherwise the first candidate outside an
    archive, and the first candidate when all are in an archive. *)
Theorem scored_choice (fs : file_system) (cache : gmap string (list Path))
    (source_file : Path) (broken_link : string) (candidates : list Path) :
  find_file_in_cache cache (name (parse broken_link)) = candidates →
  2 ≤ length candidates →
  (∀ c, candidate_score (parts (parse broken_link)) c = spec_score (parse broken_link) c) ∧
  ∃ chosen,
    find_correct_path fs cache source_file broken_link
      = Some (calculate_relative_path fs source_file chosen) ∧
    spec_choice (parse broken_link) candidates chosen.
Proof.
  intros Hcands Hlen. split; [intros c; apply candidate_score_spec|].
  unfold find_correct_path. rewrite Hcands.
  destruct candidates as [|first [|second rest]]; [simpl in Hlen; lia..|].
  set (cs := first :: second :: rest).
  set (target := parse broken_link).
  pose proof (best_candidate_best_of (parts target) cs) as Hbest.
  pose proof (find_first (fun candidate => bool_decide ("archive" ∉ parts candidate)) cs) as Hfind.
  assert (Hfallback : ∀ best,
            highest_scoring target cs best → spec_score target best < 3 →
            ∃ chosen,
              match List.find (fun candidate => bool_decide ("archive" ∉ parts candidate)) cs with
              | Some candidate => Some (calculate_relative_path fs source_file candidate)
              | None => Some (calculate_relative_path fs source_file first)
              end = Some (calculate_relative_path fs source_file chosen) ∧
              spec_choice target cs chosen).
  { intros best Hhigh Hlow.
    destruct (List.find _ cs) as [c|].
    - exists c. split; [reflexivity|]. exists best. split; [done|]. right. split; [done|].
      left. destruct Hfind as (i & Hi & Hc & Hbefore). exists i. split; [done|]. split.
      + apply bool_decide_eq_true in Hc. unfold archival. done.
      + intros j c' Hj Hc'. specialize (Hbefore j c' Hj Hc').
        apply bool_decide_eq_false in Hbefore. unfold archival.
        by destruct (decide ("archive" ∈ parts c')).
    - exists first. split; [reflexivity|]. exists best. split; [done|]. right. split; [done|].
      right. split; [|reflexivity].
      eapply Forall_impl; [exact Hfind|]. intros c' Hc'. simpl in Hc'.
      apply bool_decide_eq_false in Hc'. unfold archival.
      by destruct (decide ("archive" ∈ parts c')). }
  destruct (best_candidate (parts target) cs) as [bm bs]. destruct Hbest as [Hmax Hbm].
  simpl in Hmax, Hbm.
  destruct bm as [b|].
  - destruct Hbm as (Hpos & Hscore & i & Hi & Hbefore).
    assert (Hhigh : highest_scoring target cs b).
    { exists i. split; [done|]. split.
      - intros c Hc. rewrite <- !candidate_score_spec, Hscore. by apply Hmax.
      - intros j c Hj Hc. rewrite <- !candidate_score_spec, Hscore. by apply (Hbefore j). }
    destruct (decide (3 ≤ bs)) as [Hok|Hlow].
    + exists b. split; [reflexivity|]. exists b. split; [done|]. left.
      rewrite <- candidate_score_spec, Hscore. done.
    + apply (Hfallback b Hhigh). rewrite <- candidate_score_spec, Hscore. lia.
  - subst bs.
    assert (Hzero : ∀ c, c ∈ cs → spec_score target c = 0).
    { intros c Hc. specialize (Hmax c Hc). rewrite candidate_score_spec in Hmax. lia. }
    apply (Hfallback first).
    + exists 0. split; [reflexivity|]. split.
      * intros c Hc. rewrite (Hzero c Hc). lia.
      * intros j c Hj. lia.
    + rewrite (Hzero first); [lia|]. subst cs. set_solver.
Qed.

(** The broken link [../old/guide.md] with an archived [guide.md] (score 3)
    and one under [how-to] (score 4): the second is chosen. *)
Lemma scored_choice_witness :
  spec_score (parse "../old/guide.md") guide_archived = 3 ∧
  spec_score (parse "../old/guide.md") guide_how_to = 4 ∧
  find_correct_path paren_fs guide_cache (docs_file ["s.md"]) "../old/guide.md"
    = Some "how-to/guide.md".
Proof.
  destruct (scored_choice paren_fs guide_cache (docs_file ["s.md"]) "../old/guide.md"
              [guide_archived; guide_how_to]) as (Hscore & chosen & Hpath & Hchoice);
    [vm_compute; reflexivity | simpl; lia |].
  split; [rewrite <- Hscore; vm_compute; reflexivity|].
  split; [rewrite <- Hscore; vm_compute; reflexivity|].
  vm_compute. reflexivity.
Defined.

(** ** C1: what the cycle detector finds *)

(** *** Sequences of nodes *)

Lemma elem_of_steps (l : list string) (u v : string) :
  (u, v) ∈ steps l ↔ ∃ l1 l2, l = l1 ++ u :: v :: l2.
Proof.
  induction l as [|x l IH]; simpl.
  - split; [by intros ?%elem_of_nil|]. intros (l1 & l2 & H). by destruct l1.
  - destruct l as [|y l].
    + split; [by intros ?%elem_of_nil|]. intros (l1 & l2 & H).
      destruct l1 as [|? [|? ?]]; discriminate.
    + rewrite elem_of_cons, IH. split.
      * intros [[= -> ->]|(l1 & l2 & ->)].
        -- by exists [], l.
        -- by exists (x :: l1), l2.
      * intros (l1 & l2 & H). destruct l1 as [|a l1]; simpl in H.
        -- injection H as -> -> ->. by left.
        -- injection H as -> H. right. by exists l1, l2.
Qed.

Lemma steps_app_r (l1 l2 : list string) (u v : string) :
  (u, v) ∈ steps l2 → (u, v) ∈ steps (l1 ++ l2).
Proof.
  rewrite !elem_of_steps. intros (a & b & ->). exists (l1 ++ a), b. by rewrite <- app_assoc.
Qed.

Lemma steps_snoc (l : list string) (z u v : string) :
  (u, v) ∈ steps (l ++ [z]) → (u, v) ∈ steps l ∨ (last l = Some u ∧ v = z).
Proof.
  rewrite !elem_of_steps. intros (l1 & l2 & H).
  destruct l2 as [|b l2 _] using rev_ind.
  - right. replace (l1 ++ [u; v]) with ((l1 ++ [u]) ++ [v]) in H by (by rewrite <- app_assoc).
    apply app_inj_tail in H as [-> ->]. by rewrite last_snoc.
  - left. exists l1, l2.
    replace (l1 ++ u :: v :: l2 ++ [b]) with ((l1 ++ u :: v :: l2) ++ [b]) in H
      by (by rewrite <- app_assoc).
    by apply app_inj_tail in H as [-> _].
Qed.

Lemma steps_elem_of (l : list string) (u v : string) :
  (u, v) ∈ steps l → u ∈ l ∧ v ∈ l.
Proof.
  rewrite elem_of_steps. intros (l1 & l2 & ->). set_solver.
Qed.

Lemma closed_walk_next (g : graph) (w : list string) (x : string) :
  closed_walk g w → x ∈ w → ∃ y, (x, y) ∈ steps w.
Proof.
  intros [(x0 & m & ->) _] Hx.
  assert (Hx' : x ∈ x0 :: m).
  { change (x0 :: m ++ [x0]) with ((x0 :: m) ++ [x0]) in Hx. set_solver. }
  apply list_elem_of_split in Hx' as (a & b & Hab).
  change (x0 :: m ++ [x0]) with ((x0 :: m) ++ [x0]). rewrite Hab.
  destruct b as [|y b].
  - exists x0. apply elem_of_steps. exists a, []. by rewrite <- app_assoc.
  - exists y. apply elem_of_steps. exists a, (b ++ [x0]). by rewrite <- app_assoc.
Qed.

(** *** The graph *)

Lemma graph_get_Some (g : graph) (u : string) (vs : list string) :
  graph_get g u = Some vs →
  u ∈ graph_keys g ∧ u ∈ graph_nodes g ∧ ∀ v, v ∈ vs → v ∈ graph_nodes g.
Proof.
  unfold graph_keys, graph_nodes.
  induction g as [|[k ws] g IH]; simpl; [discriminate|].
  destruct (decide (k = u)) as [->|Hne].
  - intros [= ->]. set_solver.
  - intros H. destruct (IH H) as (H1 & H2 & H3). set_solver.
Qed.

Lemma graph_keys_nodes (g : graph) (k : string) :
  k ∈ graph_keys g → k ∈ graph_nodes g.
Proof.
  unfold graph_keys, graph_nodes.
  induction g as [|[k' ws] g IH]; simpl; set_solver.
Qed.

Lemma size_list_to_set_le (l : list string) :
  size (list_to_set l : gset string) ≤ length l.
Proof.
  induction l as [|x l IH].
  - by rewrite list_to_set_nil, size_empty.
  - rewrite list_to_set_cons, size_union_alt, size_singleton. simpl length.
    pose proof (subseteq_size (list_to_set l ∖ {[x]}) (list_to_set l : gset string)) as H.
    assert (list_to_set l ∖ {[x]} ⊆ (list_to_set l : gset string)) by set_solver.
    specialize (H ltac:(done)). lia.
Qed.

(** *** [path.index] and the removal of duplicates *)

Lemma index_elem_of (path : list string) (x : string) :
  x ∈ path →
  ∃ l1 l2, path = l1 ++ x :: l2 ∧ index path x = Ok (length l1).
Proof.
  induction path as [|y path IH]; [by intros ?%elem_of_nil|].
  intros Hx. simpl. destruct (decide (y = x)) as [->|Hne].
  - by exists [], path.
  - destruct IH as (l1 & l2 & -> & ->); [set_solver|].
    by exists (y :: l1), l2.
Qed.

Lemma elem_of_remove_duplicates (cs : list (list string)) (c : list string) :
  c ∈ remove_duplicates cs ↔ c ∈ cs.
Proof.
  unfold remove_duplicates.
  assert (H : ∀ acc, c ∈ fold_left
                (fun unique c => if decide (c ∈ unique) then unique else unique ++ [c]) cs acc
              ↔ c ∈ acc ∨ c ∈ cs).
  { induction cs as [|c' cs IH]; intros acc; simpl.
    - set_solver.
    - rewrite IH. destruct (decide (c' ∈ acc)); set_solver. }
  rewrite H. set_solver.
Qed.

(** *** The invariant *)

Lemma extends_refl (σ : dfs_state) : extends σ σ.
Proof. by repeat split. Qed.

Lemma extends_trans (σ1 σ2 σ3 : dfs_state) :
  extends σ1 σ2 → extends σ2 σ3 → extends σ1 σ3.
Proof.
  intros (V12 & R12 & C12) (V23 & R23 & C23). repeat split.
  - set_solver.
  - congruence.
  - auto.
Qed.

Lemma handled_mono (σ σ' : dfs_state) (u v : string) :
  extends σ σ' → handled σ u v → handled σ' u v.
Proof.
  intros (HV & HR & HC) [Hfin|(c & Hc & Hcl)].
  - left. unfold finished in *. rewrite HR. set_solver.
  - right. exists c. auto.
Qed.

(** Changing [circulars] to a list with the same cycles and more keeps the
    invariant, as long as what is added is a cycle. *)
Lemma dfs_inv_circulars (g : graph) (σ : dfs_state) (cs : list (list string)) :
  dfs_inv g σ →
  (∀ c, c ∈ circulars σ → c ∈ cs) →
  (∀ c, c ∈ cs → simple_cycle g c) →
  dfs_inv g (set_circulars σ cs).
Proof.
  intros [H1 H2 H3 H4] Hold Hnew. split; simpl; try done.
  intros w x Hw Hx Hfin. destruct (H4 w x Hw Hx Hfin) as (u & v & c & Huv & Hc & Hcl).
  exists u, v, c. auto.
Qed.

(** The cycle recorded when a neighbor is on the stack. *)
Lemma recorded_cycle (g : graph) (path l1 l2 : list string) (node y : string) :
  NoDup path → walk g path → last path = Some node → edge g node y →
  path = l1 ++ y :: l2 →
  simple_cycle g (drop (length l1) path ++ [y]) ∧
  closes (drop (length l1) path ++ [y]) node y.
Proof.
  intros Hnd Hwalk Hlast Hedge ->.
  rewrite drop_app_length.
  assert (Hlast' : last (y :: l2) = Some node) by (by rewrite last_app_cons in Hlast).
  split.
  - exists y, l2. split; [reflexivity|]. split.
    + by apply NoDup_app in Hnd as (_ & _ & Hnd).
    + intros u v [Huv|[Hu ->]]%steps_snoc.
      * apply Hwalk. by apply steps_app_r.
      * rewrite Hlast' in Hu. by injection Hu as <-.
  - split; [reflexivity|].
    destruct (y :: l2) as [|a l] eqn:E using rev_ind; [discriminate|].
    rewrite last_snoc in Hlast'. injection Hlast' as ->.
    exists l. by rewrite <- app_assoc.
Qed.

(** *** One neighbor, the loop over the neighbors, and [dfs] *)

Lemma visit_neighbor_ok (g : graph)
    (rec : string → list string → dfs_state → result dfs_state) (fuel : nat)
    (node y : string) (path1 : list string) (σ : dfs_state) :
  dfs_ok g rec fuel →
  dfs_inv g σ →
  rec_stack σ = list_to_set path1 →
  NoDup path1 → walk g path1 → last path1 = Some node →
  edge g node y → y ∈ graph_nodes g →
  size (list_to_set (graph_nodes g) ∖ visited σ : gset string) < fuel →
  ∃ σ', visit_neighbor rec path1 y σ = Ok σ' ∧ dfs_inv g σ' ∧ extends σ σ' ∧
        handled σ' node y.
Proof.
  intros Hrec Hinv Hstack Hnd Hwalk Hlast Hedge Hy Hsize. unfold visit_neighbor.
  destruct (decide (y ∉ visited σ)) as [Hnew|Hold].
  - destruct (Hrec y path1 σ) as (σ' & -> & Hinv' & Hext & Hvis); try done.
    { intros u v [Huv|[Hu ->]]%steps_snoc; [by apply Hwalk|].
      rewrite Hlast in Hu. by injection Hu as <-. }
    simpl.
    assert (Hfin : y ∈ finished σ').
    { destruct Hext as (_ & HR & _). unfold finished. rewrite HR.
      pose proof (inv_stack g σ Hinv). set_solver. }
    destruct (circulars σ') as [|c cs] eqn:Hcs.
    + exists σ'. split; [reflexivity|]. split; [done|]. split; [done|]. by left.
    + exists (set_circulars σ' ((c :: cs) ++ c :: cs)). split; [reflexivity|].
      split; [|split].
      * apply dfs_inv_circulars; [done|rewrite Hcs; set_solver|].
        intros c' Hc'. apply (inv_sound g σ' Hinv'). rewrite Hcs. set_solver.
      * eapply extends_trans; [exact Hext|]. repeat split; simpl; [done|].
        rewrite Hcs. set_solver.
      * by left.
  - apply dec_stable in Hold.
    destruct (decide (y ∈ rec_stack σ)) as [Hon|Hoff].
    + assert (Hin : y ∈ path1) by (rewrite Hstack in Hon; set_solver).
      destruct (index_elem_of path1 y Hin) as (l1 & l2 & Hpath & ->). simpl.
      destruct (recorded_cycle g path1 l1 l2 node y) as [Hcycle Hcloses]; try done.
      eexists. split; [reflexivity|]. split; [|split].
      * apply dfs_inv_circulars; [done|set_solver|].
        intros c [Hc|Hc]%elem_of_app.
        -- by apply (inv_sound g σ Hinv).
        -- by apply list_elem_of_singleton in Hc as ->.
      * repeat split; simpl; [done|set_solver].
      * right. eexists. split; [|exact Hcloses]. simpl. set_solver.
    + exists σ. split; [reflexivity|]. split; [done|]. split; [apply extends_refl|].
      left. unfold finished. set_solver.
Qed.

Lemma visit_loop_ok (g : graph)
    (rec : string → list string → dfs_state → result dfs_state) (fuel : nat)
    (node : string) (path1 neighbors : list string) (σ : dfs_state) :
  dfs_ok g rec fuel →
  dfs_inv g σ →
  rec_stack σ = list_to_set path1 →
  NoDup path1 → walk g path1 → last path1 = Some node →
  (∀ y, y ∈ neighbors → edge g node y ∧ y ∈ graph_nodes g) →
  size (list_to_set (graph_nodes g) ∖ visited σ : gset string) < fuel →
  ∃ σ', for_each (visit_neighbor rec path1) neighbors σ = Ok σ' ∧ dfs_inv g σ' ∧
        extends σ σ' ∧ ∀ y, y ∈ neighbors → handled σ' node y.
Proof.
  intros Hrec. revert σ.
  induction neighbors as [|y neighbors IH]; intros σ Hinv Hstack Hnd Hwalk Hlast Hnbrs Hsize.
  - exists σ. split; [reflexivity|]. split; [done|]. split; [apply extends_refl|].
    by intros y ?%elem_of_nil.
  - destruct (Hnbrs y) as [Hedge Hy]; [set_solver|].
    destruct (visit_neighbor_ok g rec fuel node y path1 σ)
      as (σ1 & H1 & Hinv1 & Hext1 & Hy1); try done.
    simpl. rewrite H1. simpl.
    destruct (IH σ1) as (σ' & H' & Hinv' & Hext' & Hrest); try done.
    + destruct Hext1 as (_ & -> & _). done.
    + intros y' Hy'. apply Hnbrs. set_solver.
    + destruct Hext1 as (HV & _ & _).
      pose proof (subseteq_size (list_to_set (graph_nodes g) ∖ visited σ1)
                    (list_to_set (graph_nodes g) ∖ visited σ : gset string)) as Hle.
      assert (list_to_set (graph_nodes g) ∖ visited σ1
              ⊆ (list_to_set (graph_nodes g) ∖ visited σ : gset string)) by set_solver.
      specialize (Hle ltac:(done)). lia.
    + exists σ'. split; [done|]. split; [done|]. split.
      * by eapply extends_trans.
      * intros y' [->|Hy']%elem_of_cons; [by eapply handled_mono|by apply Hrest].
Qed.

Lemma dfs_ok_dfs (g : graph) (fuel : nat) : dfs_ok g (dfs g fuel) fuel.
Proof.
  induction fuel as [|fuel IH]; intros node path σ Hinv Hnew Hnode Hstack Hnd Hwalk Hsize;
    [lia|].
  cbn [dfs].
  set (σ1 := DfsState ({[node]} ∪ visited σ) ({[node]} ∪ rec_stack σ) (circulars σ)).
  set (path1 := path ++ [node]).
  pose proof (inv_stack g σ Hinv) as HRV.
  pose proof (inv_nodes g σ Hinv) as HVU.
  assert (Hnot_on : node ∉ rec_stack σ) by set_solver.
  assert (Hinv1 : dfs_inv g σ1).
  { split; simpl.
    - set_solver.
    - set_solver.
    - apply (inv_sound g σ Hinv).
    - intros w x Hw Hx Hfin. apply (inv_cycles g σ Hinv w x Hw Hx).
      unfold finished in *. simpl in Hfin. set_solver. }
  assert (Hstack1 : rec_stack σ1 = list_to_set path1).
  { subst σ1 path1. simpl. rewrite Hstack, list_to_set_app_L. simpl. set_solver. }
  assert (Hnd1 : NoDup path1).
  { apply NoDup_app. split; [done|]. split; [|apply NoDup_singleton].
    intros x Hx ->%list_elem_of_singleton. rewrite Hstack in Hnot_on. set_solver. }
  assert (Hlast1 : last path1 = Some node) by apply last_snoc.
  assert (Hsize1 : size (list_to_set (graph_nodes g) ∖ visited σ1 : gset string) < fuel).
  { pose proof (subset_size (list_to_set (graph_nodes g) ∖ visited σ1)
                  (list_to_set (graph_nodes g) ∖ visited σ : gset string)) as Hlt.
    assert (list_to_set (graph_nodes g) ∖ visited σ1
            ⊂ (list_to_set (graph_nodes g) ∖ visited σ : gset string)).
    { subst σ1. simpl. apply strict_spec_alt. split; [set_solver|].
      intros Heq. assert (Hin : node ∈ (list_to_set (graph_nodes g) ∖ visited σ : gset string))
        by set_solver.
      rewrite <- Heq in Hin. set_solver. }
    specialize (Hlt ltac:(done)). lia. }
  assert (Hloop : ∃ σ2,
            match graph_get g node with
            | Some neighbors => for_each (visit_neighbor (dfs g fuel) path1) neighbors σ1
            | None => Ok σ1
            end = Ok σ2 ∧ dfs_inv g σ2 ∧ extends σ1 σ2 ∧
            ∀ y, edge g node y → handled σ2 node y).
  { destruct (graph_get g node) as [neighbors|] eqn:Hget.
    - destruct (visit_loop_ok g (dfs g fuel) fuel node path1 neighbors σ1)
        as (σ2 & H2 & Hinv2 & Hext2 & Hdone); try done.
      + intros y Hy. split; [by exists neighbors|].
        by apply (graph_get_Some g node neighbors).
      + exists σ2. split; [done|]. split; [done|]. split; [done|].
        intros y (vs & Hvs & Hy). rewrite Hget in Hvs. injection Hvs as <-. by apply Hdone.
    - exists σ1. split; [done|]. split; [done|]. split; [apply extends_refl|].
      intros y (vs & Hvs & _). congruence. }
  destruct Hloop as (σ2 & -> & Hinv2 & (HV2 & HR2 & HC2) & Hdone). simpl.
  assert (HV2' : {[node]} ∪ visited σ ⊆ visited σ2) by exact HV2.
  assert (HR2' : rec_stack σ2 = {[node]} ∪ rec_stack σ) by exact HR2.
  unfold rec_stack_remove. rewrite decide_True by (clear -HR2'; set_solver).
  eexists. split; [reflexivity|].
  assert (HR' : rec_stack σ2 ∖ {[node]} = rec_stack σ) by (clear -HR2' Hnot_on; set_solver).
  assert (Hnode2 : node ∈ visited σ2) by (clear -HV2'; set_solver).
  split; [|split].
  - split; cbn [visited rec_stack circulars].
    + rewrite HR'; clear -HRV HV2'; set_solver.
    + apply (inv_nodes g σ2 Hinv2).
    + apply (inv_sound g σ2 Hinv2).
    + intros w x Hw Hx Hfin. unfold finished in Hfin. cbn [visited rec_stack] in Hfin.
      destruct (decide (x ∈ finished σ2)) as [Hfin2|Hnot].
      { by apply (inv_cycles g σ2 Hinv2 w x Hw Hx). }
      assert (x = node) as ->.
      { unfold finished in Hnot. rewrite HR' in Hfin. rewrite HR2' in Hnot.
        apply elem_of_difference in Hfin as [HxV HxR].
        destruct (decide (x = node)) as [|Hne]; [done|]. exfalso. apply Hnot.
        apply elem_of_difference. split; [done|].
        rewrite elem_of_union, elem_of_singleton. by intros [|]. }
      destruct (closed_walk_next g w node Hw Hx) as (y & Hstep).
      destruct (Hdone y) as [Hy|(c & Hc & Hcl)].
      * destruct Hw as [_ Hw]. by apply Hw.
      * apply (inv_cycles g σ2 Hinv2 w y Hw); [|done].
        by apply steps_elem_of in Hstep as [_ ?].
      * by exists node, y, c.
  - split; [|split]; cbn [visited rec_stack circulars].
    + clear -HV2'. set_solver.
    + exact HR'.
    + intros c Hc. apply HC2. exact Hc.
  - exact Hnode2.
Qed.

(** *** The loop over the roots and the result *)

Lemma visit_roots_ok (g : graph) (keys : list string) (σ : dfs_state) :
  dfs_inv g σ →
  rec_stack σ = ∅ →
  (∀ k, k ∈ keys → k ∈ graph_nodes g) →
  ∃ σ', for_each (visit_root g) keys σ = Ok σ' ∧ dfs_inv g σ' ∧ rec_stack σ' = ∅ ∧
        visited σ ⊆ visited σ' ∧ ∀ k, k ∈ keys → k ∈ visited σ'.
Proof.
  revert σ. induction keys as [|k keys IH]; intros σ Hinv Hempty Hkeys.
  - exists σ. split; [reflexivity|]. split; [done|]. split; [done|]. split; [done|].
    by intros k ?%elem_of_nil.
  - assert (Hroot : ∃ σ1, visit_root g k σ = Ok σ1 ∧ dfs_inv g σ1 ∧ rec_stack σ1 = ∅ ∧
                          visited σ ⊆ visited σ1 ∧ k ∈ visited σ1).
    { unfold visit_root. destruct (decide (k ∉ visited σ)) as [Hnew|Hold].
      - assert (Hσ : DfsState (visited σ) ∅ (circulars σ) = σ)
          by (destruct σ; simpl in *; by subst).
        rewrite Hσ.
        destruct (dfs_ok_dfs g (dfs_fuel g) k [] σ) as (σ1 & H1 & Hinv1 & Hext & Hk);
          try done.
        + apply Hkeys. set_solver.
        + apply NoDup_nil_2.
        + intros u v Huv. simpl in Huv. by apply elem_of_nil in Huv.
        + unfold dfs_fuel.
          pose proof (size_list_to_set_le (graph_nodes g)) as Hle.
          pose proof (subseteq_size (list_to_set (graph_nodes g) ∖ visited σ)
                        (list_to_set (graph_nodes g) : gset string)) as Hsub.
          assert (list_to_set (graph_nodes g) ∖ visited σ
                  ⊆ (list_to_set (graph_nodes g) : gset string)) by (clear; set_solver).
          specialize (Hsub ltac:(done)). lia.
        + destruct Hext as (HV & HR & _). exists σ1.
          split; [done|]. split; [done|]. split; [congruence|]. by split.
      - apply dec_stable in Hold. exists σ.
        split; [reflexivity|]. split; [done|]. split; [done|]. by split. }
    destruct Hroot as (σ1 & H1 & Hinv1 & Hempty1 & HV1 & Hk1).
    destruct (IH σ1) as (σ' & H' & Hinv' & Hempty' & HV' & Hrest); try done.
    { intros k' Hk'. apply Hkeys. set_solver. }
    exists σ'. simpl. rewrite H1. simpl. split; [done|]. split; [done|]. split; [done|].
    split; [clear -HV1 HV'; set_solver|].
    intros k' [->|Hk']%elem_of_cons; [clear -Hk1 HV'; set_solver|by apply Hrest].
Qed.

Lemma dfs_inv_initial (g : graph) : dfs_inv g (DfsState ∅ ∅ []).
Proof.
  split; simpl.
  - done.
  - set_solver.
  - by intros c ?%elem_of_nil.
  - intros w x _ _ Hfin. unfold finished in Hfin. simpl in Hfin. set_solver.
Qed.

(** The detector returns, whatever the graph, and what it returns are
    simple cycles of the graph. *)
Lemma find_circular_dependencies_total (g : graph) :
  ∃ σ, for_each (visit_root g) (graph_keys g) (DfsState ∅ ∅ []) = Ok σ ∧
       find_circular_dependencies g = Ok (remove_duplicates (circulars σ)) ∧
       dfs_inv g σ ∧ rec_stack σ = ∅ ∧
       (∀ k, k ∈ graph_keys g → k ∈ visited σ) ∧
       ∀ s, s ∈ remove_duplicates (circulars σ) → simple_cycle g s.
Proof.
  destruct (visit_roots_ok g (graph_keys g) (DfsState ∅ ∅ []))
    as (σ & Hrun & Hinv & Hempty & _ & Hkeys).
  - apply dfs_inv_initial.
  - reflexivity.
  - apply graph_keys_nodes.
  - exists σ. split; [done|]. split.
    + unfold find_circular_dependencies. by rewrite Hrun.
    + split; [done|]. split; [done|]. split; [done|].
      intros s Hs. apply (proj1 (elem_of_remove_duplicates _ _)) in Hs.
      by apply (inv_sound g σ Hinv).
Qed.

(** C1, amended: for every graph the detector returns a list; every
    sequence in it is a simple cycle of the graph; for every cycle of the
    graph some returned sequence starts at one of its nodes and comes back
    to it through an edge of that cycle; and the list is empty exactly
    when the graph has no cycle. *)
Theorem some_cycle_through_every_cycle (g : graph) :
  ∃ out,
    find_circular_dependencies g = Ok out ∧
    (∀ s, s ∈ out → simple_cycle g s) ∧
    (∀ w, closed_walk g w → ∃ s u v, s ∈ out ∧ (u, v) ∈ steps w ∧ closes s u v) ∧
    (out = [] ↔ ∀ w, ¬ closed_walk g w).
Proof.
  destruct (find_circular_dependencies_total g)
    as (σ & _ & Hout & Hinv & Hempty & Hkeys & Hsound).
  exists (remove_duplicates (circulars σ)). split; [done|]. split; [done|].
  assert (Hfound : ∀ w, closed_walk g w →
            ∃ s u v, s ∈ remove_duplicates (circulars σ) ∧ (u, v) ∈ steps w ∧ closes s u v).
  { intros w Hcw. pose proof Hcw as [(x & m & Hshape) Hwalk].
    assert (Hx : x ∈ w) by (rewrite Hshape; set_solver).
    destruct (closed_walk_next g w x Hcw Hx) as (y & Hstep).
    destruct (Hwalk x y Hstep) as (vs & Hvs & _).
    apply graph_get_Some in Hvs as (Hkey & _ & _).
    assert (Hfin : x ∈ finished σ).
    { unfold finished. rewrite Hempty. specialize (Hkeys x Hkey). set_solver. }
    destruct (inv_cycles g σ Hinv w x Hcw Hx Hfin) as (u & v & c & Huv & Hc & Hcl).
    exists c, u, v. split; [by apply (proj2 (elem_of_remove_duplicates _ _))|]. by split. }
  split; [exact Hfound|]. split.
  - intros Hnil w Hcw. destruct (Hfound w Hcw) as (s & _ & _ & Hs & _).
    rewrite Hnil in Hs. by apply elem_of_nil in Hs.
  - intros Hacyclic.
    destruct (remove_duplicates (circulars σ)) as [|c cs] eqn:Hcs; [done|].
    destruct (Hacyclic c).
    destruct (Hsound c) as (x & m & -> & _ & Hwalk); [set_solver|].
    split; [by exists x, m|done].
Qed.

(** In the graph with the chord the cycle a -> b -> c -> a is answered by
    the returned [a; c; a], which comes back to a through its edge from c. *)
Lemma some_cycle_through_every_cycle_witness :
  closed_walk g_chord ["a"; "b"; "c"; "a"] ∧
  ∃ s u v, s ∈ [["a"; "c"; "a"]] ∧ (u, v) ∈ steps ["a"; "b"; "c"; "a"] ∧ closes s u v.
Proof.
  assert (Hw : closed_walk g_chord ["a"; "b"; "c"; "a"]).
  { split; [by exists "a", ["b"; "c"]|].
    intros u v Huv. simpl in Huv.
    repeat (apply elem_of_cons in Huv as [Huv|Huv]; [injection Huv as -> ->|]).
    - exists ["c"; "b"]. split; [reflexivity|set_solver].
    - exists ["c"]. split; [reflexivity|set_solver].
    - exists ["a"]. split; [reflexivity|set_solver].
    - by apply elem_of_nil in Huv. }
  split; [exact Hw|].
  destruct (some_cycle_through_every_cycle g_chord) as (out & Hout & _ & Hfound & _).
  assert (Hval : find_circular_dependencies g_chord = Ok [["a"; "c"; "a"]])
    by (vm_compute; reflexivity).
  rewrite Hval in Hout. injection Hout as <-. exact (Hfound _ Hw).
Defined.

(** * Further properties of the scripts *)

(** ** Strings *)

Lemma str_app_cons (x : ascii) (a b : string) : String x a +:+ b = String x (a +:+ b).
Proof. reflexivity. Qed.

Lemma str_app_assoc (a b c : string) : (a +:+ b) +:+ c = a +:+ (b +:+ c).
Proof.
  induction a as [|x a IH]; [reflexivity|]. rewrite !str_app_cons. f_equal. exact IH.
Qed.

Lemma str_app_nil_r (a : string) : a +:+ "" = a.
Proof.
  induction a as [|x a IH]; [reflexivity|]. rewrite str_app_cons. f_equal. exact IH.
Qed.

Lemma str_length_app (a b : string) :
  String.length (a +:+ b) = String.length a + String.length b.
Proof.
  induction a as [|x a IH]; [reflexivity|]. rewrite str_app_cons. simpl. f_equal. exact IH.
Qed.

Lemma str_take_app (a b : string) :
  PyStr.str_take (String.length (a +:+ b) - String.length b) (a +:+ b) = a.
Proof.
  rewrite str_length_app. replace (_ + _ - _) with (String.length a) by lia.
  induction a as [|x a IH].
  - by destruct b.
  - rewrite str_app_cons. simpl. by rewrite IH.
Qed.

Lemma strip_prefix_Some (p s rest : string) :
  PyStr.strip_prefix p s = Some rest → s = p +:+ rest.
Proof.
  revert s. induction p as [|a p IH]; intros s; simpl.
  - by intros [= ->].
  - destruct s as [|b s]; [discriminate|].
    destruct (decide (a = b)) as [->|]; [|discriminate].
    intros H. by rewrite (IH s H).
Qed.

Lemma contains_cons (c : ascii) (s p : string) :
  PyStr.contains (String c s) p = PyStr.startswith (String c s) p || PyStr.contains s p.
Proof. reflexivity. Qed.

(** A string made of characters other than [c] does not contain [c]. *)
Lemma all_chars_not_contains (cs : list ascii) (c : ascii) (x : string) :
  c ∈ cs → all_chars (Re.none_of cs) x = true → PyStr.contains x (String c "") = false.
Proof.
  intros Hc. induction x as [|a x IH]; simpl; [done|].
  intros [Ha Hx]%andb_true_iff. rewrite (IH Hx), orb_false_r.
  destruct (decide (c = a)) as [->|]; [|reflexivity].
  unfold Re.none_of, Re.any_of in Ha. by rewrite bool_decide_eq_true_2 in Ha.
Qed.

(** ** The matcher finds only what the pattern describes *)

Lemma star_greedy_sound {R : Type} (p : ascii → bool) (s : string)
    (k : string → option R) (res : R) :
  Re.star_greedy p s k = Some res →
  ∃ x s', s = x +:+ s' ∧ all_chars p x = true ∧ k s' = Some res.
Proof.
  induction s as [|c s IH]; simpl.
  - intros H. by exists "", "".
  - destruct (p c) eqn:Hc.
    + destruct (Re.star_greedy p s k) as [r|] eqn:Hrec; simpl.
      * intros [= ->]. destruct (IH eq_refl) as (x & s' & -> & Hx & Hk).
        exists (String c x), s'. simpl. by rewrite Hc, Hx.
      * intros H. by exists "", (String c s).
    + intros H. by exists "", (String c s).
Qed.

Lemma star_lazy_sound {R : Type} (p : ascii → bool) (s : string)
    (k : string → option R) (res : R) :
  Re.star_lazy p s k = Some res →
  ∃ x s', s = x +:+ s' ∧ all_chars p x = true ∧ k s' = Some res.
Proof.
  induction s as [|c s IH]; simpl.
  - destruct (k "") as [r|] eqn:Hk; simpl; [|discriminate].
    intros [= ->]. by exists "", "".
  - destruct (k (String c s)) as [r|] eqn:Hk; simpl.
    + intros [= ->]. by exists "", (String c s).
    + destruct (p c) eqn:Hc; [|discriminate].
      intros H. destruct (IH H) as (x & s' & -> & Hx & Hk').
      exists (String c x), s'. simpl. by rewrite Hc, Hx.
Qed.

(** Whenever [re_match] succeeds, the text splits into a part that the
    pattern matches and the rest, on which the continuation succeeded with
    the captured groups appended. *)
Lemma re_match_sound {R : Type} (r : Re.regex) (s : string) (caps : list string)
    (k : string → list string → option R) (res : R) :
  Re.re_match r s caps k = Some res →
  ∃ x s' d, s = x +:+ s' ∧ matches r x d ∧ k s' (caps ++ d) = Some res.
Proof.
  revert s caps k res.
  induction r as [l|p|p|p|r1 IH1 r2 IH2|r IH|r IH]; intros s caps k res; simpl.
  - destruct (PyStr.strip_prefix l s) as [s'|] eqn:Hl; [|discriminate].
    intros Hk. apply strip_prefix_Some in Hl as ->.
    exists l, s', []. rewrite app_nil_r. repeat split; [constructor|done].
  - destruct s as [|c s]; [discriminate|]. destruct (p c) eqn:Hc; [|discriminate].
    intros Hk. exists (String c ""), s, []. rewrite app_nil_r.
    repeat split; [by constructor|done].
  - destruct s as [|c s]; [discriminate|]. destruct (p c) eqn:Hc; [|discriminate].
    intros (x & s' & -> & Hx & Hk)%star_greedy_sound.
    exists (String c x), s', []. rewrite app_nil_r. repeat split; [|done].
    constructor; [done|]. simpl. by rewrite Hc, Hx.
  - intros (x & s' & -> & Hx & Hk)%star_lazy_sound.
    exists x, s', []. rewrite app_nil_r. repeat split; [by constructor|done].
  - intros (x1 & s1 & d1 & -> & H1 & Hrest)%IH1.
    apply IH2 in Hrest as (x2 & s2 & d2 & -> & H2 & Hk).
    exists (x1 +:+ x2), s2, (d1 ++ d2). rewrite str_app_assoc, app_assoc.
    repeat split; [by constructor|done].
  - destruct (Re.re_match r s caps k) as [res'|] eqn:Hr; simpl.
    + intros [= ->]. apply IH in Hr as (x & s' & d & -> & Hx & Hk).
      exists x, s', d. repeat split; [by constructor|done].
    + intros Hk. exists "", s, []. rewrite app_nil_r.
      repeat split; [apply matches_opt_none|done].
  - intros (x & s' & d & -> & Hx & Hk)%IH.
    rewrite str_take_app in Hk.
    exists x, s', (d ++ [x]). rewrite app_assoc. repeat split; [by constructor|done].
Qed.

(** One attempt at one position. *)
Lemma match_at_sound (r : Re.regex) (t s' : string) (caps : list string) :
  Re.re_match r t [] (fun s' caps => Some (s', caps)) = Some (s', caps) →
  ∃ x, t = x +:+ s' ∧ matches r x caps ∧
       PyStr.str_take (String.length t - String.length s') t = x.
Proof.
  intros (x & s'' & d & -> & Hx & [= <- <-])%re_match_sound.
  exists x. split; [done|]. split; [done|]. apply str_take_app.
Qed.

(** Every match object of [finditer] is an occurrence of the pattern in
    the text. *)
Lemma finditer_from_sound (r : Re.regex) (s : string) (skip : nat) (m : Re.match_object) :
  m ∈ Re.finditer_from skip r s →
  ∃ before after, s = before +:+ Re.group0 m +:+ after ∧
                  matches r (Re.group0 m) (Re.groups m).
Proof.
  revert skip m. induction s as [|c s IH]; intros skip m.
  - destruct skip as [|n]; cbn [Re.finditer_from]; [|by intros ?%elem_of_nil].
    destruct (Re.re_match r "" [] _) as [[s' caps]|] eqn:Hm; [|by intros ?%elem_of_nil].
    apply match_at_sound in Hm as (x & Hs & Hx & Htake).
    intros ->%list_elem_of_singleton. cbn [Re.group0 Re.groups]. rewrite Htake.
    exists "", s'. by split.
  - assert (Hrest : ∀ n, m ∈ Re.finditer_from n r s →
              ∃ before after, String c s = before +:+ Re.group0 m +:+ after ∧
                              matches r (Re.group0 m) (Re.groups m)).
    { intros n (before & after & -> & Hm)%IH. by exists (String c before), after. }
    destruct skip as [|n]; cbn [Re.finditer_from]; [|apply Hrest].
    destruct (Re.re_match r (String c s) [] _) as [[s' caps]|] eqn:Hm; [|apply Hrest].
    apply match_at_sound in Hm as (x & Hs & Hx & Htake).
    intros [->|Hin]%elem_of_cons; [|by eapply Hrest].
    cbn [Re.group0 Re.groups]. rewrite Htake. exists "", s'. by split.
Qed.

(** ** The file cache is the enumeration, filed by name *)

Lemma build_file_cache_lookup (md_files : list Path) (cache : gmap string (list Path))
    (filename : string) :
  find_file_in_cache (build_file_cache md_files cache) filename
  = find_file_in_cache cache filename
    ++ List.filter (fun f => cached f && bool_decide (name f = filename)) md_files.
Proof.
  revert cache. induction md_files as [|f md_files IH]; intros cache.
  - simpl. by rewrite app_nil_r.
  - change (build_file_cache (f :: md_files) cache)
      with (build_file_cache md_files (build_file_cache [f] cache)).
    rewrite IH. simpl List.filter. unfold build_file_cache at 1, cached at 2. simpl fold_left.
    destruct (bool_decide ("node_modules" ∈ parts f) || in_hidden_directory f); simpl.
    { reflexivity. }
    unfold find_file_in_cache.
    destruct (decide (name f = filename)) as [<-|Hne].
    + rewrite bool_decide_eq_true_2 by done. rewrite lookup_insert_eq. simpl.
      destruct (cache !! name f) as [old|] eqn:Hold; simpl.
      * rewrite Hold. simpl. by rewrite <- app_assoc.
      * rewrite lookup_insert_eq. simpl. reflexivity.
    + rewrite bool_decide_eq_false_2 by done. rewrite lookup_insert_ne by done.
      destruct (cache !! name f); [reflexivity|]. by rewrite lookup_insert_ne.
Qed.

(** X1: looking a filename up in the cache that [build_file_cache] builds
    from nothing gives exactly the enumerated files of that name that lie
    outside [node_modules] and outside hidden directories, in the order of
    the enumeration. *)
Theorem file_cache_is_enumeration_by_name (md_files : list Path) (filename : string) :
  find_file_in_cache (build_file_cache md_files ∅) filename
  = List.filter (fun f => cached f && bool_decide (name f = filename)) md_files.
Proof.
  rewrite build_file_cache_lookup. unfold find_file_in_cache at 1.
  by rewrite lookup_empty.
Qed.

(** ** What the extractors return *)

Lemma elem_of_flat_map {A B : Type} (f : A → list B) (l : list A) (y : B) :
  y ∈ flat_map f l ↔ ∃ x, x ∈ l ∧ y ∈ f x.
Proof.
  rewrite list_elem_of_In, in_flat_map. split.
  - intros (x & Hx & Hy). exists x. by rewrite !list_elem_of_In.
  - intros (x & Hx & Hy). exists x. by rewrite <- !list_elem_of_In.
Qed.

(** X2: every link that [extract_markdown_links] returns is an occurrence
    in the content of the text [[link_text](link_url)]; its text is not
    empty and has no closing bracket, its target is not empty and has no
    closing parenthesis, does not begin with an http or https scheme,
    contains [.md], and is more than a fragment. *)
Theorem extracted_link_shape (content full_match link_text link_url : string) :
  (full_match, link_text, link_url) ∈ extract_markdown_links content →
  full_match = "[" +:+ link_text +:+ "](" +:+ link_url +:+ ")" ∧
  (∃ before after, content = before +:+ full_match +:+ after) ∧
  link_text ≠ "" ∧ PyStr.contains link_text "]" = false ∧
  link_url ≠ "" ∧ PyStr.contains link_url ")" = false ∧
  PyStr.startswith link_url "http://" = false ∧
  PyStr.startswith link_url "https://" = false ∧
  PyStr.contains link_url ".md" = true ∧
  PyStr.split_head "#" link_url ≠ "".
Proof.
  unfold extract_markdown_links. intros (m & Hm & Hin)%elem_of_flat_map.
  apply finditer_from_sound in Hm as (before & after & Hcontent & Hmatch).
  destruct (Re.groups m) as [|a [|b [|? ?]]] eqn:Hgroups;
    try (by apply elem_of_nil in Hin).
  destruct (negb (PyStr.startswith b "http://" || PyStr.startswith b "https://")
            && PyStr.contains b ".md") eqn:Hfilter;
    [|by apply elem_of_nil in Hin].
  destruct (decide (PyStr.split_head "#" b = "")) as [|Hclean];
    [by apply elem_of_nil in Hin|].
  apply list_elem_of_singleton in Hin. injection Hin as -> -> ->.
  apply andb_true_iff in Hfilter as [Hscheme Hmd].
  apply negb_true_iff, orb_false_iff in Hscheme as [Hhttp Hhttps].
  unfold link_pattern in Hmatch. inv_matches.
  repeat match goal with
         | H : _ ++ _ = _ |- _ => simpl in H
         end.
  match goal with H : [_; _] = [_; _] |- _ => injection H as -> -> end.
  match goal with H : _ = Re.group0 m |- _ => rename H into Hgroup0 end.
  split; [reflexivity|].
  split; [exists before, after; by rewrite Hgroup0|].
  split; [done|]. split; [by eapply all_chars_not_contains; [|eassumption]; set_solver|].
  split; [done|]. split; [by eapply all_chars_not_contains; [|eassumption]; set_solver|].
  done.
Qed.

(** A scenario of the theorem: the one link of [s.md]. *)
Lemma extracted_link_shape_witness :
  ("[t](x.md)", "t", "x.md") ∈ extract_markdown_links "see [t](x.md) and [u](http://a.md)" ∧
  PyStr.contains "x.md" ".md" = true.
Proof.
  assert (Hin : ("[t](x.md)", "t", "x.md")
                ∈ extract_markdown_links "see [t](x.md) and [u](http://a.md)")
    by (vm_compute; apply list_elem_of_singleton; reflexivity).
  split; [exact Hin|].
  exact (proj1 (proj2 (proj2 (proj2 (proj2 (proj2 (proj2 (proj2 (proj2
           (extracted_link_shape _ _ _ _ Hin)))))))))).
Defined.

Lemma any_of_quotes (c : ascii) :
  Re.any_of [Imports.squote; Imports.dquote] c = true → is_quote c.
Proof.
  unfold Re.any_of. intros H%bool_decide_eq_true. unfold is_quote. set_solver.
Qed.

(** What one match of one of the three import patterns captures. *)
Lemma import_pattern_capture (pattern : Re.regex) (g : string) (caps : list string) :
  pattern ∈ Imports.import_patterns →
  matches pattern g caps →
  ∃ imp q1 q2 before after,
    caps = [imp] ∧ g = before +:+ String q1 imp +:+ String q2 after ∧
    is_quote q1 ∧ is_quote q2 ∧ imp ≠ "" ∧
    all_chars (Re.none_of [Imports.squote; Imports.dquote]) imp = true.
Proof.
  unfold Imports.import_patterns.
  intros Hp Hm.
  repeat (apply elem_of_cons in Hp as [->|Hp]); [| | |by apply elem_of_nil in Hp].
  - unfold Imports.import_pattern in Hm. inv_matches;
      match goal with
      | |- context ["import" +:+ ?ws +:+ ?o +:+ String ?a "" +:+ ?x +:+ String ?b ""] =>
          exists x, a, b, ("import" +:+ ws +:+ o), ""
      end;
      (split; [reflexivity|]); (split; [by rewrite !str_app_assoc|]);
      (split; [by apply any_of_quotes|]); (split; [by apply any_of_quotes|]); by split.
  - unfold Imports.require_pattern in Hm. inv_matches.
    match goal with
    | |- context ["require(" +:+ String ?a "" +:+ ?x +:+ String ?b "" +:+ ")"] =>
        exists x, a, b, "require(", ")"
    end.
    split; [reflexivity|]. split; [reflexivity|].
    split; [by apply any_of_quotes|]. split; [by apply any_of_quotes|]. by split.
  - unfold Imports.from_pattern in Hm. inv_matches.
    match goal with
    | |- context ["from" +:+ ?ws +:+ String ?a "" +:+ ?x +:+ String ?b ""] =>
        exists x, a, b, ("from" +:+ ws), ""
    end.
    split; [reflexivity|]. split; [by rewrite !str_app_assoc|].
    split; [by apply any_of_quotes|]. split; [by apply any_of_quotes|]. by split.
Qed.

Lemma occurs_inside (x g before after : string) :
  occurs x g → occurs x (before +:+ g +:+ after).
Proof.
  intros (b & a & ->). exists (before +:+ b), (a +:+ after).
  by rewrite !str_app_assoc.
Qed.

(** X3: every reference that [analyze_imports] returns was read from the
    file, stands there between two quote characters, is not empty, and
    contains no quote character. *)
Theorem extracted_import_shape (read : exn + string) (imports : list string) (imp : string) :
  Imports.analyze_imports read = Ok imports →
  imp ∈ imports →
  ∃ text q1 q2,
    read = inr text ∧
    is_quote q1 ∧ is_quote q2 ∧
    occurs (String q1 imp +:+ String q2 "") text ∧
    imp ≠ "" ∧
    PyStr.contains imp (String Imports.squote "") = false ∧
    PyStr.contains imp (String Imports.dquote "") = false.
Proof.
  destruct read as [e|text]; simpl.
  { intros [= <-] Himp. by apply elem_of_nil in Himp. }
  intros [= <-] Himp. unfold Imports.extract_imports in Himp.
  assert (Hpat : ∃ pattern, pattern ∈ Imports.import_patterns ∧
                            imp ∈ Re.findall1 pattern text).
  { unfold Imports.import_patterns in *. simpl in Himp.
    apply elem_of_app in Himp as [Himp|Himp]; [apply elem_of_app in Himp as [Himp|Himp]|].
    - eexists. split; [|exact Himp]. set_solver.
    - eexists. split; [|exact Himp]. set_solver.
    - eexists. split; [|exact Himp]. set_solver. }
  destruct Hpat as (pattern & Hpattern & Hfound).
  unfold Re.findall1 in Hfound. apply elem_of_flat_map in Hfound as (m & Hm & Hcap).
  apply finditer_from_sound in Hm as (before & after & Htext & Hmatch).
  destruct (import_pattern_capture pattern _ _ Hpattern Hmatch)
    as (imp' & q1 & q2 & b & a & Hcaps & Hg & Hq1 & Hq2 & Hne & Hchars).
  rewrite Hcaps in Hcap. apply list_elem_of_singleton in Hcap as ->.
  exists text, q1, q2. split; [reflexivity|]. split; [done|]. split; [done|]. split.
  - rewrite Htext. apply occurs_inside. rewrite Hg. exists b, a.
    by rewrite !str_app_assoc.
  - split; [done|]. split; eapply all_chars_not_contains; try eassumption; set_solver.
Qed.

(** The first reference of the two statements of the scenario. *)
Lemma extracted_import_shape_witness :
  ∃ q1 q2, is_quote q1 ∧ is_quote q2 ∧
           occurs (String q1 "./a" +:+ String q2 "") two_imports.
Proof.
  destruct (extracted_import_shape (inr two_imports) ["./a"; "./b"; "./a"] "./a")
    as (text & q1 & q2 & [= <-] & Hq1 & Hq2 & Hocc & _);
    [vm_compute; reflexivity | set_solver |].
  by exists q1, q2.
Defined.

(** ** A relative path leads back to its target *)

Lemma contains_char_cons (a c : ascii) (w : string) :
  PyStr.contains (String c w) (String a "") = false ↔
  a ≠ c ∧ PyStr.contains w (String a "") = false.
Proof.
  rewrite contains_cons, orb_false_iff. simpl.
  destruct (decide (a = c)) as [->|Hne].
  - split; [intros [H _]|intros [H _]]; [|done]. by destruct w.
  - tauto.
Qed.

Lemma split_no_sep (sep : ascii) (w : string) :
  PyStr.contains w (String sep "") = false → PyStr.split sep w = [w].
Proof.
  induction w as [|c w IH]; [reflexivity|].
  intros [Hne Hw]%contains_char_cons. simpl.
  rewrite decide_False by done. by rewrite (IH Hw).
Qed.

Lemma split_app_sep (sep : ascii) (w rest : string) :
  PyStr.contains w (String sep "") = false →
  PyStr.split sep (w +:+ String sep rest) = w :: PyStr.split sep rest.
Proof.
  induction w as [|c w IH].
  - intros _. simpl. by rewrite decide_True.
  - intros [Hne Hw]%contains_char_cons. rewrite str_app_cons. simpl.
    rewrite decide_False by done. by rewrite (IH Hw).
Qed.

(** [sep.join(l).split(sep)] is [l] when no element contains [sep]. *)
Lemma split_join (sep : ascii) (l : list string) :
  l ≠ [] →
  Forall (fun w => PyStr.contains w (String sep "") = false) l →
  PyStr.split sep (PyStr.join (String sep "") l) = l.
Proof.
  induction l as [|w l IH]; [done|]. intros _ Hall.
  apply Forall_cons in Hall as [Hw Hl].
  destruct l as [|w' l].
  - simpl. by apply split_no_sep.
  - change (PyStr.join (String sep "") (w :: w' :: l))
      with (w +:+ String sep "" +:+ PyStr.join (String sep "") (w' :: l)).
    change (String sep "" +:+ PyStr.join (String sep "") (w' :: l))
      with (String sep (PyStr.join (String sep "") (w' :: l))).
    rewrite split_app_sep by done. by rewrite IH.
Qed.

Lemma join_starts_with_head (sep w : string) (l : list string) (c : ascii) (w' : string) :
  w = String c w' → ∃ rest, PyStr.join sep (w :: l) = String c rest.
Proof.
  intros ->. destruct l as [|w2 l]; simpl; eauto.
Qed.

Lemma collapse_eq (ns : list string) : collapse ns = collapse_from [] ns.
Proof. reflexivity. Qed.

Lemma collapse_from_clean (acc ns : list string) :
  Forall (fun n => n ≠ "..") ns → collapse_from acc ns = acc ++ ns.
Proof.
  unfold collapse_from. revert acc.
  induction ns as [|n ns IH]; intros acc Hall; simpl; [by rewrite app_nil_r|].
  apply Forall_cons in Hall as [Hn Hns]. rewrite decide_False by done.
  rewrite IH by done. by rewrite <- app_assoc.
Qed.

Lemma collapse_from_app (acc l1 l2 : list string) :
  collapse_from acc (l1 ++ l2) = collapse_from (collapse_from acc l1) l2.
Proof. unfold collapse_from. apply fold_left_app. Qed.

Lemma collapse_from_dotdots (acc extra : list string) :
  collapse_from (acc ++ extra) (replicate (length extra) "..") = acc.
Proof.
  induction extra as [|x extra IH] using rev_ind; simpl.
  - by rewrite app_nil_r.
  - rewrite length_app, Nat.add_comm. simpl. unfold collapse_from in *. simpl.
    rewrite app_assoc, removelast_last. apply IH.
Qed.

Lemma commonprefix_split (l1 l2 : list string) :
  ∃ r1 r2, l1 = commonprefix l1 l2 ++ r1 ∧ l2 = commonprefix l1 l2 ++ r2.
Proof.
  revert l2. induction l1 as [|x l1 IH]; intros l2; simpl.
  - by exists [], l2.
  - destruct l2 as [|y l2]; [by exists (x :: l1), []|].
    destruct (decide (x = y)) as [->|Hne]; [|by exists (x :: l1), (y :: l2)].
    destruct (IH l2) as (r1 & r2 & H1 & H2). exists r1, r2. simpl.
    by rewrite <- H1, <- H2.
Qed.

Lemma elem_of_removelast (l : list string) (n : string) :
  n ∈ removelast l → n ∈ l.
Proof.
  induction l as [|x [|y l] IH]; simpl; [done| |].
  - by intros ?%elem_of_nil.
  - intros [->|Hn]%elem_of_cons; [by left|right; by apply IH].
Qed.

Lemma clean_name_not_dotdot (ns : list string) :
  Forall clean_name ns → Forall (fun n => n ≠ "..") ns.
Proof. intros H. eapply Forall_impl; [exact H|]. by intros n (_ & _ & Hn & _). Qed.

(** The names that [relpath] joins parse back into themselves. *)
Lemma parse_join (ups : nat) (ns : list string) :
  Forall clean_name ns →
  replicate ups ".." ++ ns ≠ [] →
  parse (PyStr.join "/" (replicate ups ".." ++ ns)) = MkPath "" (replicate ups ".." ++ ns).
Proof.
  intros Hns Hne. set (l := replicate ups ".." ++ ns) in *.
  assert (Hall : Forall (fun w => w ≠ "" ∧ w ≠ "." ∧ PyStr.contains w "/" = false) l).
  { apply Forall_app. split.
    - by apply Forall_replicate.
    - eapply Forall_impl; [exact Hns|]. by intros n (H1 & H2 & _ & H4). }
  unfold parse.
  assert (Hlead : leading_slashes (PyStr.join "/" l) = 0).
  { destruct l as [|w l']; [done|]. apply Forall_cons in Hall as [(Hw1 & _ & Hw3) _].
    destruct w as [|c w']; [done|].
    destruct (join_starts_with_head "/" (String c w') l' c w' eq_refl) as (rest & ->).
    simpl. apply contains_char_cons in Hw3 as [Hc _]. by rewrite decide_False. }
  rewrite Hlead. simpl PyStr.str_drop.
  rewrite split_join; [| done | eapply Forall_impl; [exact Hall|]; by intros w (_ & _ & H)].
  f_equal. clear -Hall. induction l as [|w l IH]; [reflexivity|].
  apply Forall_cons in Hall as [(H1 & H2 & _) Hl].
  rewrite filter_cons_True by done. by rewrite IH.
Qed.

Lemma relpath_round_trip (fs : file_system) (source target : Path) :
  clean_path source → clean_path target →
  resolve (cwd fs) (joinpath (parent source)
                      (parse (calculate_relative_path fs source target))) = target.
Proof.
  intros [Hsroot Hsnames] [Htroot Htnames].
  destruct source as [sroot snames], target as [troot tnames]. simpl in *. subst sroot troot.
  unfold calculate_relative_path, relpath, parent, absolute. simpl.
  set (dir := removelast snames).
  assert (Hdir : Forall clean_name dir).
  { apply Forall_forall. intros n Hn. rewrite Forall_forall in Hsnames.
    apply Hsnames. by apply elem_of_removelast. }
  rewrite (collapse_eq dir), (collapse_eq tnames).
  rewrite !collapse_from_clean by (by apply clean_name_not_dotdot). cbn [app].
  destruct (commonprefix_split dir tnames) as (r1 & r2 & H1 & H2).
  set (cp := commonprefix dir tnames) in *.
  assert (Hr2 : Forall clean_name r2).
  { rewrite H2 in Htnames. by apply Forall_app in Htnames as [_ ?]. }
  assert (Hups : length dir - length cp = length r1).
  { rewrite H1 at 1. rewrite length_app. lia. }
  assert (Hdrop : drop (length cp) tnames = r2).
  { rewrite H2 at 1. by rewrite drop_app_length. }
  rewrite Hups, Hdrop.
  assert (Hend : collapse_from [] (dir ++ replicate (length r1) ".." ++ r2) = tnames).
  { rewrite (collapse_from_app [] dir), (collapse_from_app _ (replicate _ _) r2).
    rewrite (collapse_from_clean [] dir) by (by apply clean_name_not_dotdot). cbn [app].
    rewrite H1 at 1. rewrite collapse_from_dotdots.
    rewrite collapse_from_clean by (by apply clean_name_not_dotdot). by rewrite <- H2. }
  destruct (replicate (length r1) ".." ++ r2) as [|w rel] eqn:Hrel.
  - change (parse ".") with (MkPath "" []). unfold joinpath, resolve, absolute. simpl.
    rewrite app_nil_r in Hend |- *. by rewrite collapse_eq, Hend.
  - rewrite <- Hrel in Hend |- *. rewrite parse_join by (done || by rewrite Hrel).
    unfold joinpath, resolve, absolute. simpl. by rewrite collapse_eq, Hend.
Qed.

(** X4: for a source file and a target that are absolute paths in normal
    form, the relative path that [calculate_relative_path] computes, joined
    to the directory of the source and resolved, is the target. *)
Theorem relative_path_leads_to_target (fs : file_system) (source target : Path) :
  clean_path source → clean_path target →
  resolve (cwd fs) (joinpath (parent source)
                      (parse (calculate_relative_path fs source target))) = target.
Proof. apply relpath_round_trip. Qed.

(** From [docs/a/s.md] the path to [docs/how-to/guide.md] and back. *)
Lemma relative_path_leads_to_target_witness :
  calculate_relative_path paren_fs (docs_file ["a"; "s.md"]) guide_how_to = "../how-to/guide.md" ∧
  resolve (cwd paren_fs) (joinpath (parent (docs_file ["a"; "s.md"])) (parse "../how-to/guide.md"))
  = guide_how_to.
Proof.
  split; [vm_compute; reflexivity|].
  apply (relative_path_leads_to_target paren_fs (docs_file ["a"; "s.md"]) guide_how_to).
  - split; [reflexivity|]. repeat constructor; done.
  - split; [reflexivity|]. repeat constructor; done.
Defined.

(** ** The replacement for an existing candidate passes the check *)

Lemma contains_char_app (c : ascii) (a b : string) :
  PyStr.contains (a +:+ b) (String c "")
  = PyStr.contains a (String c "") || PyStr.contains b (String c "").
Proof.
  induction a as [|x a IH].
  - change ("" +:+ b) with b. by destruct b.
  - rewrite str_app_cons, !contains_cons, IH. simpl.
    assert (Hnil : ∀ s, PyStr.startswith s "" = true) by (by intros []).
    rewrite !Hnil. by destruct (decide (c = x)).
Qed.

Lemma contains_char_join (c : ascii) (sep : string) (l : list string) :
  PyStr.contains sep (String c "") = false →
  Forall (fun w => PyStr.contains w (String c "") = false) l →
  PyStr.contains (PyStr.join sep l) (String c "") = false.
Proof.
  intros Hsep. induction l as [|w l IH]; intros Hall; [reflexivity|].
  apply Forall_cons in Hall as [Hw Hl]. destruct l as [|w' l]; [exact Hw|].
  change (PyStr.join sep (w :: w' :: l)) with (w +:+ sep +:+ PyStr.join sep (w' :: l)).
  by rewrite !contains_char_app, Hw, Hsep, IH.
Qed.

Lemma split_head_anchor (r link_url : string) :
  PyStr.contains r "#" = false →
  PyStr.split_head "#" (r +:+ link_anchor link_url) = r.
Proof.
  intros Hr. unfold PyStr.split_head, link_anchor.
  destruct (PyStr.contains link_url "#").
  - change ("#" +:+ PyStr.split_tail "#" link_url)
      with (String "#" (PyStr.split_tail "#" link_url)).
    by rewrite split_app_sep.
  - by rewrite str_app_nil_r, split_no_sep.
Qed.

Lemma relative_path_no_hash (fs : file_system) (source target : Path) :
  clean_path target → Forall no_hash (names target) →
  PyStr.contains (calculate_relative_path fs source target) "#" = false.
Proof.
  intros [Hroot Hnames] Hhash.
  unfold calculate_relative_path, relpath.
  set (start_list := collapse _).
  assert (Hpath : collapse (names (absolute (cwd fs) target)) = names target).
  { unfold absolute. rewrite Hroot. simpl.
    rewrite collapse_eq, collapse_from_clean by (by apply clean_name_not_dotdot). done. }
  rewrite Hpath.
  set (i := length (commonprefix start_list (names target))).
  destruct (replicate (length start_list - i) ".." ++ drop i (names target))
    as [|w rel] eqn:Hrel; [reflexivity|].
  rewrite <- Hrel. apply contains_char_join; [reflexivity|].
  apply Forall_app. split; [by apply Forall_replicate|by apply Forall_drop].
Qed.

Lemma resolve_link_replacement (fs : file_system) (source target : Path)
    (link_url : string) :
  clean_path source → clean_path target → Forall no_hash (names target) →
  resolve_link fs source (calculate_relative_path fs source target +:+ link_anchor link_url)
  = (exists_ fs target, target).
Proof.
  intros Hsource Htarget Hhash. unfold resolve_link.
  rewrite split_head_anchor by (by apply relative_path_no_hash).
  by rewrite relpath_round_trip.
Qed.

(** X5: when the source file and a candidate are absolute paths in normal
    form and no name of the candidate contains [#], the replacement
    computed for the candidate, with the fragment of the broken link put
    back, resolves to the candidate: the check of the fix succeeds exactly
    when the candidate exists. *)
Theorem replacement_resolves_to_candidate (fs : file_system) (source target : Path)
    (link_url : string) :
  clean_path source → clean_path target → Forall no_hash (names target) →
  resolve_link fs source (calculate_relative_path fs source target +:+ link_anchor link_url)
  = (exists_ fs target, target).
Proof. apply resolve_link_replacement. Qed.

(** The link [../old/guide.md#top] of [docs/a/s.md] and the candidate under
    [how-to], which is not in the tree. *)
Lemma replacement_resolves_to_candidate_witness :
  resolve_link paren_fs (docs_file ["a"; "s.md"]) "../how-to/guide.md#top"
  = (false, guide_how_to).
Proof.
  apply (replacement_resolves_to_candidate paren_fs (docs_file ["a"; "s.md"]) guide_how_to
           "../old/guide.md#top").
  - split; [reflexivity|]. repeat constructor; done.
  - split; [reflexivity|]. repeat constructor; done.
  - repeat constructor.
Defined.

(** ** The replacement always names a cached file *)

Lemma find_correct_path_candidate (fs : file_system) (cache : gmap string (list Path))
    (source_file : Path) (broken_link : string) :
  match find_correct_path fs cache source_file broken_link with
  | None => find_file_in_cache cache (name (parse broken_link)) = []
  | Some r =>
      ∃ c, c ∈ find_file_in_cache cache (name (parse broken_link)) ∧
           r = calculate_relative_path fs source_file c
  end.
Proof.
  unfold find_correct_path.
  destruct (find_file_in_cache cache (name (parse broken_link)))
    as [|first [|second rest]] eqn:Hcands; [reflexivity| |].
  { exists first. split; [set_solver|reflexivity]. }
  set (cs := first :: second :: rest).
  pose proof (best_candidate_best_of (parts (parse broken_link)) cs) as [_ Hbest].
  pose proof (find_first (fun candidate => bool_decide ("archive" ∉ parts candidate)) cs)
    as Hfind.
  destruct (best_candidate (parts (parse broken_link)) cs) as [bm bs]. simpl in Hbest.
  assert (Hfallback :
            match
              match List.find (fun candidate => bool_decide ("archive" ∉ parts candidate)) cs with
              | Some candidate => Some (calculate_relative_path fs source_file candidate)
              | None => Some (calculate_relative_path fs source_file first)
              end
            with
            | None => cs = []
            | Some r => ∃ c, c ∈ cs ∧ r = calculate_relative_path fs source_file c
            end).
  { destruct (List.find _ cs) as [c|].
    - destruct Hfind as (i & Hi & _). exists c. split; [|reflexivity].
      by eapply list_elem_of_lookup_2.
    - exists first. split; [|reflexivity]. subst cs. set_solver. }
  destruct bm as [b|]; [|exact Hfallback].
  destruct (decide (3 ≤ bs)); [|exact Hfallback].
  destruct Hbest as (_ & _ & i & Hi & _). exists b. split; [|reflexivity].
  by eapply list_elem_of_lookup_2.
Qed.

(** X6: with the cache built from the enumeration [md_files],
    [find_correct_path] returns no replacement exactly when no kept file
    has the bare filename of the broken link; a replacement it returns is
    the relative path to a kept file of that name. *)
Theorem replacement_names_cached_file (fs : file_system) (md_files : list Path)
    (source_file : Path) (broken_link : string) :
  (find_correct_path fs (build_file_cache md_files ∅) source_file broken_link = None ↔
   ∀ c, c ∈ md_files → cached c = true → name c ≠ name (parse broken_link)) ∧
  (∀ r, find_correct_path fs (build_file_cache md_files ∅) source_file broken_link = Some r →
        ∃ c, c ∈ md_files ∧ cached c = true ∧ name c = name (parse broken_link) ∧
             r = calculate_relative_path fs source_file c).
Proof.
  pose proof (find_correct_path_candidate fs (build_file_cache md_files ∅)
                source_file broken_link) as Hcand.
  rewrite build_file_cache_lookup in Hcand.
  unfold find_file_in_cache in Hcand at 1. rewrite lookup_empty in Hcand. simpl in Hcand.
  assert (Hfilter : ∀ c,
            c ∈ List.filter (fun f => cached f && bool_decide (name f = name (parse broken_link)))
                  md_files ↔
            c ∈ md_files ∧ cached c = true ∧ name c = name (parse broken_link)).
  { intros c. rewrite list_elem_of_In, filter_In, <- list_elem_of_In.
    rewrite andb_true_iff, bool_decide_eq_true. tauto. }
  split; [split|].
  - intros Hnone c Hc Hcached Hname. rewrite Hnone in Hcand.
    assert (Hin : c ∈ @nil Path) by (rewrite <- Hcand; by apply Hfilter).
    by apply elem_of_nil in Hin.
  - intros Hnone.
    destruct (find_correct_path _ _ _ _) as [r|]; [|reflexivity].
    destruct Hcand as (c & (Hc & Hcached & Hname)%Hfilter & _). by destruct (Hnone c).
  - intros r Hr. rewrite Hr in Hcand. destruct Hcand as (c & Hc%Hfilter & ->).
    exists c. tauto.
Qed.

(** The link [../old/guide.md] finds the [guide.md] under [how-to]; a
    link to [nowhere.md] finds nothing. *)
Lemma replacement_names_cached_file_witness :
  find_correct_path paren_fs (build_file_cache [guide_archived; guide_how_to] ∅)
    (docs_file ["s.md"]) "nowhere.md" = None ∧
  ∃ c, c ∈ [guide_archived; guide_how_to] ∧ name c = "guide.md" ∧
       "how-to/guide.md" = calculate_relative_path paren_fs (docs_file ["s.md"]) c.
Proof.
  destruct (replacement_names_cached_file paren_fs [guide_archived; guide_how_to]
              (docs_file ["s.md"]) "nowhere.md") as [[_ Hnone] _].
  destruct (replacement_names_cached_file paren_fs [guide_archived; guide_how_to]
              (docs_file ["s.md"]) "../old/guide.md") as [_ Hsome].
  split.
  - apply Hnone. intros c Hc _.
    repeat (apply elem_of_cons in Hc as [->|Hc]); [discriminate..|by apply elem_of_nil in Hc].
  - destruct (Hsome "how-to/guide.md") as (c & Hc & _ & Hname & Hr);
      [vm_compute; reflexivity|].
    exists c. split; [done|]. split; [exact Hname|exact Hr].
Defined.

(** ** What one step and one file do to the counters and to the disk *)

(** The possible outcomes of the step for one link. *)
Lemma fix_link_outcome (file_path : Path) (full_match link_text link_url : string)
    (st st' : loop_state) :
  fix_link file_path (full_match, link_text, link_url) st = Ok st' →
  let s := file_stats st in
  let s' := file_stats st' in
  fs (w st') = fs (w st) ∧ file_cache (w st') = file_cache (w st) ∧
  stats (w st') = stats (w st) ∧ links_found s' = links_found s ∧
  ((* the link resolves *)
   (fst (resolve_link (fs (w st)) file_path link_url) = true ∧ st' = st) ∨
   (* the link is broken and is fixed *)
   (fst (resolve_link (fs (w st)) file_path link_url) = false ∧
    (∃ corrected,
       find_correct_path (fs (w st)) (file_cache (w st)) file_path link_url = Some corrected ∧
       fst (resolve_link (fs (w st)) file_path (corrected +:+ link_anchor link_url)) = true ∧
       content st' = PyStr.replace_first (content st) full_match
                       (rebuilt_link link_text (corrected +:+ link_anchor link_url)) ∧
       fixes s' = fixes s ++ [FixRecord link_url (corrected +:+ link_anchor link_url) link_text]) ∧
    broken_links s' = S (broken_links s) ∧ fixed_links s' = S (fixed_links s) ∧
    unfixable_count s' = unfixable_count s ∧
    unfixable_links (w st') = unfixable_links (w st)) ∨
   (* the link is broken and is recorded as unfixable *)
   (fst (resolve_link (fs (w st)) file_path link_url) = false ∧
    content st' = content st ∧ fixes s' = fixes s ∧
    broken_links s' = S (broken_links s) ∧ fixed_links s' = fixed_links s ∧
    unfixable_count s' = S (unfixable_count s) ∧
    ∃ r, unfixable_links (w st') = unfixable_links (w st) ++ [r] ∧
         unfixable_link r = link_url ∧
         match attempted_fix r with
         | Some new_link =>
             ∃ corrected,
               find_correct_path (fs (w st)) (file_cache (w st)) file_path link_url
                 = Some corrected ∧
               new_link = corrected +:+ link_anchor link_url ∧
               fst (resolve_link (fs (w st)) file_path new_link) = false
         | None => reason r = Some "No candidates found in file cache"
         end)).
Proof.
  unfold fix_link.
  destruct (resolve_link (fs (w st)) file_path link_url) as [link_exists tgt] eqn:Hres.
  destruct link_exists.
  { intros [= <-]. cbn [fst]. repeat split; try done. by left. }
  cbn [w content file_stats fst].
  destruct (find_correct_path _ _ _ _) as [corrected|] eqn:Hfind.
  - destruct (bool_decide (corrected ≠ "") && bool_decide (corrected ≠ link_url)).
    + cbv zeta. fold (link_anchor link_url).
      fold (rebuilt_link link_text (corrected +:+ link_anchor link_url)).
      destruct (resolve_link (fs (w st)) file_path (corrected +:+ link_anchor link_url))
        as [fix_exists tgt'] eqn:Hfix.
      destruct fix_exists.
      * intros [= <-]. proj_cbn. repeat split; try done. right. left.
        split; [done|]. split; [|done]. exists corrected. rewrite Hfix. by proj_cbn.
      * unfold record_unfixable. intros (rel & _ & [= <-])%bind_Ok. proj_cbn.
        repeat split; try done. right. right. repeat split; try done.
        eexists. split; [reflexivity|]. split; [reflexivity|]. proj_cbn.
        exists corrected. rewrite Hfix. by proj_cbn.
    + unfold record_unfixable. intros (rel & _ & [= <-])%bind_Ok. proj_cbn.
      repeat split; try done. right. right. repeat split; try done.
      eexists. split; [reflexivity|]. split; reflexivity.
  - unfold record_unfixable. intros (rel & _ & [= <-])%bind_Ok. proj_cbn.
    repeat split; try done. right. right. repeat split; try done.
    eexists. split; [reflexivity|]. split; reflexivity.
Qed.

(** The relative path to a file in normal form is not the empty string. *)
Lemma relative_path_nonempty (fs : file_system) (source target : Path) :
  clean_path target → calculate_relative_path fs source target ≠ "".
Proof.
  intros [Hroot Hclean]. unfold calculate_relative_path, relpath.
  destruct (replicate _ ".." ++ drop _ _) as [|x l] eqn:Hlist; [discriminate|].
  assert (Hx : x ≠ "").
  { assert (Hin : x ∈ x :: l) by set_solver. rewrite <- Hlist in Hin.
    apply elem_of_app in Hin as [Hin|Hin].
    - apply elem_of_replicate in Hin as [-> _]. discriminate.
    - assert (Hi : x ∈ collapse (names (absolute (cwd fs) target))).
      { match type of Hin with
        | _ ∈ drop ?n ?l => rewrite <- (take_drop n l); apply elem_of_app; by right
        end. }
      unfold absolute in Hi. rewrite decide_False in Hi by (rewrite Hroot; discriminate).
      rewrite collapse_eq, collapse_from_clean in Hi by (by apply clean_name_not_dotdot).
      simpl in Hi. rewrite Forall_forall in Hclean. by destruct (Hclean x Hi). }
  destruct x as [|c x']; [done|].
  destruct (join_starts_with_head "/" (String c x') l c x' eq_refl) as (rest & ->).
  discriminate.
Qed.

(** X7: in a tree where the source file and every candidate for the
    filename of the link are absolute paths in normal form, the candidates
    exist and have no [#] in their names, the check of a fix cannot fail,
    and the step does one of three things. A link whose target exists is
    left alone. A broken link for which [find_correct_path] returns a
    replacement other than the link itself is fixed: the replacement is
    substituted into the content, the fix is counted and recorded, and
    nothing is recorded as unfixable. Any other broken link is left as it
    is in the content and recorded as unfixable, with no attempted fix and
    with the reason that no candidate was found. *)
Theorem no_failed_attempt_on_clean_tree (file_path : Path)
    (full_match link_text link_url : string) (st st' : loop_state) :
  clean_path file_path →
  (∀ c, c ∈ find_file_in_cache (file_cache (w st)) (name (parse link_url)) →
        clean_path c ∧ Forall no_hash (names c) ∧ exists_ (fs (w st)) c = true) →
  fix_link file_path (full_match, link_text, link_url) st = Ok st' →
  let s := file_stats st in
  let s' := file_stats st' in
  let found := find_correct_path (fs (w st)) (file_cache (w st)) file_path link_url in
  (fst (resolve_link (fs (w st)) file_path link_url) = true ∧ st' = st) ∨
  (fst (resolve_link (fs (w st)) file_path link_url) = false ∧
   ∃ corrected,
     found = Some corrected ∧ corrected ≠ link_url ∧
     content st' = PyStr.replace_first (content st) full_match
                     (rebuilt_link link_text (corrected +:+ link_anchor link_url)) ∧
     fixes s' = fixes s ++ [FixRecord link_url (corrected +:+ link_anchor link_url) link_text] ∧
     broken_links s' = S (broken_links s) ∧ fixed_links s' = S (fixed_links s) ∧
     unfixable_count s' = unfixable_count s ∧
     unfixable_links (w st') = unfixable_links (w st)) ∨
  (fst (resolve_link (fs (w st)) file_path link_url) = false ∧
   (found = None ∨ found = Some link_url) ∧
   content st' = content st ∧ fixes s' = fixes s ∧
   broken_links s' = S (broken_links s) ∧ fixed_links s' = fixed_links s ∧
   unfixable_count s' = S (unfixable_count s) ∧
   ∃ rel,
     relative_to file_path BASE_DIR = Ok rel ∧
     unfixable_links (w st')
     = unfixable_links (w st)
       ++ [UnfixableRecord (to_str rel) link_url None
             (Some "No candidates found in file cache")]).
Proof.
  intros Hsource Hcands Hstep. cbv zeta. unfold fix_link in Hstep.
  destruct (resolve_link (fs (w st)) file_path link_url) as [link_exists tgt] eqn:Hres.
  destruct link_exists.
  { injection Hstep as <-. left. by split. }
  cbn [w content file_stats fst] in Hstep. cbn [fst]. right.
  pose proof (find_correct_path_candidate (fs (w st)) (file_cache (w st))
                file_path link_url) as Hcand.
  destruct (find_correct_path (fs (w st)) (file_cache (w st)) file_path link_url)
    as [corrected|] eqn:Hfind.
  - destruct Hcand as (c & Hc & Hcorr).
    destruct (Hcands c Hc) as (Hclean & Hhash & Hexists).
    assert (Hne : corrected ≠ "") by (rewrite Hcorr; by apply relative_path_nonempty).
    rewrite (bool_decide_eq_true_2 _ Hne) in Hstep. cbn [andb] in Hstep.
    destruct (decide (corrected = link_url)) as [Heq|Hneq].
    + rewrite bool_decide_eq_false_2 in Hstep by (by intros H; apply H).
      unfold record_unfixable in Hstep.
      apply bind_Ok in Hstep as (rel & Hrel & [= <-]). proj_cbn.
      right. split; [done|]. split; [right; by rewrite Heq|].
      repeat split; try done. by exists rel.
    + rewrite (bool_decide_eq_true_2 _ Hneq) in Hstep. cbv zeta in Hstep.
      fold (link_anchor link_url) in Hstep.
      fold (rebuilt_link link_text (corrected +:+ link_anchor link_url)) in Hstep.
      assert (Hfix : resolve_link (fs (w st)) file_path (corrected +:+ link_anchor link_url)
                     = (true, c)).
      { rewrite Hcorr, resolve_link_replacement by done. by rewrite Hexists. }
      rewrite Hfix in Hstep. injection Hstep as <-. proj_cbn.
      left. split; [done|]. exists corrected. repeat split; done.
  - unfold record_unfixable in Hstep.
    apply bind_Ok in Hstep as (rel & Hrel & [= <-]). proj_cbn.
    right. split; [done|]. split; [by left|]. repeat split; try done. by exists rel.
Qed.

(** The step on [s.md]: its one candidate exists, and the link is fixed. *)
Lemma no_failed_attempt_on_clean_tree_witness :
  fixed_links (file_stats paren_after_step) = S (fixed_links (file_stats paren_before_step)) ∧
  unfixable_links (w paren_after_step) = unfixable_links (w paren_before_step).
Proof.
  destruct (no_failed_attempt_on_clean_tree (docs_file ["s.md"]) "[t](x.md)" "t" "x.md"
              paren_before_step paren_after_step)
    as [[Hex _]|[(_ & corrected & _ & _ & _ & _ & _ & Hfixed & _ & Hul)|(_ & _ & _ & _ & _ & Hsame & _)]].
  - split; [reflexivity|]. repeat constructor; done.
  - intros c Hc.
    assert (Hcs : find_file_in_cache (file_cache (w paren_before_step)) (name (parse "x.md"))
                  = [docs_file ["x.md)"; "x.md"]]) by (vm_compute; reflexivity).
    rewrite Hcs in Hc. apply list_elem_of_singleton in Hc as ->.
    split; [|split].
    + split; [reflexivity|]. repeat constructor; done.
    + repeat constructor.
    + vm_compute. reflexivity.
  - vm_compute. reflexivity.
  - vm_compute in Hex. discriminate Hex.
  - by split.
  - vm_compute in Hsame. discriminate Hsame.
Defined.

(** The loop over the links of a file. *)
Lemma fix_links_loop (file_path : Path) (links : list (string * string * string))
    (st st' : loop_state) :
  for_each (fix_link file_path) links st = Ok st' →
  let s := file_stats st in
  let s' := file_stats st' in
  fs (w st') = fs (w st) ∧ file_cache (w st') = file_cache (w st) ∧
  stats (w st') = stats (w st) ∧ links_found s' = links_found s ∧
  broken_links s' + fixed_links s + unfixable_count s
    = broken_links s + fixed_links s' + unfixable_count s' ∧
  fixed_links s' + length (fixes s) = fixed_links s + length (fixes s') ∧
  length (unfixable_links (w st')) + unfixable_count s
    = length (unfixable_links (w st)) + unfixable_count s' ∧
  fixed_links s ≤ fixed_links s' ∧ unfixable_count s ≤ unfixable_count s' ∧
  (fixed_links s' = fixed_links s → content st' = content st) ∧
  broken_links s' = broken_links s
    + length (List.filter (fun l => negb (fst (resolve_link (fs (w st)) file_path l.2))) links).
Proof.
  revert st. induction links as [|[[full_match link_text] link_url] links IH]; intros st.
  - intros [= <-]. simpl. repeat split; lia.
  - simpl for_each. intros (st1 & Hstep & Hrest)%bind_Ok.
    specialize (IH st1 Hrest). cbv zeta in IH.
    apply fix_link_outcome in Hstep. cbv zeta in Hstep.
    destruct Hstep as (Hfs & Hcache & Hstats & Hfound & Hcase).
    destruct IH as (Hfs' & Hcache' & Hstats' & Hfound' & Hb & Hf & Hu & Hfl & Hul & Hc & Hcount).
    rewrite Hfs in Hcount. cbv zeta. cbn [List.filter snd].
    split; [congruence|]. split; [congruence|]. split; [congruence|]. split; [congruence|].
    destruct Hcase as [[Hres ->]
                      |[(Hres & (corr & _ & _ & Hcont & Hfixes) & Hb1 & Hf1 & Hu1 & Hul1)
                       |(Hres & Hcont & Hfixes & Hb1 & Hf1 & Hu1 & r & Hul1 & _)]];
      rewrite Hres; cbn [negb].
    + repeat split; try lia. exact Hc.
    + rewrite Hfixes, length_app in Hf. cbn [length] in Hf. rewrite Hul1 in Hu.
      cbn [length]. repeat split; try lia.
    + rewrite Hfixes in Hf. rewrite Hul1, length_app in Hu. cbn [length] in Hu.
      cbn [length]. repeat split; try lia. intros Heq. rewrite Hc by lia. exact Hcont.
Qed.

(** What a completed [fix_links_in_file] has counted. *)
Lemma fix_links_in_file_counts (file_path : Path) (dry_run : bool) (w0 w' : world)
    (s : file_stats_t) :
  fix_links_in_file file_path dry_run w0 = Ok (s, w') →
  let found := match read_text (fs w0) file_path with
               | inr text => extract_markdown_links text
               | inl _ => []
               end in
  stats w' = stats w0 ∧
  links_found s = length found ∧
  broken_links s
    = length (List.filter (fun l => negb (fst (resolve_link (fs w0) file_path l.2))) found) ∧
  broken_links s = fixed_links s + unfixable_count s ∧
  fixed_links s = length (fixes s) ∧
  length (unfixable_links w') = length (unfixable_links w0) + unfixable_count s.
Proof.
  unfold fix_links_in_file.
  destruct (read_text (fs w0) file_path) as [e|text].
  { intros [= <- <-]. simpl. repeat split; lia. }
  intros (st & Hloop & Hend)%bind_Ok.
  apply fix_links_loop in Hloop. cbv zeta in Hloop.
  cbn [file_stats w content links_found broken_links fixed_links unfixable_count fixes length]
    in Hloop.
  destruct Hloop as (_ & _ & Hstats & Hfound & Hb & Hf & Hu & _ & _ & _ & Hcount).
  assert (Hres : file_stats st = s ∧ unfixable_links (w st) = unfixable_links w'
                 ∧ stats (w st) = stats w').
  { destruct (negb dry_run && bool_decide (content st ≠ text)).
    - unfold write_text in Hend. destruct (writable (fs (w st)) file_path); simpl in Hend;
        by injection Hend as <- <-.
    - by injection Hend as <- <-. }
  destruct Hres as (<- & <- & <-). cbv zeta. repeat split; try done; lia.
Qed.

(** X8: the statistics that [fix_links_in_file] returns add up: every
    broken link is counted as fixed or as unfixable, never both; the fixes
    listed are as many as the links fixed; the broken links are no more
    than the links found, which are the links extracted from the file; and
    the global list of unfixable links grows by the number of links that
    the file counts as unfixable. *)
Theorem file_statistics_add_up (file_path : Path) (dry_run : bool) (w0 w' : world)
    (s : file_stats_t) :
  fix_links_in_file file_path dry_run w0 = Ok (s, w') →
  broken_links s = fixed_links s + unfixable_count s ∧
  fixed_links s = length (fixes s) ∧
  broken_links s ≤ links_found s ∧
  links_found s = match read_text (fs w0) file_path with
                  | inr text => length (extract_markdown_links text)
                  | inl _ => 0
                  end ∧
  length (unfixable_links w') = length (unfixable_links w0) + unfixable_count s.
Proof.
  intros Hrun. apply fix_links_in_file_counts in Hrun. cbv zeta in Hrun.
  destruct Hrun as (_ & Hfound & Hbroken & Hb & Hf & Hu).
  pose proof (filter_length_le
                (fun l => negb (fst (resolve_link (fs w0) file_path l.2)))
                (match read_text (fs w0) file_path with
                 | inr text => extract_markdown_links text
                 | inl _ => []
                 end)) as Hle.
  repeat split; try done; try lia.
  rewrite Hfound. by destruct (read_text (fs w0) file_path).
Qed.

(** The dry run on [s.md]: one link found, broken, and fixed. *)
Lemma file_statistics_add_up_witness :
  fix_links_in_file (docs_file ["s.md"]) true paren_world
    = Ok (file_stats paren_after_step, w paren_after_step) ∧
  broken_links (file_stats paren_after_step)
    = fixed_links (file_stats paren_after_step) + unfixable_count (file_stats paren_after_step).
Proof.
  assert (Hrun : fix_links_in_file (docs_file ["s.md"]) true paren_world
                 = Ok (file_stats paren_after_step, w paren_after_step))
    by (vm_compute; reflexivity).
  split; [exact Hrun|].
  exact (proj1 (file_statistics_add_up (docs_file ["s.md"]) true paren_world
                  (w paren_after_step) (file_stats paren_after_step) Hrun)).
Defined.

(** X9: [fix_links_in_file] changes nothing on disk but the text of the
    file it is given: which paths exist is unchanged and every other file
    reads as before; and it writes nothing at all in a dry run, when no
    link was fixed, or when the file cannot be written. *)
Theorem writes_only_the_fixed_file (file_path : Path) (dry_run : bool) (w0 w' : world)
    (s : file_stats_t) :
  fix_links_in_file file_path dry_run w0 = Ok (s, w') →
  exists_ (fs w') = exists_ (fs w0) ∧
  cwd (fs w') = cwd (fs w0) ∧
  (∀ p, p ≠ file_path → read_text (fs w') p = read_text (fs w0) p) ∧
  (dry_run = true ∨ fixed_links s = 0 ∨ writable (fs w0) file_path = false →
   fs w' = fs w0).
Proof.
  unfold fix_links_in_file.
  destruct (read_text (fs w0) file_path) as [e|text].
  { intros [= <- <-]. by repeat split. }
  intros (st & Hloop & Hend)%bind_Ok.
  apply fix_links_loop in Hloop. cbv zeta in Hloop.
  cbn [file_stats w content links_found broken_links fixed_links unfixable_count fixes length]
    in Hloop.
  destruct Hloop as (Hfs & _ & _ & _ & _ & _ & _ & _ & _ & Hcontent & _).
  destruct (negb dry_run && bool_decide (content st ≠ text)) eqn:Hwrite.
  - apply andb_true_iff in Hwrite as [Hdry%negb_true_iff Hchanged%bool_decide_eq_true].
    unfold write_text in Hend. rewrite Hfs in Hend.
    destruct (writable (fs w0) file_path) eqn:Hwritable; simpl in Hend.
    + injection Hend as <- <-. simpl. repeat split.
      * intros p Hp. by rewrite decide_False.
      * intros [->|[Hzero|?]]; [done| |done].
        destruct Hchanged. apply Hcontent. lia.
    + injection Hend as <- <-. rewrite Hfs. by repeat split.
  - injection Hend as <- <-. rewrite Hfs. by repeat split.
Qed.

(** The dry run on [s.md] fixes its link and leaves the disk alone. *)
Lemma writes_only_the_fixed_file_witness :
  fixed_links (file_stats paren_after_step) = 1 ∧
  fs (w paren_after_step) = fs paren_world.
Proof.
  split; [reflexivity|].
  destruct (writes_only_the_fixed_file (docs_file ["s.md"]) true paren_world
              (w paren_after_step) (file_stats paren_after_step))
    as (_ & _ & _ & Hsame); [vm_compute; reflexivity|].
  apply Hsame. by left.
Defined.

(** X10: the statistics of a run of [process_all_files] add up: the files
    scanned are the files kept by its filter; links counted broken are
    counted fixed or unfixable; the files counted as modified are the
    entries of the list returned, each with a positive number of fixes
    that is the length of its list of fixes; the links counted fixed are
    the sum of these numbers; and the list of unfixable links grows by the
    number of links counted unfixable. *)
Theorem run_statistics_add_up (md_files : list Path) (dry_run : bool) (w0 w' : world)
    (out : list modified_file) :
  process_all_files md_files dry_run w0 = Ok (out, w') →
  let s0 := stats w0 in
  let s' := stats w' in
  total_files_scanned s'
    = length (List.filter (fun f => negb (bool_decide ("node_modules" ∈ parts f))
                                    && negb (in_hidden_directory f)) md_files) ∧
  broken_links_found s' + links_fixed s0 + links_unfixable s0
    = broken_links_found s0 + links_fixed s' + links_unfixable s' ∧
  broken_links_found s' + total_links_found s0
    ≤ broken_links_found s0 + total_links_found s' ∧
  files_modified s' = files_modified s0 + length out ∧
  links_fixed s' = links_fixed s0 + sum_list (modified_count <$> out) ∧
  Forall (fun m => 0 < modified_count m ∧ modified_count m = length (modified_fixes m)) out ∧
  length (unfixable_links w') + links_unfixable s0
    = length (unfixable_links w0) + links_unfixable s'.
Proof.
  unfold process_all_files. intros Hloop. cbv zeta.
  match type of Hloop with
  | for_each _ ?files (_, ?w1) = _ => set (fl := files) in *; set (w1' := w1) in *
  end.
  refine (for_each_preserves
            (fun r : list modified_file * world =>
               total_files_scanned (stats r.2) = length fl ∧
               broken_links_found (stats r.2) + links_fixed (stats w0) + links_unfixable (stats w0)
                 = broken_links_found (stats w0) + links_fixed (stats r.2)
                   + links_unfixable (stats r.2) ∧
               broken_links_found (stats r.2) + total_links_found (stats w0)
                 ≤ broken_links_found (stats w0) + total_links_found (stats r.2) ∧
               files_modified (stats r.2) = files_modified (stats w0) + length r.1 ∧
               links_fixed (stats r.2)
                 = links_fixed (stats w0) + sum_list (modified_count <$> r.1) ∧
               Forall (fun m => 0 < modified_count m
                                ∧ modified_count m = length (modified_fixes m)) r.1 ∧
               length (unfixable_links r.2) + links_unfixable (stats w0)
                 = length (unfixable_links w0) + links_unfixable (stats r.2))
            _ _ _ _ _ Hloop _).
  - intros f [m wa] [m' wb] Hbody (H1 & H2 & H3 & H4 & H5 & H6 & H7). simpl in *.
    apply bind_Ok in Hbody as (rel & _ & Hbody).
    apply bind_Ok in Hbody as ([s w1] & Hfix & [= <- <-]).
    apply fix_links_in_file_counts in Hfix. cbv zeta in Hfix.
    destruct Hfix as (Hstats & Hfound & Hbroken & Hb & Hf & Hu).
    pose proof (filter_length_le
                  (fun l => negb (fst (resolve_link (fs wa) f l.2)))
                  (match read_text (fs wa) f with
                   | inr text => extract_markdown_links text
                   | inl _ => []
                   end)) as Hle.
    rewrite Hstats. simpl.
    destruct (bool_decide (0 < fixed_links s)) eqn:Hmod.
    + apply bool_decide_eq_true in Hmod. simpl.
      rewrite length_app, fmap_app, sum_list_with_app. simpl.
      repeat split; try lia. apply Forall_app. split; [done|].
      constructor; [|constructor]. simpl. lia.
    + apply bool_decide_eq_false in Hmod. simpl. repeat split; try done; lia.
  - subst w1'. simpl. repeat split; try lia. constructor.
Qed.

(** The dry run of [process_all_files] over [s.md]. *)
Lemma run_statistics_add_up_witness :
  process_all_files [docs_file ["s.md"]] true paren_world = Ok (paren_modified, paren_after_run) ∧
  files_modified (stats paren_after_run) = files_modified (stats paren_world) + 1 ∧
  links_fixed (stats paren_after_run) = links_fixed (stats paren_world) + 1.
Proof.
  assert (Hrun : process_all_files [docs_file ["s.md"]] true paren_world
                 = Ok (paren_modified, paren_after_run)) by (vm_compute; reflexivity).
  split; [exact Hrun|].
  destruct (run_statistics_add_up [docs_file ["s.md"]] true paren_world paren_after_run
              paren_modified Hrun) as (_ & _ & _ & Hfiles & Hfixed & _).
  split; [exact Hfiles|exact Hfixed].
Defined.


(** ** The validator *)

Lemma validate_loop (fs : file_system) (f : Path) (found : list (string * string))
    (st st' : Validator.file_stats_t) (bl bl' : list Validator.broken_record) :
  for_each (Validator.validate_step fs f) found (st, bl) = Ok (st', bl') →
  Validator.links st' = Validator.links st ∧
  Validator.valid st' + length (List.filter (dangling fs f) found)
    = Validator.valid st + length found ∧
  Validator.broken st' = Validator.broken st + length (List.filter (dangling fs f) found) ∧
  Validator.broken_list st' = Validator.broken_list st ++ List.filter (dangling fs f) found ∧
  (∀ rel, relative_to f Validator.BASE_DIR = Ok rel →
     bl' = bl ++ map (fun l => Validator.BrokenRecord (to_str rel) l.1 l.2)
                    (List.filter (dangling fs f) found)) ∧
  length bl' = length bl + length (List.filter (dangling fs f) found).
Proof.
  revert st bl. induction found as [|[link_text link_url] found IH]; intros st bl.
  - intros [= <- <-]. simpl. rewrite !app_nil_r. repeat split; try lia.
  - cbn [for_each]. intros ([st1 bl1] & Hstep & Hrest)%bind_Ok.
    specialize (IH _ _ Hrest) as (Hl & Hv & Hb & Hlist & Hrec & Hlen).
    unfold Validator.validate_step in Hstep. cbn [List.filter].
    assert (Hd : dangling fs f (link_text, link_url)
                 = negb (Validator.validate_link fs f link_url)) by reflexivity.
    rewrite Hd. clear Hd. revert Hstep.
    destruct (Validator.validate_link fs f link_url); cbn [negb]; intros Hstep.
    + injection Hstep as <- <-. cbn [Validator.links Validator.valid Validator.broken
        Validator.broken_list length] in *. repeat split; try done; lia.
    + apply bind_Ok in Hstep as (rel0 & Hrel0 & [= <- <-]).
      cbn [Validator.links Validator.valid Validator.broken Validator.broken_list length] in *.
      rewrite length_app in Hlen. cbn [length] in Hlen.
      repeat split; try done; try lia.
      * by rewrite Hlist, <- app_assoc.
      * intros rel Hrel. rewrite (Hrec rel Hrel), <- app_assoc.
        rewrite Hrel in Hrel0. by injection Hrel0 as <-.
Qed.

(** What a completed [validate_file] has counted and recorded. *)
Lemma validate_file_counts (fs : file_system) (f : Path)
    (bl bl' : list Validator.broken_record) (st : Validator.file_stats_t) :
  Validator.validate_file fs f bl = Ok (st, bl') →
  Validator.links st = length (links_of fs f) ∧
  Validator.broken_list st = broken_of fs f ∧
  Validator.broken st = length (broken_of fs f) ∧
  Validator.links st = Validator.valid st + Validator.broken st ∧
  (∀ rel, relative_to f Validator.BASE_DIR = Ok rel →
     bl' = bl ++ map (fun l => Validator.BrokenRecord (to_str rel) l.1 l.2) (broken_of fs f)) ∧
  length bl' = length bl + Validator.broken st.
Proof.
  unfold Validator.validate_file, broken_of, links_of.
  destruct (read_text fs f) as [e|text].
  { intros [= <- <-]. simpl. rewrite app_nil_r. repeat split; try lia. }
  intros (Hl & Hv & Hb & Hlist & Hrec & Hlen)%validate_loop.
  cbn [Validator.links Validator.valid Validator.broken Validator.broken_list] in *.
  simpl in Hlist. repeat split; try done; lia.
Qed.

(** X11: the statistics that [validate_file] returns: the links counted
    are the links extracted from the file (none when it cannot be read);
    the broken list holds, in order, exactly the extracted links whose
    target does not exist, and the broken count is its length; every link
    is counted valid or broken; and the global list of broken links is
    extended by one record per broken link, in the same order, each naming
    the file relative to the base directory. *)
Theorem validated_file_statistics (fs : file_system) (f : Path)
    (bl bl' : list Validator.broken_record) (st : Validator.file_stats_t) :
  Validator.validate_file fs f bl = Ok (st, bl') →
  Validator.links st = length (links_of fs f) ∧
  Validator.broken_list st = broken_of fs f ∧
  Validator.broken st = length (broken_of fs f) ∧
  Validator.links st = Validator.valid st + Validator.broken st ∧
  (∀ rel, relative_to f Validator.BASE_DIR = Ok rel →
     bl' = bl ++ map (fun l => Validator.BrokenRecord (to_str rel) l.1 l.2) (broken_of fs f)) ∧
  length bl' = length bl + Validator.broken st.
Proof. apply validate_file_counts. Qed.

(** The validator on [s.md], whose one link has no target. *)
Lemma validated_file_statistics_witness :
  Validator.validate_file paren_fs (docs_file ["s.md"]) []
    = Ok (Validator.FileStats 1 0 1 [("t", "x.md")],
          [Validator.BrokenRecord "docs/s.md" "t" "x.md"]) ∧
  broken_of paren_fs (docs_file ["s.md"]) = [("t", "x.md")].
Proof.
  assert (Hrun : Validator.validate_file paren_fs (docs_file ["s.md"]) []
                 = Ok (Validator.FileStats 1 0 1 [("t", "x.md")],
                       [Validator.BrokenRecord "docs/s.md" "t" "x.md"]))
    by (vm_compute; reflexivity).
  split; [exact Hrun|].
  destruct (validated_file_statistics paren_fs (docs_file ["s.md"]) [] _ _ Hrun)
    as (_ & Hlist & _).
  symmetry. exact Hlist.
Defined.

(** The validator extracts the links that the fixer extracts. *)
Lemma validator_extracts_the_same (text : string) :
  Validator.extract_markdown_links text
  = map (fun l => (l.1.2, l.2)) (extract_markdown_links text).
Proof.
  unfold Validator.extract_markdown_links, extract_markdown_links.
  change Validator.link_pattern with link_pattern.
  induction (Re.finditer link_pattern text) as [|m ms IH]; [reflexivity|].
  cbn [flat_map]. rewrite map_app, <- IH. f_equal.
  destruct (Re.groups m) as [|link_text [|link_url [|]]]; try reflexivity.
  destruct (negb _ && _); [|reflexivity].
  cbv zeta. by destruct (decide _).
Qed.

Lemma filter_map_length {A B : Type} (g : A → B) (p : B → bool) (l : list A) :
  length (List.filter p (map g l)) = length (List.filter (fun x => p (g x)) l).
Proof.
  induction l as [|x l IH]; [reflexivity|]. simpl.
  destruct (p (g x)); simpl; by rewrite IH.
Qed.

(** X12: the validator and the fixer agree on a file: over the same file
    system, [validate_file] counts as many links, and as many broken
    links, in a file as [fix_links_in_file] reports for it. *)
Theorem validator_agrees_with_fixer (f : Path) (dry_run : bool) (w0 w' : world)
    (s : file_stats_t) (bl bl' : list Validator.broken_record)
    (st : Validator.file_stats_t) :
  fix_links_in_file f dry_run w0 = Ok (s, w') →
  Validator.validate_file (fs w0) f bl = Ok (st, bl') →
  Validator.links st = links_found s ∧ Validator.broken st = broken_links s.
Proof.
  intros Hfix Hval.
  apply fix_links_in_file_counts in Hfix. cbv zeta in Hfix.
  destruct Hfix as (_ & Hfound & Hbroken & _).
  apply validate_file_counts in Hval as (Hl & _ & Hb & _).
  rewrite Hl, Hb, Hfound, Hbroken. unfold broken_of, links_of.
  destruct (read_text (fs w0) f) as [e|text]; [done|].
  rewrite validator_extracts_the_same, filter_map_length, length_map. done.
Qed.

(** Both scripts on [s.md]: one link, broken. *)
Lemma validator_agrees_with_fixer_witness :
  Validator.links (Validator.FileStats 1 0 1 [("t", "x.md")])
    = links_found (file_stats paren_after_step) ∧
  Validator.broken (Validator.FileStats 1 0 1 [("t", "x.md")])
    = broken_links (file_stats paren_after_step).
Proof.
  apply (validator_agrees_with_fixer (docs_file ["s.md"]) true paren_world
           (w paren_after_step) (file_stats paren_after_step) []
           [Validator.BrokenRecord "docs/s.md" "t" "x.md"]);
    vm_compute; reflexivity.
Defined.

Lemma sum_list_zero {A : Type} (g : A → nat) (l : list A) :
  sum_list (g <$> l) = 0 ↔ ∀ x, x ∈ l → g x = 0.
Proof.
  induction l as [|x l IH]; simpl.
  - split; [by intros _ x ?%elem_of_nil|done].
  - split.
    + intros H y [->|Hy]%elem_of_cons; [lia|]. apply (proj1 IH); [unfold fmap; lia|done].
    + intros H. rewrite (H x) by set_solver. apply (proj2 IH). intros y Hy. apply H. set_solver.
Qed.

Lemma filter_nil_iff {A : Type} (p : A → bool) (l : list A) :
  List.filter p l = [] ↔ ∀ x, x ∈ l → p x = false.
Proof.
  induction l as [|x l IH]; simpl.
  - split; [by intros _ x ?%elem_of_nil|done].
  - destruct (p x) eqn:Hp; split.
    + discriminate.
    + intros H. specialize (H x). rewrite Hp in H. discriminate H. set_solver.
    + intros H y [->|Hy]%elem_of_cons; [done|]. by apply IH.
    + intros H. apply IH. intros y Hy. apply H. set_solver.
Qed.

(** The loop of [main] over the files, from any state. *)
Lemma validate_files_loop (fs : file_system) (files : list Path)
    (es es' : list Validator.broken_file_entry) (w w' : Validator.world) :
  for_each
    (fun md_file '(files_with_broken_links, w0) =>
       rel_path ← relative_to md_file Validator.BASE_DIR ;
       '(file_stats, all_broken') ← Validator.validate_file fs md_file (Validator.all_broken w0) ;
       let s := Validator.stats w0 in
       let s := Validator.Stats (Validator.total_files s)
                  (Validator.total_links s + Validator.links file_stats)
                  (Validator.valid_links s + Validator.valid file_stats)
                  (Validator.broken_links s + Validator.broken file_stats) in
       Ok (if bool_decide (0 < Validator.broken file_stats)
           then files_with_broken_links
                ++ [Validator.BrokenFile (to_str rel_path) (Validator.broken file_stats)
                      (Validator.broken_list file_stats)]
           else files_with_broken_links,
           Validator.World s all_broken'))
    files (es, w) = Ok (es', w') →
  let s := Validator.stats w in
  let s' := Validator.stats w' in
  Validator.total_files s' = Validator.total_files s ∧
  Validator.total_links s'
    = Validator.total_links s + sum_list ((fun f => length (links_of fs f)) <$> files) ∧
  Validator.broken_links s'
    = Validator.broken_links s + sum_list ((fun f => length (broken_of fs f)) <$> files) ∧
  Validator.total_links s' + Validator.valid_links s + Validator.broken_links s
    = Validator.total_links s + Validator.valid_links s' + Validator.broken_links s' ∧
  length (Validator.all_broken w')
    = length (Validator.all_broken w) + sum_list ((fun f => length (broken_of fs f)) <$> files) ∧
  Validator.entry_links <$> es'
    = (Validator.entry_links <$> es)
      ++ List.filter (fun bs => bool_decide (bs ≠ [])) (broken_of fs <$> files) ∧
  (Forall (fun e => Validator.broken_count e = length (Validator.entry_links e)) es →
   Forall (fun e => Validator.broken_count e = length (Validator.entry_links e)) es') ∧
  Forall (fun f => ∃ rel, relative_to f Validator.BASE_DIR = Ok rel) files.
Proof.
  revert es w. induction files as [|f files IH]; intros es w.
  - intros [= <- <-]. simpl. rewrite app_nil_r. repeat split; try lia; try done.
  - cbn [for_each]. intros ([es1 w1] & Hstep & Hrest)%bind_Ok.
    specialize (IH _ _ Hrest). cbv zeta in IH.
    destruct IH as (Hf & Hl & Hb & Hsum & Hall & Hes & Hcount & Hrel).
    apply bind_Ok in Hstep as (rel & Hrel0 & Hstep).
    apply bind_Ok in Hstep as ([st bl'] & Hval & [= <- <-]).
    apply validate_file_counts in Hval as (Hl1 & Hlist1 & Hb1 & Hv1 & _ & Hlen1).
    cbn [Validator.stats Validator.all_broken Validator.total_files Validator.total_links
         Validator.valid_links Validator.broken_links] in *.
    cbv zeta. rewrite !fmap_cons. cbn [sum_list sum_list_with List.filter]. unfold id in *.
    split; [lia|]. split; [lia|]. split; [lia|]. split; [lia|]. split; [lia|].
    split; [|split].
    + rewrite Hes. rewrite Hb1, <- Hlist1.
      destruct (Validator.broken_list st) as [|b bs] eqn:Hbs.
      * rewrite (bool_decide_eq_false_2 (0 < _)) by (simpl; lia).
        rewrite (bool_decide_eq_false_2 (_ ≠ _)) by (intros H; by apply H). done.
      * rewrite (bool_decide_eq_true_2 (0 < _)) by (simpl; lia).
        rewrite (bool_decide_eq_true_2 (_ ≠ _)) by done.
        rewrite fmap_app, <- app_assoc. reflexivity.
    + intros Hold. apply Hcount. destruct (bool_decide (0 < Validator.broken st)); [|done].
      apply Forall_app. split; [done|]. constructor; [|constructor]. simpl.
      by rewrite Hlist1.
    + constructor; [by exists rel|done].
Qed.

(** X13: a run of the validator from its initial globals: the files
    counted are the files kept by the filter; the links counted are the
    links extracted from these files, each counted valid or broken; the
    global list has one record per broken link; the files reported with
    broken links are, in order, the kept files that have one, each with
    its broken links and their number; and the exit status is 0 exactly
    when the target of every extracted link of every kept file exists,
    and 1 otherwise. *)
Theorem validation_exit_status (fs : file_system) (md_files : list Path) (code : nat)
    (entries : list Validator.broken_file_entry) (w' : Validator.world) :
  Validator.main fs md_files validator_start = Ok (code, entries, w') →
  let s' := Validator.stats w' in
  Validator.total_files s' = length (scanned md_files) ∧
  Validator.total_links s'
    = sum_list ((fun f => length (links_of fs f)) <$> scanned md_files) ∧
  Validator.broken_links s'
    = sum_list ((fun f => length (broken_of fs f)) <$> scanned md_files) ∧
  Validator.total_links s' = Validator.valid_links s' + Validator.broken_links s' ∧
  length (Validator.all_broken w') = Validator.broken_links s' ∧
  Validator.entry_links <$> entries
    = List.filter (fun bs => bool_decide (bs ≠ [])) (broken_of fs <$> scanned md_files) ∧
  Forall (fun e => Validator.broken_count e = length (Validator.entry_links e)) entries ∧
  (code = 0 ∨ code = 1) ∧
  (code = 0 ↔ ∀ f l, f ∈ scanned md_files → l ∈ links_of fs f →
                     Validator.validate_link fs f l.2 = true).
Proof.
  unfold Validator.main. fold (scanned md_files).
  intros ([es1 w1] & Hloop & [= <- <- <-])%bind_Ok.
  apply validate_files_loop in Hloop. cbv zeta in Hloop.
  cbn [Validator.stats Validator.all_broken Validator.total_files Validator.total_links
       Validator.valid_links Validator.broken_links validator_start length fmap list_fmap
       app] in Hloop.
  destruct Hloop as (Hf & Hl & Hb & Hsum & Hall & Hes & Hcount & _).
  cbv zeta. split; [done|]. split; [lia|]. split; [lia|]. split; [lia|]. split; [lia|].
  split; [done|]. split; [by apply Hcount|].
  split; [destruct (bool_decide _); auto|].
  assert (Hzero : sum_list ((fun f => length (broken_of fs f)) <$> scanned md_files) = 0
                  ↔ ∀ f l, f ∈ scanned md_files → l ∈ links_of fs f →
                           Validator.validate_link fs f l.2 = true).
  { rewrite sum_list_zero. split.
    - intros H f l Hin Hl'. specialize (H f Hin).
      apply length_zero_iff_nil in H. unfold broken_of in H.
      pose proof (proj1 (filter_nil_iff _ _) H l Hl') as Hd.
      unfold dangling in Hd. by apply negb_false_iff in Hd.
    - intros H f Hin. apply length_zero_iff_nil. unfold broken_of.
      apply (proj2 (filter_nil_iff _ _)). intros l Hl'.
      unfold dangling. by rewrite (H f l Hin Hl'). }
  rewrite Nat.add_0_l in Hb. rewrite <- Hzero, <- Hb.
  destruct (bool_decide (0 < Validator.broken_links (Validator.stats w1))) eqn:Hd.
  - apply bool_decide_eq_true in Hd. split; [discriminate|lia].
  - apply bool_decide_eq_false in Hd. split; [lia|done].
Qed.

(** The validator on the tree whose one file has one broken link. *)
Lemma validation_exit_status_witness :
  Validator.main paren_fs [docs_file ["s.md"]] validator_start
    = Ok (1, [Validator.BrokenFile "docs/s.md" 1 [("t", "x.md")]],
          Validator.World (Validator.Stats 1 1 0 1)
            [Validator.BrokenRecord "docs/s.md" "t" "x.md"]) ∧
  ¬ (∀ f l, f ∈ scanned [docs_file ["s.md"]] → l ∈ links_of paren_fs f →
            Validator.validate_link paren_fs f l.2 = true).
Proof.
  assert (Hrun : Validator.main paren_fs [docs_file ["s.md"]] validator_start
                 = Ok (1, [Validator.BrokenFile "docs/s.md" 1 [("t", "x.md")]],
                       Validator.World (Validator.Stats 1 1 0 1)
                         [Validator.BrokenRecord "docs/s.md" "t" "x.md"]))
    by (vm_compute; reflexivity).
  split; [exact Hrun|].
  destruct (validation_exit_status paren_fs [docs_file ["s.md"]] _ _ _ Hrun)
    as (_ & _ & _ & _ & _ & _ & _ & _ & Hcode).
  intros Hall. apply Hcode in Hall. discriminate Hall.
Defined.

(** X14: the validator fails only on a file outside the base directory:
    [main] returns, from any globals, exactly when every file kept by the
    filter lies under [BASE_DIR]; unreadable files and broken links never
    make it raise. *)
Theorem validator_returns_iff_files_under_base (fs : file_system) (md_files : list Path)
    (w0 : Validator.world) :
  (∃ r, Validator.main fs md_files w0 = Ok r)
  ↔ ∀ f, f ∈ scanned md_files → ∃ rest, parts f = parts Validator.BASE_DIR ++ rest.
Proof.
  unfold Validator.main. fold (scanned md_files). split.
  - intros ([[code es] w'] & ([es1 w1] & Hloop & _)%bind_Ok).
    apply validate_files_loop in Hloop. cbv zeta in Hloop.
    destruct Hloop as (_ & _ & _ & _ & _ & _ & _ & Hrel).
    intros f Hf. rewrite Forall_forall in Hrel. destruct (Hrel f Hf) as (rel & Hrel').
    apply relative_to_Ok in Hrel' as (_ & Hparts & _). by exists (names rel).
  - intros Hunder.
    match goal with
    | |- ∃ r, for_each ?body _ ?init ≫= _ = Ok r =>
        destruct (for_each_invariant (fun _ => True) body (scanned md_files) init)
          as ([es1 w1] & Hrun & _)
    end.
    + intros f [es w] Hf _. destruct (Hunder f Hf) as (rest & Hrest).
      assert (Hrel : relative_to f Validator.BASE_DIR = Ok (MkPath "" rest)).
      { apply relative_to_Ok. split; [reflexivity|]. split; [exact Hrest|]. discriminate. }
      rewrite Hrel. cbn [mbind result_bind].
      assert (Hval : ∃ r, Validator.validate_file fs f (Validator.all_broken w) = Ok r).
      { unfold Validator.validate_file. destruct (read_text fs f) as [e|text]; [eauto|].
        match goal with
        | |- ∃ r, for_each ?body ?xs ?init = Ok r =>
            destruct (for_each_invariant (fun _ => True) body xs init) as (r & Hr & _);
              [|done|by exists r]
        end.
        intros [link_text link_url] [st bl] _ _. unfold Validator.validate_step.
        destruct (Validator.validate_link fs f link_url); [eauto|].
        rewrite Hrel. simpl. eauto. }
      destruct Hval as ([st bl] & ->). simpl. eauto.
    + done.
    + rewrite Hrun. simpl. eauto.
Qed.

(** ** More on the cycle detector *)

(** What the finished traversal has recorded for a cycle of the graph. *)
Lemma recorded_for_closed_walk (g : graph) (σ : dfs_state) (w : list string) :
  dfs_inv g σ → rec_stack σ = ∅ → (∀ k, k ∈ graph_keys g → k ∈ visited σ) →
  closed_walk g w →
  ∃ u v c, (u, v) ∈ steps w ∧ c ∈ circulars σ ∧ closes c u v.
Proof.
  intros Hinv Hempty Hkeys Hcw.
  pose proof Hcw as [(x & m & Hshape) Hwalk].
  assert (Hx : x ∈ w) by (rewrite Hshape; set_solver).
  destruct (closed_walk_next g w x Hcw Hx) as (y & Hstep).
  destruct (Hwalk x y Hstep) as (vs & Hvs & _).
  apply graph_get_Some in Hvs as (Hkey & _ & _).
  assert (Hfin : x ∈ finished σ).
  { unfold finished. rewrite Hempty. specialize (Hkeys x Hkey). set_solver. }
  exact (inv_cycles g σ Hinv w x Hcw Hx Hfin).
Qed.

Lemma simple_cycle_closed_walk (g : graph) (c : list string) :
  simple_cycle g c → closed_walk g c.
Proof. intros (x & m & -> & _ & Hwalk). split; [by exists x, m|done]. Qed.

Lemma NoDup_remove_duplicates (cs : list (list string)) : NoDup (remove_duplicates cs).
Proof.
  unfold remove_duplicates.
  assert (H : ∀ acc, NoDup acc →
            NoDup (fold_left (fun unique c => if decide (c ∈ unique) then unique
                                              else unique ++ [c]) cs acc)).
  { induction cs as [|c cs IH]; intros acc Hacc; simpl; [done|].
    apply IH. destruct (decide (c ∈ acc)); [done|].
    apply NoDup_app. split; [done|]. split; [|apply NoDup_singleton].
    intros x Hx ->%list_elem_of_singleton. done. }
  apply H. constructor.
Qed.

(** X15: a module that imports itself is reported: when a node of the
    graph is among its own successors, the two-element sequence of that
    node is in the list that [find_circular_dependencies] returns. *)
Theorem self_import_is_reported (g : graph) (n : string) :
  edge g n n →
  ∃ out, find_circular_dependencies g = Ok out ∧ [n; n] ∈ out.
Proof.
  intros Hedge.
  destruct (find_circular_dependencies_total g)
    as (σ & _ & Hout & Hinv & Hempty & Hkeys & _).
  exists (remove_duplicates (circulars σ)). split; [done|].
  assert (Hcw : closed_walk g [n; n]).
  { split; [by exists n, []|]. intros u v Huv. simpl in Huv.
    apply list_elem_of_singleton in Huv. by injection Huv as -> ->. }
  destruct (recorded_for_closed_walk g σ [n; n] Hinv Hempty Hkeys Hcw)
    as (u & v & c & Huv & Hc & [Hhead (pre & Hpre)]).
  simpl in Huv. apply list_elem_of_singleton in Huv. injection Huv as -> ->.
  apply (proj2 (elem_of_remove_duplicates _ _)).
  destruct (inv_sound g σ Hinv c Hc) as (x & m & Hshape & Hnd & _).
  rewrite Hshape in Hhead. injection Hhead as ->.
  assert (Hm : n :: m = pre ++ [n]).
  { rewrite Hshape in Hpre.
    change (n :: m ++ [n]) with ((n :: m) ++ [n]) in Hpre.
    replace (pre ++ [n; n]) with ((pre ++ [n]) ++ [n]) in Hpre by (by rewrite <- app_assoc).
    by apply app_inj_tail in Hpre as [Hpre _]. }
  destruct pre as [|p pre].
  - injection Hm as ->. by rewrite Hshape in Hc.
  - injection Hm as <- ->. apply NoDup_cons in Hnd as [Hnotin _].
    destruct Hnotin. set_solver.
Qed.

(** The graph of one module that imports itself. *)
Lemma self_import_is_reported_witness :
  edge [("a", ["a"])] "a" "a" ∧
  ∃ out, find_circular_dependencies [("a", ["a"])] = Ok out ∧ ["a"; "a"] ∈ out.
Proof.
  assert (Hedge : edge [("a", ["a"])] "a" "a").
  { exists ["a"]. split; [reflexivity|]. apply list_elem_of_singleton. reflexivity. }
  split; [exact Hedge|].
  exact (self_import_is_reported [("a", ["a"])] "a" Hedge).
Defined.

(** X16: the report of [find_circular_dependencies] lists no sequence
    twice, and it is empty exactly when the graph has no cycle: the
    message that no circular dependency was found is written for the
    acyclic graphs and for no other. *)
Theorem empty_report_iff_acyclic (g : graph) :
  ∃ out, find_circular_dependencies g = Ok out ∧ NoDup out ∧
         (out = [] ↔ ∀ w, ¬ closed_walk g w).
Proof.
  destruct (find_circular_dependencies_total g)
    as (σ & _ & Hout & Hinv & Hempty & Hkeys & Hsound).
  exists (remove_duplicates (circulars σ)). split; [done|].
  split; [apply NoDup_remove_duplicates|]. split.
  - intros Hnil w Hcw.
    destruct (recorded_for_closed_walk g σ w Hinv Hempty Hkeys Hcw)
      as (u & v & c & _ & Hc & _).
    apply (proj2 (elem_of_remove_duplicates _ _)) in Hc. rewrite Hnil in Hc.
    by apply elem_of_nil in Hc.
  - intros Hacyclic. destruct (remove_duplicates (circulars σ)) as [|c cs] eqn:Hcs; [done|].
    destruct (Hacyclic c). apply simple_cycle_closed_walk, Hsound. set_solver.
Qed.

(** ** The dependency graph that is built *)

Lemma dict_set_keys (g : list (string * list string)) (k k' : string) (v : list string) :
  k' ∈ map fst (dict_set g k v) ↔ k' = k ∨ k' ∈ map fst g.
Proof.
  induction g as [|[k0 v0] g IH]; simpl.
  - set_solver.
  - destruct (decide (k0 = k)) as [->|Hne]; simpl; [set_solver|].
    rewrite !elem_of_cons, IH. naive_solver.
Qed.

Lemma dict_set_NoDup (g : list (string * list string)) (k : string) (v : list string) :
  NoDup (map fst g) → NoDup (map fst (dict_set g k v)).
Proof.
  induction g as [|[k0 v0] g IH]; simpl; intros Hnd.
  - apply NoDup_singleton.
  - apply NoDup_cons in Hnd as [Hnotin Hnd].
    destruct (decide (k0 = k)) as [->|Hne]; simpl.
    + by apply NoDup_cons.
    + apply NoDup_cons. split; [|by apply IH].
      rewrite dict_set_keys. naive_solver.
Qed.

Lemma dict_set_elem (g : list (string * list string)) (k : string) (v : list string)
    (kv : string * list string) :
  kv ∈ dict_set g k v → kv = (k, v) ∨ kv ∈ g.
Proof.
  induction g as [|[k0 v0] g IH]; simpl.
  - intros ->%list_elem_of_singleton. by left.
  - destruct (decide (k0 = k)) as [->|Hne]; rewrite !elem_of_cons; naive_solver.
Qed.

Lemma graph_get_elem (g : graph) (k : string) (vs : list string) :
  graph_get g k = Some vs → (k, vs) ∈ g.
Proof.
  induction g as [|[k0 v0] g IH]; simpl; [discriminate|].
  destruct (decide (k0 = k)) as [->|Hne].
  - intros [= ->]. set_solver.
  - intros H. set_solver.
Qed.

(** The files scanned are the kept files. *)
Lemma scanned_files_kept (rglob : string → list (list string)) (root_dir : Path)
    (extensions : list string) :
  List.filter is_source_file
    (flat_map (fun ext => map (fun rel => joinpath root_dir (MkPath "" rel)) (rglob ext))
              extensions)
  = map (fun rel => joinpath root_dir (MkPath "" rel)) (kept_files rglob root_dir extensions).
Proof.
  unfold kept_files. induction extensions as [|ext extensions IH]; [reflexivity|].
  cbn [flat_map]. rewrite List.filter_app, map_app, IH. f_equal.
  induction (rglob ext) as [|rel rels IHr]; [reflexivity|].
  cbn [map List.filter]. destruct (is_source_file _); cbn [map]; by rewrite IHr.
Qed.

(** The loop of [build_dependency_graph] over the files, from any graph. *)
Lemma scan_files_loop (fs : file_system) (root_dir : Path) (rels : list (list string))
    (g g' : list (string * list string)) :
  for_each (scan_file fs root_dir) (map (fun rel => joinpath root_dir (MkPath "" rel)) rels) g
    = Ok g' →
  (NoDup (map fst g) → NoDup (map fst g')) ∧
  (∀ k, k ∈ map fst g' ↔ k ∈ map fst g ∨ ∃ rel, rel ∈ rels ∧ k = module_name rel) ∧
  (∀ kv, kv ∈ g' →
     kv ∈ g ∨ ∃ rel, rel ∈ rels ∧ kv.1 = module_name rel ∧ edges_of fs root_dir rel = Ok kv.2).
Proof.
  revert g. induction rels as [|rel rels IH]; intros g.
  - intros [= <-]. split; [done|]. split; [|by left].
    intros k. split; [by left|]. intros [H|(rel & ?%elem_of_nil & _)]; done.
  - cbn [map for_each]. intros (g1 & Hscan & Hrest)%bind_Ok.
    destruct (IH g1 Hrest) as (Hnd & Hkeys & Helem).
    unfold scan_file in Hscan. rewrite relative_to_joinpath in Hscan.
    cbn [mbind result_bind] in Hscan.
    apply bind_Ok in Hscan as (imports & Himports & Hscan).
    apply bind_Ok in Hscan as (edges & Hedges & [= <-]).
    assert (Hof : edges_of fs root_dir rel = Ok edges).
    { unfold edges_of. cbv zeta. rewrite Himports. exact Hedges. }
    fold (module_name rel) in *.
    split; [|split].
    + intros Hg. by apply Hnd, dict_set_NoDup.
    + intros k. rewrite Hkeys, dict_set_keys. split.
      * intros [[->|H]|(r & Hr & ->)]; [right|by left|right].
        -- exists rel. split; [set_solver|done].
        -- exists r. split; [set_solver|done].
      * intros [H|(r & [->|Hr]%elem_of_cons & ->)]; [by left; right|by left; left|right].
        by exists r.
    + intros kv [Hin|(r & Hr & Hk & Hv)]%Helem.
      * apply dict_set_elem in Hin as [->|Hin]; [right|by left].
        exists rel. split; [set_solver|by split].
      * right. exists r. split; [set_solver|by split].
Qed.

(** The graph that [build_dependency_graph] returns. *)
Lemma build_dependency_graph_nodes (fs : file_system) (rglob : string → list (list string))
    (root_dir : Path) (extensions : list string) :
  ∃ graph,
    build_dependency_graph fs rglob root_dir extensions = Ok graph ∧
    NoDup (graph_keys graph) ∧
    (∀ k, k ∈ graph_keys graph
          ↔ ∃ rel, rel ∈ kept_files rglob root_dir extensions ∧ k = module_name rel) ∧
    (∀ k vs, graph_get graph k = Some vs →
       ∃ rel, rel ∈ kept_files rglob root_dir extensions ∧ k = module_name rel
              ∧ edges_of fs root_dir rel = Ok vs).
Proof.
  destruct (build_dependency_graph_total fs rglob root_dir extensions) as (graph & Hbuild).
  exists graph. split; [done|].
  unfold build_dependency_graph in Hbuild. rewrite scanned_files_kept in Hbuild.
  apply scan_files_loop in Hbuild as (Hnd & Hkeys & Helem).
  unfold graph_keys. split; [apply Hnd; constructor|]. split.
  - intros k. rewrite Hkeys. simpl. split; [|by right].
    intros [?%elem_of_nil|H]; done.
  - intros k vs Hget%graph_get_elem. apply Helem in Hget as [?%elem_of_nil|H]; done.
Qed.

(** X17: the graph that [build_dependency_graph] returns has one node per
    kept file: its keys are, without repetition, the paths relative to
    the root of the enumerated files that pass the filter on test files and
    [node_modules]; and the successors of a key are the edges that the
    references of a kept file of that name resolve to. *)
Theorem graph_has_a_node_per_kept_file (fs : file_system)
    (rglob : string → list (list string)) (root_dir : Path) (extensions : list string) :
  ∃ graph,
    build_dependency_graph fs rglob root_dir extensions = Ok graph ∧
    NoDup (graph_keys graph) ∧
    (∀ k, k ∈ graph_keys graph
          ↔ ∃ rel, rel ∈ kept_files rglob root_dir extensions ∧ k = module_name rel) ∧
    (∀ k vs, graph_get graph k = Some vs →
       ∃ rel, rel ∈ kept_files rglob root_dir extensions ∧ k = module_name rel
              ∧ edges_of fs root_dir rel = Ok vs).
Proof. apply build_dependency_graph_nodes. Qed.

(** X18: the two stages composed: the graph is built, the detector
    returns on it, and every step of every sequence it reports goes from
    a kept file to one of the edges that the references of that file
    resolve to. *)
Theorem reported_cycles_follow_references (fs : file_system)
    (rglob : string → list (list string)) (root_dir : Path) (extensions : list string) :
  ∃ graph out,
    build_dependency_graph fs rglob root_dir extensions = Ok graph ∧
    find_circular_dependencies graph = Ok out ∧
    ∀ s u v, s ∈ out → (u, v) ∈ steps s →
      ∃ rel vs, rel ∈ kept_files rglob root_dir extensions ∧ u = module_name rel ∧
                edges_of fs root_dir rel = Ok vs ∧ v ∈ vs.
Proof.
  destruct (build_dependency_graph_nodes fs rglob root_dir extensions)
    as (graph & Hbuild & _ & _ & Hget).
  destruct (find_circular_dependencies_total graph) as (σ & _ & Hout & _ & _ & _ & Hsound).
  exists graph, (remove_duplicates (circulars σ)). split; [done|]. split; [done|].
  intros s u v Hs Huv.
  destruct (Hsound s Hs) as (x & m & _ & _ & Hwalk).
  destruct (Hwalk u v Huv) as (vs & Hvs & Hv).
  destruct (Hget u vs Hvs) as (rel & Hrel & Hu & Hedges).
  by exists rel, vs.
Qed.

(** Two modules that import each other by file name: the graph is built
    and the cycle is reported. *)
Lemma two_modules_cycle_found :
  (graph ← build_dependency_graph pair_fs pair_rglob (parse "/proj") [".ts"] ;
   find_circular_dependencies graph)
  = Ok [["a.ts"; "b.ts"; "a.ts"]].
Proof. vm_compute. reflexivity. Qed.

(** ** The statistics of a graph *)

Section GraphStatistics.

Import EnhanceAudit.

Lemma count_deps_loop (deps : list string) (ext : gset string) (imported : list (string * nat))
    (n : nat) :
  fold_left count_dep deps (ext, imported, n)
  = (ext ∪ list_to_set (package_name <$> List.filter (fun d => negb (internal d)) deps),
     fold_left incr (List.filter internal deps) imported,
     n + internal_count deps).
Proof.
  unfold internal_count. revert ext imported n.
  induction deps as [|dep deps IH]; intros ext imported n.
  - simpl. f_equal; [f_equal; set_solver|lia].
  - cbn [fold_left List.filter]. unfold count_dep at 2.
    assert (Hi : internal dep = negb (PyStr.startswith dep "external:")) by reflexivity.
    revert Hi.
    destruct (PyStr.startswith dep "external:"); cbn [negb]; intros Hi; rewrite Hi;
      cbn [negb]; rewrite IH.
    + f_equal. f_equal. rewrite fmap_cons. fold (package_name dep). set_solver.
    + cbn [fold_left length]. f_equal. lia.
Qed.

Lemma count_modules_loop (graph : list (string * list string)) (ext : gset string)
    (imported most_deps : list (string * nat)) (isolated : list string) :
  fold_left count_module graph (ext, imported, most_deps, isolated)
  = (ext ∪ list_to_set
             (flat_map (fun item => package_name
                                      <$> List.filter (fun d => negb (internal d)) item.2) graph),
     fold_left incr (internal_deps graph) imported,
     most_deps ++ List.filter (fun e => bool_decide (0 < e.2))
                              ((fun item => (item.1, internal_count item.2)) <$> graph),
     isolated ++ (List.filter (fun item => bool_decide (item.2 = [])) graph).*1).
Proof.
  revert ext imported most_deps isolated.
  induction graph as [|[module deps] graph IH]; intros ext imported most_deps isolated.
  - simpl. rewrite !app_nil_r. f_equal. f_equal. f_equal. set_solver.
  - cbn [fold_left]. unfold count_module at 2. rewrite count_deps_loop, IH.
    unfold internal_deps. cbn [flat_map fmap list_fmap List.filter fst snd].
    rewrite fold_left_app, Nat.add_0_l. f_equal; [f_equal; [f_equal|]|].
    + rewrite list_to_set_app_L. set_solver.
    + destruct (decide (0 < internal_count deps)) as [Hpos|Hzero].
      * rewrite (bool_decide_eq_true_2 _ Hpos). by rewrite <- app_assoc.
      * by rewrite (bool_decide_eq_false_2 _ Hzero).
    + destruct (decide (deps = [])) as [->|Hne].
      * rewrite bool_decide_eq_true_2 by done. by rewrite <- app_assoc.
      * by rewrite bool_decide_eq_false_2 by done.
Qed.

(** *** The dictionary of counts *)

Lemma incr_keys (d : list (string * nat)) (k k' : string) :
  k' ∈ (incr d k).*1 ↔ k' = k ∨ k' ∈ d.*1.
Proof.
  induction d as [|[k0 n] d IH]; simpl.
  - set_solver.
  - destruct (decide (k0 = k)) as [->|Hne]; simpl; [set_solver|].
    rewrite !elem_of_cons, IH. naive_solver.
Qed.

Lemma incr_NoDup (d : list (string * nat)) (k : string) :
  NoDup d.*1 → NoDup (incr d k).*1.
Proof.
  induction d as [|[k0 n] d IH]; simpl; intros Hnd.
  - apply NoDup_singleton.
  - apply NoDup_cons in Hnd as [Hnotin Hnd].
    destruct (decide (k0 = k)) as [->|Hne]; simpl.
    + by apply NoDup_cons.
    + apply NoDup_cons. split; [|by apply IH]. rewrite incr_keys. naive_solver.
Qed.

Lemma incr_get (d : list (string * nat)) (k k' : string) :
  dict_get (incr d k) k' = if decide (k' = k) then S (dict_get d k) else dict_get d k'.
Proof.
  induction d as [|[k0 n] d IH]; simpl.
  - destruct (decide (k = k')) as [->|Hne].
    + by rewrite decide_True.
    + by rewrite decide_False by done.
  - destruct (decide (k0 = k)) as [->|Hne]; simpl.
    + destruct (decide (k = k')) as [->|Hne'].
      * by rewrite decide_True.
      * by rewrite decide_False by done.
    + destruct (decide (k0 = k')) as [->|Hne'].
      * by rewrite decide_False by done.
      * exact IH.
Qed.

Lemma incr_positive (d : list (string * nat)) (k : string) :
  Forall (fun e => 0 < e.2) d → Forall (fun e => 0 < e.2) (incr d k).
Proof.
  induction d as [|[k0 n] d IH]; simpl; intros Hd.
  - constructor; [simpl; lia|constructor].
  - apply Forall_cons in Hd as [Hn Hd].
    destruct (decide (k0 = k)); constructor; simpl in *; auto; lia.
Qed.

Lemma dict_get_elem (d : list (string * nat)) (k : string) (n : nat) :
  NoDup d.*1 → Forall (fun e => 0 < e.2) d →
  (k, n) ∈ d ↔ 0 < n ∧ dict_get d k = n.
Proof.
  induction d as [|[k0 n0] d IH]; simpl; intros Hnd Hpos.
  - split; [by intros ?%elem_of_nil|lia].
  - apply NoDup_cons in Hnd as [Hnotin Hnd]. apply Forall_cons in Hpos as [Hn0 Hpos].
    simpl in Hn0. rewrite elem_of_cons, (IH Hnd Hpos).
    destruct (decide (k0 = k)) as [->|Hne].
    + split.
      * intros [[= ->]|[Hn Hget]]; [done|].
        destruct Hnotin. apply list_elem_of_fmap. exists (k, n). split; [done|].
        by apply (proj2 (IH Hnd Hpos)).
      * intros [Hn ->]. by left.
    + split.
      * intros [[= -> ->]|H]; done.
      * intros H. by right.
Qed.

Lemma counted_deps (l : list string) (d : list (string * nat)) :
  NoDup d.*1 → Forall (fun e => 0 < e.2) d →
  NoDup (fold_left incr l d).*1 ∧ Forall (fun e => 0 < e.2) (fold_left incr l d) ∧
  ∀ k, dict_get (fold_left incr l d) k
       = dict_get d k + length (List.filter (fun x => bool_decide (x = k)) l).
Proof.
  revert d. induction l as [|x l IH]; intros d Hnd Hpos.
  - simpl. split; [done|]. split; [done|]. intros k. lia.
  - cbn [fold_left List.filter].
    destruct (IH (incr d x) (incr_NoDup d x Hnd) (incr_positive d x Hpos)) as (H1 & H2 & H3).
    split; [done|]. split; [done|]. intros k. rewrite H3, incr_get.
    destruct (decide (k = x)) as [->|Hne].
    + rewrite bool_decide_eq_true_2 by done. simpl. lia.
    + by rewrite bool_decide_eq_false_2 by done.
Qed.

(** *** Sorting *)

Lemma insert_desc_perm (x : string * nat) (l : list (string * nat)) :
  insert_desc x l ≡ₚ x :: l.
Proof.
  induction l as [|y l IH]; simpl; [done|].
  destruct (decide (x.2 < y.2)); [|done]. rewrite IH. apply Permutation_swap.
Qed.

Lemma sort_desc_perm (l : list (string * nat)) : sort_desc l ≡ₚ l.
Proof.
  induction l as [|x l IH]; simpl; [done|]. by rewrite insert_desc_perm, IH.
Qed.

Lemma insert_desc_descending (x : string * nat) (l : list (string * nat)) :
  descending l → descending (insert_desc x l).
Proof.
  induction l as [|y l IH]; simpl; intros Hl.
  - split; [by intros y ?%elem_of_nil|done].
  - destruct Hl as [Hy Hl]. destruct (decide (x.2 < y.2)) as [Hlt|Hge]; simpl.
    + split; [|by apply IH]. intros z Hz. rewrite insert_desc_perm in Hz.
      apply elem_of_cons in Hz as [->|Hz]; [lia|by apply Hy].
    + split; [|by split]. intros z [->|Hz]%elem_of_cons; [lia|].
      specialize (Hy z Hz). lia.
Qed.

Lemma sort_desc_descending (l : list (string * nat)) : descending (sort_desc l).
Proof.
  induction l as [|x l IH]; simpl; [done|]. by apply insert_desc_descending.
Qed.

Lemma descending_take (n : nat) (l : list (string * nat)) :
  descending l → descending (take n l).
Proof.
  revert n. induction l as [|x l IH]; intros [|n]; simpl; try done.
  intros [Hx Hl]. split; [|by apply IH]. intros y Hy. apply Hx.
  apply elem_of_take in Hy as (i & Hi & _). by eapply list_elem_of_lookup_2.
Qed.

Lemma descending_top (n : nat) (l : list (string * nat)) (x : string * nat) :
  descending l → x ∈ l →
  x ∈ take n l ∨ (length (take n l) = n ∧ ∀ e, e ∈ take n l → x.2 ≤ e.2).
Proof.
  revert n. induction l as [|y l IH]; intros n Hl Hx; [by apply elem_of_nil in Hx|].
  destruct n as [|n]; [right; split; [done|by intros e ?%elem_of_nil]|].
  destruct Hl as [Hy Hl]. cbn [take].
  apply elem_of_cons in Hx as [->|Hx]; [left; set_solver|].
  destruct (IH n Hl Hx) as [Hin|[Hlen Htop]]; [left; set_solver|].
  right. split; [simpl; lia|].
  intros e [->|He]%elem_of_cons; [by apply Hy|by apply Htop].
Qed.

(** What the top ten of a list of counts are. *)
Lemma top_ten (l : list (string * nat)) :
  length (take 10 (sort_desc l)) ≤ 10 ∧
  descending (take 10 (sort_desc l)) ∧
  (∀ e, e ∈ take 10 (sort_desc l) → e ∈ l) ∧
  (NoDup l.*1 → NoDup (take 10 (sort_desc l)).*1) ∧
  ∀ x, x ∈ l →
    x ∈ take 10 (sort_desc l)
    ∨ (length (take 10 (sort_desc l)) = 10 ∧ ∀ e, e ∈ take 10 (sort_desc l) → x.2 ≤ e.2).
Proof.
  split; [rewrite length_take; lia|].
  split; [apply descending_take, sort_desc_descending|].
  split; [|split].
  - intros e He. rewrite <- (sort_desc_perm l).
    apply elem_of_take in He as (i & Hi & _). by eapply list_elem_of_lookup_2.
  - intros Hnd. rewrite <- (sort_desc_perm l) in Hnd.
    rewrite <- (take_drop 10 (sort_desc l)), fmap_app in Hnd.
    by apply NoDup_app in Hnd as [Hnd _].
  - intros x Hx. apply descending_top; [apply sort_desc_descending|].
    by rewrite (sort_desc_perm l).
Qed.

(** The statistics, by the lists that the loop has built. *)
Lemma analyze_graph_statistics_eq (graph : list (string * list string)) :
  analyze_graph_statistics graph
  = Stats (length graph)
      (list_to_set
         (flat_map (fun item => package_name
                                  <$> List.filter (fun d => negb (internal d)) item.2) graph))
      (take 10 (sort_desc (fold_left incr (internal_deps graph) [])))
      (take 10 (sort_desc (List.filter (fun e => bool_decide (0 < e.2))
                             ((fun item => (item.1, internal_count item.2)) <$> graph))))
      (List.filter (fun item => bool_decide (item.2 = [])) graph).*1.
Proof.
  unfold analyze_graph_statistics. rewrite count_modules_loop. simpl. f_equal. set_solver.
Qed.

(** X19: what [analyze_graph_statistics] counts: the modules are
    the entries of the graph; the isolated modules are, in order, those
    with no successor at all; the external dependencies are the
    successors that begin with [external:], with that text removed; a
    module listed among those with most dependencies is listed with the
    number of its successors that are not external, which is positive; and
    a module listed among the most imported is listed once, with the
    number of times it occurs among the successors that are not external. *)
Theorem graph_statistics_count (graph : list (string * list string)) :
  let s := analyze_graph_statistics graph in
  total_modules s = length graph ∧
  isolated_modules s = (List.filter (fun item => bool_decide (item.2 = [])) graph).*1 ∧
  (∀ x, x ∈ external_deps s
        ↔ ∃ module deps dep, (module, deps) ∈ graph ∧ dep ∈ deps ∧
                             PyStr.startswith dep "external:" = true ∧
                             x = PyStr.replace_all dep "external:" "") ∧
  (∀ module c, (module, c) ∈ most_dependencies s →
     0 < c ∧ ∃ deps, (module, deps) ∈ graph ∧ c = internal_count deps) ∧
  NoDup (most_imported s).*1 ∧
  (∀ dep n, (dep, n) ∈ most_imported s → 0 < n ∧ n = imports_of graph dep).
Proof.
  cbv zeta. rewrite analyze_graph_statistics_eq.
  cbn [total_modules isolated_modules external_deps most_dependencies most_imported].
  destruct (counted_deps (internal_deps graph) []) as (Hnd & Hpos & Hget);
    [constructor|constructor|].
  split; [done|]. split; [done|]. split; [|split; [|split]].
  - intros x. rewrite elem_of_list_to_set, elem_of_flat_map. split.
    + intros ([module deps] & Hitem & Hx). simpl in Hx.
      apply list_elem_of_fmap in Hx as (dep & -> & Hdep).
      apply list_elem_of_In, filter_In in Hdep as [Hdep Hext].
      exists module, deps, dep. split; [done|]. split; [by apply list_elem_of_In|].
      split; [|done]. unfold internal in Hext. by destruct (PyStr.startswith dep _).
    + intros (module & deps & dep & Hitem & Hdep & Hext & ->).
      exists (module, deps). split; [done|]. simpl.
      apply list_elem_of_fmap. exists dep. split; [done|].
      apply list_elem_of_In, filter_In. split; [by apply list_elem_of_In|].
      unfold internal. by rewrite Hext.
  - intros module c Hin.
    apply (proj1 (proj2 (proj2 (top_ten _)))) in Hin.
    apply list_elem_of_In, filter_In in Hin as [Hin Hc].
    apply bool_decide_eq_true in Hc. simpl in Hc. split; [done|].
    apply list_elem_of_In, list_elem_of_fmap in Hin as ([m deps] & [= -> ->] & Hitem).
    by exists deps.
  - by apply (proj1 (proj2 (proj2 (proj2 (top_ten _))))).
  - intros dep n Hin.
    apply (proj1 (proj2 (proj2 (top_ten _)))) in Hin.
    apply (dict_get_elem _ _ _ Hnd Hpos) in Hin as [Hn Hdep].
    split; [done|]. rewrite Hget in Hdep. simpl in Hdep. by rewrite <- Hdep.
Qed.

(** X20: the two rankings of [analyze_graph_statistics] are top-ten
    lists: each has at most ten entries, in order of decreasing count; a
    module with a successor that is not external is ranked among those
    with most dependencies unless ten modules with at least as many are;
    and a module that is imported is ranked among the most imported
    unless ten modules imported at least as often are. *)
Theorem graph_statistics_rank (graph : list (string * list string)) :
  let s := analyze_graph_statistics graph in
  length (most_dependencies s) ≤ 10 ∧ descending (most_dependencies s) ∧
  (∀ module deps, (module, deps) ∈ graph → 0 < internal_count deps →
     (module, internal_count deps) ∈ most_dependencies s
     ∨ (length (most_dependencies s) = 10
        ∧ ∀ e, e ∈ most_dependencies s → internal_count deps ≤ e.2)) ∧
  length (most_imported s) ≤ 10 ∧ descending (most_imported s) ∧
  (∀ dep, 0 < imports_of graph dep →
     (dep, imports_of graph dep) ∈ most_imported s
     ∨ (length (most_imported s) = 10
        ∧ ∀ e, e ∈ most_imported s → imports_of graph dep ≤ e.2)).
Proof.
  cbv zeta. rewrite analyze_graph_statistics_eq.
  cbn [total_modules isolated_modules external_deps most_dependencies most_imported].
  destruct (counted_deps (internal_deps graph) []) as (Hnd & Hpos & Hget);
    [constructor|constructor|].
  split; [apply top_ten|]. split; [apply top_ten|]. split; [|split; [|split]].
  - intros module deps Hitem Hc.
    apply (proj2 (proj2 (proj2 (proj2 (top_ten _)))) (module, internal_count deps)).
    apply list_elem_of_In, filter_In. split; [|by apply bool_decide_eq_true].
    apply list_elem_of_In, list_elem_of_fmap. by exists (module, deps).
  - apply top_ten.
  - apply top_ten.
  - intros dep Hdep.
    apply (proj2 (proj2 (proj2 (proj2 (top_ten _)))) (dep, imports_of graph dep)).
    apply (dict_get_elem _ _ _ Hnd Hpos). split; [done|]. by rewrite Hget.
Qed.

End GraphStatistics.

(** ** C4: what is committed to the file *)

(** A step of the loop raises only if the file is outside the base
    directory. *)
Lemma fix_link_total (file_path rel : Path) (lnk : string * string * string)
    (st : loop_state) :
  relative_to file_path BASE_DIR = Ok rel →
  ∃ st', fix_link file_path lnk st = Ok st'.
Proof.
  intros Hrel. destruct lnk as [[full_match link_text] link_url]. unfold fix_link.
  destruct (resolve_link (fs (w st)) file_path link_url) as [[] ?]; [eauto|].
  cbn [w content file_stats].
  destruct (find_correct_path (fs (w st)) (file_cache (w st)) file_path link_url)
    as [corrected|].
  - destruct (bool_decide (corrected ≠ "") && bool_decide (corrected ≠ link_url)).
    + cbv zeta.
      match goal with
      | |- context [resolve_link ?a ?b ?c] => destruct (resolve_link a b c) as [[] ?]
      end.
      * eauto.
      * unfold record_unfixable. rewrite Hrel. simpl. eauto.
    + unfold record_unfixable. rewrite Hrel. simpl. eauto.
  - unfold record_unfixable. rewrite Hrel. simpl. eauto.
Qed.

Lemma fix_links_total (file_path rel : Path) (links : list (string * string * string))
    (st : loop_state) :
  relative_to file_path BASE_DIR = Ok rel →
  ∃ st', for_each (fix_link file_path) links st = Ok st'.
Proof.
  intros Hrel.
  destruct (for_each_invariant (fun _ => True) (fix_link file_path) links st)
    as (st' & Hrun & _); [|done|by exists st'].
  intros lnk st0 _ _. destruct (fix_link_total file_path rel lnk st0 Hrel) as (st1 & ->).
  by exists st1.
Qed.

(** C4, amended: for a broken link of a file with a chosen replacement,
    the loop of [fix_links_in_file] reaches the link, and substitutes the
    replacement into the content it is building, counting and recording
    the fix, exactly when the replacement passes [resolve_link], the
    check that found the link broken; when it does not pass, the content
    is unchanged for that link, no fix is counted, and an unfixable record
    with the attempted replacement is appended. The content that the loop
    ends with is what the file reads afterwards when the run is not a dry
    run and the file can be written; otherwise the file reads as before,
    whatever was counted. No other file is changed. *)
Theorem revalidation_gates_substitution (file_path rel : Path) (dry_run : bool) (w0 : world)
    (original : string) (before after : list (string * string * string))
    (full_match link_text link_url corrected : string) :
  read_text (fs w0) file_path = inr original →
  extract_markdown_links original = before ++ (full_match, link_text, link_url) :: after →
  fst (resolve_link (fs w0) file_path link_url) = false →
  find_correct_path (fs w0) (file_cache w0) file_path link_url = Some corrected →
  corrected ≠ "" →
  corrected ≠ link_url →
  relative_to file_path BASE_DIR = Ok rel →
  let new_link := corrected +:+ link_anchor link_url in
  let passes := fst (resolve_link (fs w0) file_path new_link) in
  ∃ st st' st_end w',
    for_each (fix_link file_path) before
      (LoopState original
         (FileStats (length (extract_markdown_links original)) 0 0 0 []) w0) = Ok st ∧
    fix_link file_path (full_match, link_text, link_url) st = Ok st' ∧
    for_each (fix_link file_path) after st' = Ok st_end ∧
    fix_links_in_file file_path dry_run w0 = Ok (file_stats st_end, w') ∧
    (fixed_links (file_stats st') = S (fixed_links (file_stats st)) ↔ passes = true) ∧
    (if passes then
       content st' = PyStr.replace_first (content st) full_match
                       (rebuilt_link link_text new_link) ∧
       fixes (file_stats st') = fixes (file_stats st) ++ [FixRecord link_url new_link link_text] ∧
       unfixable_links (w st') = unfixable_links (w st)
     else
       content st' = content st ∧
       fixes (file_stats st') = fixes (file_stats st) ∧
       fixed_links (file_stats st') = fixed_links (file_stats st) ∧
       unfixable_links (w st') =
         unfixable_links (w st) ++ [UnfixableRecord (to_str rel) link_url (Some new_link) None]) ∧
    read_text (fs w') file_path
      = inr (if negb dry_run && writable (fs w0) file_path then content st_end else original) ∧
    (∀ p, p ≠ file_path → read_text (fs w') p = read_text (fs w0) p).
Proof.
  intros Hread Hlinks Hbroken Hfind Hne1 Hne2 Hrel new_link passes.
  set (st0 := LoopState original
                (FileStats (length (extract_markdown_links original)) 0 0 0 []) w0).
  destruct (fix_links_total file_path rel before st0 Hrel) as (st & Hbefore).
  pose proof (fix_links_loop _ _ _ _ Hbefore) as (Hfs & Hcache & _).
  cbn [w st0] in Hfs, Hcache.
  destruct (fix_link_gated file_path rel full_match link_text link_url corrected st)
    as (st' & Hstep & Hfs' & Hiff & Hcase);
    [by rewrite Hfs|by rewrite Hfs, Hcache|done|done|done|].
  cbv zeta in Hiff, Hcase. rewrite Hfs in Hiff, Hcase.
  fold new_link in Hiff, Hcase. fold passes in Hiff, Hcase.
  destruct (fix_links_total file_path rel after st' Hrel) as (st_end & Hafter).
  pose proof (fix_links_loop _ _ _ _ Hafter) as (Hfs_end & _).
  assert (Hloop : for_each (fix_link file_path) (extract_markdown_links original) st0
                  = Ok st_end).
  { rewrite Hlinks, for_each_app, Hbefore. cbn [mbind result_bind for_each].
    rewrite Hstep. exact Hafter. }
  assert (Hfs0 : fs (w st_end) = fs w0) by congruence.
  assert (Hend : ∃ w',
            fix_links_in_file file_path dry_run w0 = Ok (file_stats st_end, w') ∧
            read_text (fs w') file_path
              = inr (if negb dry_run && writable (fs w0) file_path
                     then content st_end else original) ∧
            (∀ p, p ≠ file_path → read_text (fs w') p = read_text (fs w0) p)).
  { unfold fix_links_in_file. rewrite Hread. fold st0. rewrite Hloop.
    cbn [mbind result_bind].
    destruct dry_run; cbn [negb andb].
    { exists (w st_end). rewrite Hfs0. by repeat split. }
    destruct (bool_decide (content st_end ≠ original)) eqn:Hchanged.
    - unfold write_text. rewrite Hfs0.
      destruct (writable (fs w0) file_path) eqn:Hwritable; simpl.
      + eexists. split; [reflexivity|]. simpl. rewrite decide_True by done.
        split; [done|]. intros p Hp. by rewrite decide_False.
      + exists (w st_end). rewrite Hfs0. by repeat split.
    - apply bool_decide_eq_false in Hchanged.
      assert (Hsame : content st_end = original)
        by (destruct (decide (content st_end = original)); [done|by destruct Hchanged]).
      exists (w st_end). rewrite Hfs0, Hsame. split; [done|]. split; [|done].
      by destruct (writable (fs w0) file_path). }
  destruct Hend as (w' & Hrun & Hfile & Hothers).
  exists st, st', st_end, w'. repeat split; try done; by apply Hiff.
Qed.

(** The link [x.md] of [s.md] is broken, its replacement passes the check,
    and the run that is not a dry run writes the rewritten link. *)
Lemma revalidation_gates_substitution_witness :
  ∃ w', fix_links_in_file (docs_file ["s.md"]) false paren_world
          = Ok (file_stats paren_after_step, w') ∧
        read_text (fs w') (docs_file ["s.md"]) = inr "[t](x.md)/x.md)".
Proof.
  destruct (revalidation_gates_substitution (docs_file ["s.md"]) (MkPath "" ["docs"; "s.md"])
              false paren_world "[t](x.md)" [] [] "[t](x.md)" "t" "x.md" "x.md)/x.md")
    as (st & st' & st_end & w' & Hbefore & Hstep & Hafter & Hrun & _ & _ & Hfile & _);
    [vm_compute; reflexivity | vm_compute; reflexivity | vm_compute; reflexivity
    | vm_compute; reflexivity | discriminate | discriminate | vm_compute; reflexivity |].
  injection Hbefore as <-. vm_compute in Hstep. injection Hstep as <-.
  injection Hafter as <-.
  exists w'. split; [exact Hrun|exact Hfile].
Defined.

(** C4, as stated, fails: the replacement of the link of [s.md] passes the
    check and the fix is counted, but in a dry run, and when the file
    cannot be written, nothing is committed: the file reads as before. *)
Lemma revalidated_fix_not_committed :
  fst (resolve_link paren_fs (docs_file ["s.md"]) "x.md") = false ∧
  find_correct_path paren_fs (file_cache paren_world) (docs_file ["s.md"]) "x.md"
    = Some "x.md)/x.md" ∧
  fst (resolve_link paren_fs (docs_file ["s.md"]) "x.md)/x.md") = true ∧
  (∃ s w', fix_links_in_file (docs_file ["s.md"]) true paren_world = Ok (s, w') ∧
           fixed_links s = 1 ∧
           read_text (fs w') (docs_file ["s.md"]) = inr "[t](x.md)") ∧
  (∃ s w', fix_links_in_file (docs_file ["s.md"]) false paren_readonly_world = Ok (s, w') ∧
           fixed_links s = 1 ∧
           read_text (fs w') (docs_file ["s.md"]) = inr "[t](x.md)").
Proof.
  split; [vm_compute; reflexivity|]. split; [vm_compute; reflexivity|].
  split; [vm_compute; reflexivity|]. split.
  - destruct (fix_links_in_file (docs_file ["s.md"]) true paren_world)
      as [[s w']| |] eqn:Hrun; [|vm_compute in Hrun; discriminate Hrun..].
    exists s, w'. split; [reflexivity|].
    assert (Hval : fix_links_in_file (docs_file ["s.md"]) true paren_world
                   = Ok (file_stats paren_after_step, w paren_after_step))
      by (vm_compute; reflexivity).
    rewrite Hval in Hrun. injection Hrun as <- <-. split; reflexivity.
  - exists (file_stats paren_after_step),
      (World paren_readonly_fs (file_cache paren_world) [] (<["x.md -> x.md" := 1]> ∅)
         (Stats 0 0 0 0 0 0)).
    split; [vm_compute; reflexivity|]. split; reflexivity.
Qed.
